(** * QICAS orbital rotations and tailored CCSD: a shallow embedding

    The development follows [src/qio/grad/jacobi.py] and [src/tccsd.py].

    Numbers.  The Python code computes in IEEE binary64.  Here every float
    is an exact real number ([R] of the Standard Library), so equality
    within numerical tolerance is read as equality of reals, and NaN and
    the infinities have no counterpart.

    Arrays.  A 2-D [ndarray] is a function of its two indices, the 2-RDM is
    a record of its length [len(Gamma)] and a function of four indices, 1-D
    arrays and index arrays are lists.  In-place assignment [M[p,q] = v]
    and [M[p,q] += v] are the point updates [setitem] and [iadd]; Python
    [for] loops are [fold_left] over the iterated list, threading the
    mutated arrays.

    Errors.  An [IndexError] or a failed [assert] is a [Raise] in the
    [result] type. *)

From Stdlib Require Import Reals Lra Lia List Arith ZArith Bool Permutation.
From Stdlib Require Import Sorted.
Import ListNotations.
Open Scope R_scope.

(** ** Exceptions *)

Inductive exn : Type := IndexError | AssertionError.

Inductive result (A : Type) : Type :=
| Ok (a : A)
| Raise (e : exn).
Arguments Ok {A} a.
Arguments Raise {A} e.

Definition bind {A B : Type} (r : result A) (k : A -> result B) : result B :=
  match r with
  | Ok a => k a
  | Raise e => Raise e
  end.

Notation "x <- r ;; k" := (bind r (fun x => k))
  (at level 61, r at next level, right associativity).

(** ** Arrays *)

Definition matrix : Type := nat -> nat -> R.
Definition tensor4 : Type := nat -> nat -> nat -> nat -> R.

(** A 4-index array of shape [(len, len, len, len)]. *)
Record ndarray4 : Type := mk_ndarray4 {
  len : nat;
  get4 : tensor4
}.

(** [np.zeros] and [np.eye]. *)
Definition zeros : matrix := fun _ _ => 0.
Definition eye : matrix := fun a b => if (a =? b)%nat then 1 else 0.

(** [M[p,q] = v]. *)
Definition setitem (M : matrix) (p q : nat) (v : R) : matrix :=
  fun p' q' => if ((p' =? p) && (q' =? q))%nat then v else M p' q'.

(** [M[p,q] += v]. *)
Definition iadd (M : matrix) (p q : nat) (v : R) : matrix :=
  setitem M p q (M p q + v).

(** The sum of [f k] for [k] running over [l]; [einsum] over an index of
    range [n] is [sum_over (seq 0 n)]. *)
Fixpoint sum_over (l : list nat) (f : nat -> R) : R :=
  match l with
  | [] => 0
  | k :: l' => f k + sum_over l' f
  end.

(** [list(set(l))]: the distinct elements of [l].  The order in which
    Python iterates a set is not specified; the sums below do not depend
    on it. *)
Definition list_set (l : list nat) : list nat := nodup Nat.eq_dec l.

Definition mat_eq (n : nat) (A B : matrix) : Prop :=
  forall p q, (p < n)%nat -> (q < n)%nat -> A p q = B p q.

Definition t4_eq (n : nat) (A B : tensor4) : Prop :=
  forall a b c d, (a < n)%nat -> (b < n)%nat -> (c < n)%nat -> (d < n)%nat ->
    A a b c d = B a b c d.

(** ** jacobi_transform (jacobi.py, lines 63-115) *)

(** [u1 = np.array([[cos t, sin t], [-sin t, cos t]])]. *)
Definition rot2 (t : R) : matrix :=
  fun r c =>
    match r, c with
    | O, O => cos t
    | O, S O => sin t
    | S O, O => - sin t
    | S O, S O => cos t
    | _, _ => 0
    end.

(** [U1 = np.eye(no)] followed by the four assignments, in source order. *)
Definition make_U1 (i j : nat) (t : R) : matrix :=
  let u1 := rot2 t in
  let U1 := eye in
  let U1 := setitem U1 i i (u1 0%nat 0%nat) in
  let U1 := setitem U1 i j (u1 0%nat 1%nat) in
  let U1 := setitem U1 j i (u1 1%nat 0%nat) in
  let U1 := setitem U1 j j (u1 1%nat 1%nat) in
  U1.

(** [np.einsum('ia,jb,kc,ld,abcd->ijkl', U, U, U, U, G)] with every index
    of range [no]. *)
Definition einsum4 (no : nat) (U : matrix) (G : tensor4) : tensor4 :=
  fun i j k l =>
    sum_over (seq 0 no) (fun a =>
    sum_over (seq 0 no) (fun b =>
    sum_over (seq 0 no) (fun c =>
    sum_over (seq 0 no) (fun d =>
      U i a * U j b * U k c * U l d * G a b c d)))).

(** [m_list] with [testa] (and [n_list] with [testb]), lines 93-98. *)
Definition mix_list (a i j : nat) : nat * list nat :=
  if ((a =? i) || (a =? j))%nat then (1%nat, list_set [a; i; j])
  else (0%nat, [a]).

(** The body of the loop over [b], lines 100-113. *)
Definition update_cell (U1 gamma : matrix) (i j a : nat)
    (testa : nat) (m_list : list nat) (gamma_ : matrix) (b : nat) : matrix :=
  let '(testb, n_list) := mix_list b i j in
  if (0 <? testa + testb)%nat then
    fold_left (fun g m =>
      fold_left (fun g n =>
        let g := iadd g (2 * a) (2 * b)
                   (U1 a m * U1 b n * gamma (2 * m)%nat (2 * n)%nat) in
        iadd g (2 * a + 1) (2 * b + 1)
          (U1 a m * U1 b n * gamma (2 * m + 1)%nat (2 * n + 1)%nat))
        n_list g)
      m_list gamma_
  else
    let g := setitem gamma_ (2 * a) (2 * b) (gamma (2 * a)%nat (2 * b)%nat) in
    setitem g (2 * a + 1) (2 * b + 1) (gamma (2 * a + 1)%nat (2 * b + 1)%nat).

(** The body of the loop over [a], lines 92-113. *)
Definition update_row (no : nat) (U1 gamma : matrix) (i j : nat)
    (gamma_ : matrix) (a : nat) : matrix :=
  let '(testa, m_list) := mix_list a i j in
  fold_left (update_cell U1 gamma i j a testa m_list) (seq 0 no) gamma_.

(** The selective update of the 1-RDM, lines 87 and 92-113. *)
Definition transform_gamma (no : nat) (U1 gamma : matrix) (i j : nat) : matrix :=
  fold_left (update_row no U1 gamma i j) (seq 0 no) zeros.

(** [U1[i,i] = ...] raises [IndexError] when [i] or [j] is not below [no]
    (negative indices are not modelled: indices are [nat]). *)
Definition jacobi_transform (gamma : matrix) (Gamma : ndarray4) (i j : nat) (t : R)
  : result (matrix * ndarray4) :=
  let no := len Gamma in
  if ((i <? no) && (j <? no))%nat then
    let U1 := make_U1 i j t in
    let Gamma_ := mk_ndarray4 no (einsum4 no U1 (get4 Gamma)) in
    let gamma_ := transform_gamma no U1 gamma i j in
    Ok (gamma_, Gamma_)
  else Raise IndexError.

(** ** jacobi_cost and jacobi_direct (jacobi.py, lines 15-60 and 117-158) *)

(** [np.arange(start, stop, step)]: [ceil((stop - start) / step)] values
    [start + k * step]. *)
Definition arange (start stop step : R) : list R :=
  map (fun k => start + INR k * step)
      (seq 0 (Z.to_nat (Zceil ((stop - start) / step)))).

Definition grid : R := 0.01.
Definition small_grid : R := 0.0001.

(** One iteration of the first loop of [jacobi_direct] over a cost
    function [cost_at]: the state is [(t_opt, cost)]. *)
Definition coarse_step (cost_at : R -> R) (st : R * R) (t : R) : R * R :=
  let '(t_opt, cost) := st in
  let new_cost := cost_at t in
  if Rgt_dec cost new_cost then (t, new_cost) else (t_opt, cost).

Definition coarse_scan (cost_at : R -> R) : R * R :=
  fold_left (coarse_step cost_at) (arange grid PI grid) (0, cost_at 0).

(** Lines 146-149: the angles the second loop examines. *)
Definition fine_angles (t_opt : R) : list R :=
  let t_opt := if Req_dec_T t_opt 0 then t_opt + grid else t_opt in
  arange (t_opt - grid) (t_opt + grid) small_grid.

(** One iteration of the second loop: the state is
    [(test, t_opt_new, cost)]; [t_opt_new] is unbound until the first
    acceptance. *)
Definition fine_step (cost_at : R -> R) (st : nat * option R * R) (t : R)
  : nat * option R * R :=
  let '(test, t_opt_new, cost) := st in
  let new_cost := cost_at t in
  if Rgt_dec cost (new_cost + 1e-8) then (1%nat, Some t, new_cost)
  else (test, t_opt_new, cost).

Definition fine_scan (cost_at : R -> R) (angles : list R) (cost : R)
  : nat * option R * R :=
  fold_left (fine_step cost_at) angles (0%nat, None, cost).

Section Entropy.

(** [qio.entropy.shannon] is not among the sources: the functions that
    call it take it as a parameter. *)
Variable shannon : list R -> R.

(** The orbital indices [i], [j] are read as given; the callers pass
    indices below [len(rdm2)]. *)
Definition jacobi_cost (theta : R) (i j : nat) (rdm1 : matrix) (rdm2 : ndarray4)
    (inactive_indices : list nat) : R :=
  let u1 := rot2 theta in
  let indices := [i; j] in
  let ix := fun m => nth m indices 0%nat in
  fold_left
    (fun cost_fun k =>
       if existsb (Nat.eqb k) inactive_indices then
         let index := (1 * (if k =? j then 1 else 0))%nat in
         let '(nu, nd, nn) :=
           fold_left (fun acc m =>
             fold_left (fun '(nu, nd, nn) n =>
               let nu := nu + u1 index m * u1 index n
                              * rdm1 (2 * ix m)%nat (2 * ix n)%nat in
               let nd := nd + u1 index m * u1 index n
                              * rdm1 (2 * ix m + 1)%nat (2 * ix n + 1)%nat in
               let nn :=
                 fold_left (fun nn p =>
                   fold_left (fun nn q =>
                     nn + u1 index m * u1 index n * u1 index p * u1 index q
                          * get4 rdm2 (ix m) (ix n) (ix p) (ix q))
                     (seq 0 2) nn)
                   (seq 0 2) nn in
               (nu, nd, nn))
               (seq 0 2) acc)
             (seq 0 2) (0, 0, 0) in
         let spec := [1 - nu - nd + nn; nu - nn; nd - nn; nn] in
         cost_fun + shannon spec
       else cost_fun)
    indices 0.

(** [None] is Python's [None]. *)
Definition jacobi_direct (i j : nat) (gamma : matrix) (Gamma : ndarray4)
    (inactive_indices : list nat) : option R :=
  let cost_at := fun t => jacobi_cost t i j gamma Gamma inactive_indices in
  let '(t_opt, cost) := coarse_scan cost_at in
  let '(test, t_opt_new, _) := fine_scan cost_at (fine_angles t_opt) cost in
  if (test =? 1)%nat then t_opt_new else None.

End Entropy.

(** ** The initial perturbation of minimize_orb_corr_jacobi (lines 196-198)

    [np.random.rand(no,no)] and [np.random.rand()] are inputs: [rand] is
    the matrix of draws and [u] the single draw, each in [0, 1). *)

Definition is_draw (x : R) : Prop := 0 <= x < 1.

(** [X = (np.random.rand(no,no)/2-1)/1/(1+49*np.random.rand())]. *)
Definition perturbation_raw (rand : matrix) (u : R) : matrix :=
  fun a b => (rand a b / 2 - 1) / 1 / (1 + 49 * u).

(** [X = X - X.T]. *)
Definition perturbation (rand : matrix) (u : R) : matrix :=
  fun a b => perturbation_raw rand u a b - perturbation_raw rand u b a.

(** ** reorder_fast (jacobi.py, lines 244-304) *)

(** [x[inds]] for an index array [inds] of non-negative indices. *)
Fixpoint take (x : list R) (inds : list nat) : result (list R) :=
  match inds with
  | [] => Ok []
  | k :: inds' =>
      match nth_error x k with
      | Some v => rest <- take x inds' ;; Ok (v :: rest)
      | None => Raise IndexError
      end
  end.

(** [P[inds]] for a 2-D array [P] of [nrows] rows: the rows of [P] in the
    order [inds]. *)
Definition take_rows (nrows : nat) (P : matrix) (inds : list nat) : result matrix :=
  if forallb (fun k => k <? nrows)%nat inds
  then Ok (fun r c => P (nth r inds 0%nat) c)
  else Raise IndexError.

(** [x[k]] for an integer [k]: a negative index counts from the end. *)
Definition getitem (x : list R) (k : Z) : result R :=
  let n := Z.of_nat (length x) in
  if ((0 <=? k) && (k <? n))%Z then Ok (nth (Z.to_nat k) x 0)
  else if ((- n <=? k) && (k <? 0))%Z then Ok (nth (Z.to_nat (n + k)) x 0)
  else Raise IndexError.

(** [np.argsort(x)]: the indices of [x] in ascending order of value.
    NumPy does not fix the order of equal values; here they keep their
    index order. *)
Fixpoint insert_index (v : nat -> R) (k : nat) (l : list nat) : list nat :=
  match l with
  | [] => [k]
  | h :: l' =>
      if Rle_dec (v k) (v h) then k :: l else h :: insert_index v k l'
  end.

Definition argsort (x : list R) : list nat :=
  fold_right (insert_index (fun k => nth k x 0)) [] (seq 0 (length x)).

(** [P @ v] for [P] of shape [(n, n)] and [v] of length [n]. *)
Definition matvec (n : nat) (P : matrix) (v : list R) : list R :=
  map (fun r => sum_over (seq 0 n) (fun c => P r c * nth c v 0)) (seq 0 n).

(** [A @ B] for square arrays of size [n]. *)
Definition matmul (n : nat) (A B : matrix) : matrix :=
  fun r c => sum_over (seq 0 n) (fun k => A r k * B k c).

(** [P.T]. *)
Definition transpose (P : matrix) : matrix := fun r c => P c r.

(** [np.allclose(a, b)] with the default [rtol=1e-05], [atol=1e-08], on
    two 1-D arrays of one length. *)
Definition allclose (a b : list R) : bool :=
  (length a =? length b)%nat &&
  forallb (fun '(x, y) =>
             if Rle_dec (Rabs (x - y)) (1e-8 + 1e-5 * Rabs y) then true else false)
          (combine a b).

(** The local spectrum of one orbital and the inline entropy
    [-np.sum(np.log(spec)*spec, axis=0)]. *)
Definition spectrum (nu nd nn : R) : list R :=
  [1 - nu - nd + nn; nu - nn; nd - nn; nn].

Definition inline_entropy (spec : list R) : R :=
  - fold_right Rplus 0 (map (fun p => ln p * p) spec).

(** Lines 262-269, one orbital at a time. *)
Definition orbital_entropies (gamma : matrix) (Gamma : ndarray4) : list R :=
  map (fun i => inline_entropy
                  (spectrum (gamma (2 * i)%nat (2 * i)%nat)
                            (gamma (2 * i + 1)%nat (2 * i + 1)%nat)
                            (get4 Gamma i i i i)))
      (seq 0 (len Gamma)).

Definition occupations (gamma : matrix) (Gamma : ndarray4) : list R :=
  map (fun i => gamma (2 * i)%nat (2 * i)%nat + gamma (2 * i + 1)%nat (2 * i + 1)%nat)
      (seq 0 (len Gamma)).

(** One re-indexing [P = P[inds]; s_val = s_val[inds]; occ_num = occ_num[inds]]. *)
Definition reindex (n_orb : nat) (st : matrix * list R * list R) (inds : list nat)
  : result (matrix * list R * list R) :=
  let '(P, s_val, occ_num) := st in
  P <- take_rows n_orb P inds ;;
  s_val <- take s_val inds ;;
  occ_num <- take occ_num inds ;;
  Ok (P, s_val, occ_num).

(** The state after line 297: [(P, s_val, occ_num)]. *)
Definition reorder_fast_passes (gamma : matrix) (Gamma : ndarray4) (n_cas n_core : nat)
  : result (matrix * list R * list R) :=
  let n_orb := len Gamma in
  let occ_num := occupations gamma Gamma in
  let s_val := orbital_entropies gamma Gamma in
  let inds := rev (argsort s_val) in
  st <- reindex n_orb (eye, s_val, occ_num) inds ;;
  let inds_inactive := rev (argsort (skipn n_cas (snd st))) in
  let inds := seq 0 n_cas ++ map (Nat.add n_cas) inds_inactive in
  st <- reindex n_orb st inds ;;
  let inds_active := rev (argsort (firstn n_cas (snd st))) in
  let inds := inds_active ++ seq n_cas (n_orb - n_cas) in
  st <- reindex n_orb st inds ;;
  let inds := seq n_cas n_core ++ seq 0 n_cas
              ++ seq (n_cas + n_core) (n_orb - (n_cas + n_core)) in
  reindex n_orb st inds.

Definition reorder_fast (gamma : matrix) (Gamma : ndarray4) (n_cas n_core : nat)
  : result matrix :=
  let n_orb := len Gamma in
  let s_val_init := orbital_entropies gamma Gamma in
  st <- reorder_fast_passes gamma Gamma n_cas n_core ;;
  let '(P, s_val, occ_num) := st in
  (* line 300: both operands of the comparison are read; the branch only logs *)
  _ <- getitem occ_num (Z.of_nat n_core + Z.of_nat n_cas - 1) ;;
  _ <- getitem occ_num (Z.of_nat n_core + Z.of_nat n_cas) ;;
  if allclose (matvec n_orb P s_val_init) s_val then Ok P
  else Raise AssertionError.

(** ** reorder_occ (jacobi.py, lines 307-329) *)


(** ** reorder (jacobi.py, lines 335-420) *)

(** [x[k] = v] on a 1-D array. *)
Fixpoint upd (k : nat) (v : R) (x : list R) : list R :=
  match x, k with
  | [], _ => []
  | _ :: x', O => v :: x'
  | h :: x', S k' => h :: upd k' v x'
  end.

(** [c = x[p]; x[p] = x[q]; x[q] = c]. *)
Definition exchange (p q : nat) (x : list R) : list R :=
  let c := nth p x 0 in
  let x := upd p (nth q x 0) x in
  upd q c x.

(** A rotation record [[i, j, angle]]. *)
Definition rotation : Type := (nat * nat * R)%type.

Record rstate : Type := mk_rstate {
  S1 : list R;
  N1 : list R;
  rotations : list rotation;
  V : matrix
}.

(** The swap both phases of [reorder] write out: positions [p] and [q] of
    [S1] and [N1] are exchanged, the record [[r1, r2, 0]] is appended and
    [V] is multiplied on the left by the transposition [V_]. *)
Definition swap_record (no : nat) (st : rstate) (p q r1 r2 : nat) : rstate :=
  let V_ := eye in
  let V_ := setitem V_ p p 0 in
  let V_ := setitem V_ q q 0 in
  let V_ := setitem V_ p q 1 in
  let V_ := setitem V_ q p 1 in
  mk_rstate (exchange p q (S1 st)) (exchange p q (N1 st))
            (rotations st ++ [(r1, r2, 0)])
            (matmul no V_ (V st)).

(** One iteration of the [for] loop of lines 371-390: the state and the
    value of [test]. *)
Definition bubble_step (no : nat) (cur : rstate * nat) (i : nat) : rstate * nat :=
  let '(st, test) := cur in
  if Rlt_dec (nth i (S1 st) 0) (nth (i + 1) (S1 st) 0)
  then (swap_record no st i (i + 1) (i + 1) (i + 2), 1%nat)
  else (st, test).

(** One execution of the body of the [while] loop, lines 370-390. *)
Definition bubble_pass (no : nat) (st : rstate) : rstate * nat :=
  fold_left (bubble_step no) (seq 0 (length (S1 st) - 1)) (st, 0%nat).

(** The [while test == 1] loop; [None] when [fuel] passes do not end it. *)
Fixpoint bubble_loop (fuel : nat) (no : nat) (st : rstate) (test : nat)
  : option rstate :=
  if (test =? 1)%nat then
    match fuel with
    | O => None
    | S fuel' =>
        let '(st', test') := bubble_pass no st in
        bubble_loop fuel' no st' test'
    end
  else Some st.

(** The second phase, lines 393-415: the state and [n_closed]. *)
Definition closed_phase (no N_cas : nat) (st : rstate) : rstate * nat :=
  fold_left
    (fun '(st, n_closed) j =>
       if Rgt_dec (nth j (N1 st) 0) 1 then
         (fold_left
            (fun st i => swap_record no st (j - 1 - i) (j - i) (j - i) (j - i + 1))
            (seq 0 j) st,
          (n_closed + 1)%nat)
       else (st, n_closed))
    (seq N_cas (length (S1 st) - N_cas))
    (st, 0%nat).

Section Legacy.

Variable shannon : list R -> R.

(** Lines 354-367: the arrays before the [while] loop. *)
Definition reorder_init (gamma : matrix) (Gamma : ndarray4) : rstate :=
  let n := len Gamma in
  mk_rstate
    (map (fun i => shannon [1 - gamma (2 * i)%nat (2 * i)%nat;
                            gamma (2 * i)%nat (2 * i)%nat;
                            1 - gamma (2 * i + 1)%nat (2 * i + 1)%nat;
                            gamma (2 * i + 1)%nat (2 * i + 1)%nat])
         (seq 0 n))
    (map (fun i => gamma (2 * i)%nat (2 * i)%nat
                   + gamma (2 * i + 1)%nat (2 * i + 1)%nat)
         (seq 0 n))
    []
    eye.

(** The bubble-sort phase of [reorder], lines 354-390. *)
Definition bubble_phase (fuel : nat) (gamma : matrix) (Gamma : ndarray4)
  : option rstate :=
  let st := reorder_init gamma Gamma in
  bubble_loop fuel (length (S1 st)) st 1%nat.

Definition reorder (fuel : nat) (gamma : matrix) (Gamma : ndarray4) (N_cas : nat)
  : option (list rotation * nat * matrix) :=
  match bubble_phase fuel gamma Gamma with
  | None => None
  | Some st =>
      let '(st, n_closed) := closed_phase (length (S1 st)) N_cas st in
      Some (rotations st, n_closed, V st)
  end.

End Legacy.

(** ** make_tailored_ccsd (tccsd.py)

    The CC and CAS solver objects belong to PySCF.  Of them the model
    keeps what [make_tailored_ccsd] computes with: the projectors [pocc]
    and [pvir] and the amplitudes [(c0, c1, c2)] that
    [cisdvec_to_amplitudes] returns for the CAS wave function. *)

Record cas_amplitudes : Type := mk_cas {
  c0 : R;
  c1 : matrix;
  c2 : tensor4
}.

(** [get_cas_t1t2], lines 34-41, from the line of the [assert] on. *)
Definition get_cas_t1t2 (cas : cas_amplitudes) : result (matrix * tensor4) :=
  if Rgt_dec (Rabs (c0 cas)) 1e-8 then
    let t1 : matrix := fun i a => c1 cas i a / c0 cas in
    let t2 : tensor4 :=
      fun i j a b => c2 cas i j a b / c0 cas - t1 i a * t1 j b in
    Ok (t1, t2)
  else Raise AssertionError.

(** What the installed [callback] closes over. *)
Record tailored : Type := mk_tailored {
  tl_pocc : matrix;
  tl_pvir : matrix;
  t1cas_fci : matrix;
  t2cas_fci : tensor4
}.

Definition make_tailored_ccsd (pocc pvir : matrix) (cas : cas_amplitudes)
  : result tailored :=
  t <- get_cas_t1t2 cas ;;
  Ok (mk_tailored pocc pvir (fst t) (snd t)).

(** ** callback (tccsd.py, lines 45-58)

    The arrays carry their shapes: [t1] is [(no, nv)] and [t2] is
    [(no, no, nv, nv)] for [no] occupied and [nv] virtual CC orbitals;
    [pocc] is [(no, ko)], [pvir] is [(nv, kv)], [t1cas_fci] is [(ko, kv)]
    and [t2cas_fci] is [(ko, ko, kv, kv)] for [ko] occupied and [kv]
    virtual CAS orbitals.  Arrays being functions here, the four ranges
    are given apart. *)
Record shapes : Type := mk_shapes {
  no_cc : nat;
  nv_cc : nat;
  no_cas : nat;
  nv_cas : nat
}.

(** [einsum('IA,Ii,Aa->ia', t1, pocc, pvir)]. *)
Definition project_t1 (sh : shapes) (pocc pvir : matrix) (t1 : matrix) : matrix :=
  fun i a =>
    sum_over (seq 0 (no_cc sh)) (fun I =>
    sum_over (seq 0 (nv_cc sh)) (fun A =>
      t1 I A * pocc I i * pvir A a)).

(** [einsum('IJAB,Ii,Jj,Aa,Bb->ijab', t2, pocc, pocc, pvir, pvir)]. *)
Definition project_t2 (sh : shapes) (pocc pvir : matrix) (t2 : tensor4) : tensor4 :=
  fun i j a b =>
    sum_over (seq 0 (no_cc sh)) (fun I =>
    sum_over (seq 0 (no_cc sh)) (fun J =>
    sum_over (seq 0 (nv_cc sh)) (fun A =>
    sum_over (seq 0 (nv_cc sh)) (fun B =>
      t2 I J A B * pocc I i * pocc J j * pvir A a * pvir B b)))).

(** [einsum('ia,Ii,Aa->IA', dt1, pocc, pvir)]. *)
Definition lift_t1 (sh : shapes) (pocc pvir : matrix) (dt1 : matrix) : matrix :=
  fun I A =>
    sum_over (seq 0 (no_cas sh)) (fun i =>
    sum_over (seq 0 (nv_cas sh)) (fun a =>
      dt1 i a * pocc I i * pvir A a)).

(** [einsum('ijab,Ii,Jj,Aa,Bb->IJAB', dt2, pocc, pocc, pvir, pvir)]. *)
Definition lift_t2 (sh : shapes) (pocc pvir : matrix) (dt2 : tensor4) : tensor4 :=
  fun I J A B =>
    sum_over (seq 0 (no_cas sh)) (fun i =>
    sum_over (seq 0 (no_cas sh)) (fun j =>
    sum_over (seq 0 (nv_cas sh)) (fun a =>
    sum_over (seq 0 (nv_cas sh)) (fun b =>
      dt2 i j a b * pocc I i * pocc J j * pvir A a * pvir B b)))).

(** [callback] updates [t1new] and [t2new] in place and returns nothing:
    the arrays after the call. *)
Definition callback (sh : shapes) (tl : tailored) (t : matrix * tensor4)
  : matrix * tensor4 :=
  let '(t1, t2) := t in
  let pocc := tl_pocc tl in
  let pvir := tl_pvir tl in
  let t1cas_cc := project_t1 sh pocc pvir t1 in
  let t2cas_cc := project_t2 sh pocc pvir t2 in
  let dt1 : matrix := fun i a => t1cas_fci tl i a - t1cas_cc i a in
  let dt2 : tensor4 := fun i j a b => t2cas_fci tl i j a b - t2cas_cc i j a b in
  let dt1 := lift_t1 sh pocc pvir dt1 in
  let dt2 := lift_t2 sh pocc pvir dt2 in
  (fun I A => t1 I A + dt1 I A, fun I J A B => t2 I J A B + dt2 I J A B).

(** The columns of [P], of [n] rows and [k] columns, are orthonormal:
    [P.T @ P] is the identity. *)
Definition orthonormal_columns (n k : nat) (P : matrix) : Prop :=
  forall i i', (i < k)%nat -> (i' < k)%nat ->
    sum_over (seq 0 n) (fun I => P I i * P I i') = eye i i'.

(** Modelled from the spec: [qio.entropy.shannon], which is not among the
    sources.  The entropy [-sum p log p] of a spectrum, where an outcome
    of probability zero contributes exactly 0.  The theorems hold for any
    [shannon]; this one instantiates them on concrete inputs. *)
Definition shannon_spec (spec : list R) : R :=
  - fold_right Rplus 0
      (map (fun p => if Req_dec_T p 0 then 0 else p * ln p) spec).

(** ** The rotation in closed form, and the full contraction

    [full_contraction] follows the words of the specification (and lines
    200-201, which contract a spin-doubled matrix in this way): it is
    what the selective update is compared with.  [rot_row], [rot_gamma]
    and [rot4] are the closed forms both are reduced to. *)

(** Row [a] of [U1] applied to [f]: what the sum of [U1[a,m] * f m] over
    [m] amounts to when [i <> j]. *)
Definition rot_row (t : R) (i j : nat) (f : nat -> R) (a : nat) : R :=
  if (a =? i)%nat then cos t * f i + sin t * f j
  else if (a =? j)%nat then - sin t * f i + cos t * f j
  else f a.

(** A 1-RDM with both indices rotated, for the spin pair [(s, s')]. *)
Definition rot_gamma (t : R) (i j : nat) (gamma : matrix) (s s' : nat) (a b : nat) : R :=
  rot_row t i j (fun m =>
    rot_row t i j (fun n => gamma (2 * m + s)%nat (2 * n + s')%nat) b) a.

(** A 2-RDM with its four indices rotated. *)
Definition rot4 (t : R) (i j : nat) (G : tensor4) : tensor4 :=
  fun a b c d =>
    rot_row t i j (fun a' =>
    rot_row t i j (fun b' =>
    rot_row t i j (fun c' =>
    rot_row t i j (fun d' => G a' b' c' d') d) c) b) a.

(** [np.kron(U, np.eye(2))]: the spin-doubled rotation. *)
Definition kron2 (U : matrix) : matrix :=
  fun p q => U (p / 2)%nat (q / 2)%nat * eye (p mod 2) (q mod 2).

(** [np.einsum('ia,jb,ab->ij', U, U, g)] with both indices of range [n]. *)
Definition einsum2 (n : nat) (U : matrix) (g : matrix) : matrix :=
  fun p q =>
    sum_over (seq 0 n) (fun x =>
    sum_over (seq 0 n) (fun y => U p x * U q y * g x y)).

(** The full [U1], spin-doubled, contracted twice against [gamma]. *)
Definition full_contraction (no : nat) (U1 gamma : matrix) : matrix :=
  einsum2 (2 * no) (kron2 U1) gamma.

(** A 1-RDM without mixed-spin entries. *)
Definition spin_diagonal (gamma : matrix) : Prop :=
  forall a b, gamma (2 * a)%nat (2 * b + 1)%nat = 0
           /\ gamma (2 * a + 1)%nat (2 * b)%nat = 0.

(** ** Measures and invariants of the two reorderings *)

(** The pairs of positions of [l] that are out of descending order. *)
Definition count_gt (x : R) (l : list R) : nat :=
  length (filter (fun y => if Rlt_dec x y then true else false) l).

Fixpoint inversions (l : list R) : nat :=
  match l with
  | [] => 0%nat
  | x :: l' => (count_gt x l' + inversions l')%nat
  end.

(** What one pass keeps: the length of [S1], the sum of the number of
    records and of the inversions of [S1], the shape of the records; and
    [test] is 1 with fewer inversions, or unchanged with the same. *)
Definition pass_inv (st0 : rstate) (test0 : nat) (cur : rstate * nat) : Prop :=
  let '(st, test) := cur in
  length (S1 st) = length (S1 st0) /\
  (length (rotations st) + inversions (S1 st)
   = length (rotations st0) + inversions (S1 st0))%nat /\
  (Forall (fun r : rotation => snd r = 0 /\ snd (fst r) = S (fst (fst r)))
     (rotations st0) ->
   Forall (fun r : rotation => snd r = 0 /\ snd (fst r) = S (fst (fst r)))
     (rotations st)) /\
  ((test = test0 /\ inversions (S1 st) = inversions (S1 st0))
   \/ (test = 1%nat /\ (inversions (S1 st) < inversions (S1 st0))%nat)).

(** The values of [x] at the indices [inds], and an index array that is
    a permutation of [0 .. n-1]. *)
Definition gather {A : Type} (d : A) (x : list A) (inds : list nat) : list A :=
  map (fun k => nth k x d) inds.

Definition is_perm (n : nat) (l : list nat) : Prop := Permutation l (seq 0 n).

(** What [reorder_fast] keeps between its passes: [P] holds the rows of
    the identity in the order [perm], [s_val] the initial entropies in
    that order, and [occ_num] has one entry per orbital. *)
Definition reorder_inv (n : nat) (s_init : list R) (perm : list nat)
    (st : matrix * list R * list R) : Prop :=
  let '(P, s_val, occ_num) := st in
  is_perm n perm /\
  (forall r c, (r < n)%nat -> P r c = eye (nth r perm 0%nat) c) /\
  s_val = gather 0 s_init perm /\
  length occ_num = n.

(** ** Concrete inputs

    [gamma_mixed] has one pair of mixed-spin entries, between the spin-up
    and the spin-down channel of orbital 0; [gamma_half] with
    [Gamma_quarter] is the RDM pair of half-filled orbitals whose local
    spectrum is uniform; [zeros] with [Gamma_zero2] is that of two empty
    orbitals. *)

Definition gamma_mixed : matrix :=
  fun p q =>
    if ((p =? 0) && (q =? 1) || (p =? 1) && (q =? 0))%nat then 1 else 0.

Definition gamma_half : matrix :=
  fun p q => if (p =? q)%nat then 1 / 2 else 0.

Definition Gamma_zero2 : ndarray4 := mk_ndarray4 2 (fun _ _ _ _ => 0).

Definition Gamma_quarter (n : nat) : ndarray4 :=
  mk_ndarray4 n (fun a b c d =>
    if ((a =? b) && (b =? c) && (c =? d))%nat then 1 / 4 else 0).


(** [reorder_inv] for the occupations as well as for the entropies. *)
Definition reorder_track (n : nat) (s_init o_init : list R) (perm : list nat)
    (st : matrix * list R * list R) : Prop :=
  let '(P, s_val, occ_num) := st in
  is_perm n perm /\
  (forall r c, (r < n)%nat -> P r c = eye (nth r perm 0%nat) c) /\
  s_val = gather 0 s_init perm /\
  occ_num = gather 0 o_init perm.

(** The index arrays of the swaps of [reorder]: [adj_swap n p] exchanges
    the positions [p] and [p + 1] of an array of length [n];
    [front_step n j k] has position [j] moved [k] places towards the
    front, and [to_front n j] has it moved to the front. *)
Definition adj_swap (n p : nat) : list nat :=
  seq 0 p ++ [S p; p] ++ seq (p + 2) (n - (p + 2)).

Definition front_step (n j k : nat) : list nat :=
  seq 0 (j - k) ++ [j] ++ seq (j - k) k ++ seq (S j) (n - S j).

Definition to_front (n j : nat) : list nat := front_step n j j.

(** Among the [m] positions from [N_cas] on, those whose occupation
    number in [N] exceeds 1 and the others; and the order the second
    phase of [reorder] has made of [n] positions when it has gone through
    these [m]. *)
Definition is_closed (N : list R) (j : nat) : bool :=
  if Rgt_dec (nth j N 0) 1 then true else false.

Definition closed_indices (N_cas m : nat) (N : list R) : list nat :=
  filter (is_closed N) (seq N_cas m).

Definition open_indices (N_cas m : nat) (N : list R) : list nat :=
  filter (fun j => negb (is_closed N j)) (seq N_cas m).

Definition closed_order (n N_cas m : nat) (N : list R) : list nat :=
  rev (closed_indices N_cas m N) ++ seq 0 N_cas ++ open_indices N_cas m N
  ++ seq (N_cas + m) (n - (N_cas + m)).

(** [V], [S1] and [N1] of a state of [reorder] follow the permutation
    [perm] of the initial arrays. *)
Definition rstate_track (n : nat) (s_init o_init : list R) (perm : list nat)
    (st : rstate) : Prop :=
  reorder_track n s_init o_init perm (V st, S1 st, N1 st).

(** ** minimize_orb_corr_jacobi (jacobi.py, lines 161-242)

    [scipy.linalg.expm] and [qio.entropy.get_cost_fqi] are not among the
    sources and are parameters.  The random draws are inputs: [rand] and
    [u] as above, and [shuffle n], the array [orb_list] after
    [np.random.shuffle] in cycle [n]. *)

(** The nested function [jacobi_step], lines 188-194. *)
Definition jacobi_step (t : R) (i j : nat) : matrix :=
  let V := eye in
  let V := setitem V i i (cos t) in
  let V := setitem V i j (sin t) in
  let V := setitem V j i (- sin t) in
  let V := setitem V j j (cos t) in
  V.

(** A loop whose body can raise. *)
Fixpoint fold_result {A B : Type} (f : A -> B -> result A) (l : list B) (a : A)
  : result A :=
  match l with
  | [] => Ok a
  | x :: l' => a' <- f a x ;; fold_result f l' a'
  end.

(** The variables the sweeps update. *)
Record opt_state : Type := mk_opt {
  o_gamma : matrix;
  o_Gamma : ndarray4;
  o_cost : R;
  o_new_cost : R;
  o_U : matrix;
  o_rotations : list rotation
}.

Section Optimizer.

Variable shannon : list R -> R.
Variable get_cost_fqi : matrix -> ndarray4 -> list nat -> R.
Variable expm : nat -> matrix -> matrix.

(** The body of the loop over [b], lines 218-231. *)
Definition pair_step (no : nat) (inactive_indices : list nat)
    (st : opt_state) (i j : nat) : result opt_state :=
  if existsb (Nat.eqb i) inactive_indices || existsb (Nat.eqb j) inactive_indices
  then
    match jacobi_direct shannon i j (o_gamma st) (o_Gamma st) inactive_indices with
    | Some t =>
        r <- jacobi_transform (o_gamma st) (o_Gamma st) i j t ;;
        let new_cost := get_cost_fqi (fst r) (snd r) inactive_indices in
        Ok (mk_opt (fst r) (snd r) new_cost new_cost
                   (matmul no (jacobi_step t i j) (o_U st))
                   (o_rotations st ++ [((i + 1)%nat, (j + 1)%nat, t / PI * 180)]))
    | None => Ok st
    end
  else Ok st.

(** One cycle, lines 215-231: the pairs [(orb_list[a], orb_list[b])],
    [b < a]. *)
Definition sweep (no : nat) (inactive_indices : list nat) (orb_list : list nat)
    (st : opt_state) : result opt_state :=
  fold_result
    (fun st a =>
       let i := nth a orb_list 0%nat in
       fold_result
         (fun st b => pair_step no inactive_indices st i (nth b orb_list 0%nat))
         (seq 0 a) st)
    (seq 0 no) st.

(** The loop over the cycles, lines 211-240, with its [break]: [orders]
    holds the shuffled [orb_list] of each remaining cycle. *)
Fixpoint cycles (no : nat) (inactive_indices : list nat)
    (orders : list (list nat)) (st : opt_state) (cycle_cost : R)
  : result opt_state :=
  match orders with
  | [] => Ok st
  | orb_list :: orders' =>
      st' <- sweep no inactive_indices orb_list st ;;
      if Rlt_dec (cycle_cost - o_new_cost st') 1e-7 then Ok st'
      else cycles no inactive_indices orders' st' (o_new_cost st')
  end.

(** The state before the first cycle, lines 183-210. *)
Definition optimizer_init (rand : matrix) (u : R) (gamma : matrix) (Gamma : ndarray4)
  : opt_state :=
  let no := len Gamma in
  let X := perturbation rand u in
  let U := expm no X in
  let U_ := kron2 U in
  let gamma0 := einsum2 (2 * no) U_ gamma in
  let Gamma0 := mk_ndarray4 no (einsum4 no U (get4 Gamma)) in
  mk_opt gamma0 Gamma0 100 100 U [].

Definition minimize_orb_corr_jacobi (rand : matrix) (u : R) (shuffle : nat -> list nat)
    (gamma : matrix) (Gamma : ndarray4) (inactive_indices : list nat) (max_cycle : nat)
  : result (list rotation * matrix * matrix * ndarray4) :=
  let no := len Gamma in
  st <- cycles no inactive_indices (map shuffle (seq 0 max_cycle))
          (optimizer_init rand u gamma Gamma) 100 ;;
  Ok (o_rotations st, o_U st, o_gamma st, o_Gamma st).

End Optimizer.

(** The contraction of one index of range [n] against a matrix, and a
    matrix that is orthogonal on that range. *)
Definition contract (n : nat) (M : matrix) (f : nat -> R) (i : nat) : R :=
  sum_over (seq 0 n) (fun a => M i a * f a).

Definition orthogonal (n : nat) (M : matrix) : Prop :=
  mat_eq n (matmul n M (transpose M)) eye.

(** A rotation record of the optimizer for [no] orbitals: 1-based
    indices of two distinct orbitals, one of them inactive, and an angle
    in degrees in [[0, 180 + 1.8/pi)]. *)
Definition valid_record (no : nat) (inactive_indices : list nat) (r : rotation)
  : Prop :=
  let '(r1, r2, angle) := r in
  (1 <= r1 <= no)%nat /\ (1 <= r2 <= no)%nat /\ r1 <> r2 /\
  (In (r1 - 1)%nat inactive_indices \/ In (r2 - 1)%nat inactive_indices) /\
  0 <= angle < 180 + 1.8 / PI.

(** What the sweeps keep: the 2-RDM is the given one transformed by the
    accumulated [U], the same-spin entries of the 1-RDM are those of the
    given one transformed by [U], every record is valid, and there are
    at most [k] records. *)
Definition opt_inv (no : nat) (inactive_indices : list nat)
    (gamma : matrix) (Gamma : ndarray4) (k : nat) (st : opt_state) : Prop :=
  len (o_Gamma st) = no /\
  t4_eq no (get4 (o_Gamma st)) (einsum4 no (o_U st) (get4 Gamma)) /\
  (forall a b s, (a < no)%nat -> (b < no)%nat -> (s < 2)%nat ->
     o_gamma st (2 * a + s)%nat (2 * b + s)%nat
     = contract no (o_U st) (fun m => contract no (o_U st) (fun n =>
         gamma (2 * m + s)%nat (2 * n + s)%nat) b) a) /\
  Forall (valid_record no inactive_indices) (o_rotations st) /\
  (length (o_rotations st) <= k)%nat.

(** The accumulated [U] stays orthogonal. *)
Definition orth_inv (no : nat) (k : nat) (st : opt_state) : Prop :=
  len (o_Gamma st) = no /\ orthogonal no (o_U st).

(** ** Instances of the parameters, for concrete inputs *)

(** Modelled from the spec: [qio.entropy.get_cost_fqi], which is not
    among the sources.  The total single-orbital entropy of the inactive
    orbitals. *)
Definition get_cost_fqi_spec (gamma : matrix) (Gamma : ndarray4)
    (inactive_indices : list nat) : R :=
  fold_right Rplus 0
    (map (fun k => shannon_spec
                     (spectrum (gamma (2 * k)%nat (2 * k)%nat)
                               (gamma (2 * k + 1)%nat (2 * k + 1)%nat)
                               (get4 Gamma k k k k)))
         inactive_indices).

(** [scipy.linalg.expm] to first order, [I + X]: exact at [X = 0], which
    is where the concrete inputs use it. *)
Definition expm_first_order (n : nat) (X : matrix) : matrix :=
  fun a b => eye a b + X a b.

(** Draws that are all equal: the perturbation [X - X.T] is then 0. *)
Definition rand_half : matrix := fun _ _ => 1 / 2.

(** The order [[1, 0]] in every cycle. *)
Definition shuffle_swap : nat -> list nat := fun _ => [1; 0]%nat.

(** Two occupied and two virtual CC orbitals, of which the first of each
    is the one CAS orbital of its kind; a CAS wave function that is its
    reference determinant; and the [callback] closure for these. *)
Definition shapes_small : shapes := mk_shapes 2 2 1 1.

Definition cas_reference : cas_amplitudes := mk_cas 1 zeros (fun _ _ _ _ => 0).

Definition tailored_reference : tailored :=
  mk_tailored eye eye
    (fun i a => c1 cas_reference i a / c0 cas_reference)
    (fun i j a b =>
       c2 cas_reference i j a b / c0 cas_reference
       - c1 cas_reference i a / c0 cas_reference
         * (c1 cas_reference j b / c0 cas_reference)).

(** * Properties *)

(** ** Point updates and loops over cells *)

Lemma setitem_eq M p q v : setitem M p q v p q = v.
Proof.
  unfold setitem. now rewrite !Nat.eqb_refl.
Qed.

Lemma setitem_neq M p q v p' q' :
  (p', q') <> (p, q) -> setitem M p q v p' q' = M p' q'.
Proof.
  intros H. unfold setitem.
  destruct (Nat.eqb_spec p' p); destruct (Nat.eqb_spec q' q); simpl; try reflexivity.
  subst. now elim H.
Qed.

Lemma iadd_eq M p q v : iadd M p q v p q = M p q + v.
Proof.
  unfold iadd. apply setitem_eq.
Qed.

Lemma iadd_neq M p q v p' q' :
  (p', q') <> (p, q) -> iadd M p q v p' q' = M p' q'.
Proof.
  intros H. unfold iadd. now apply setitem_neq.
Qed.

(** A loop whose every iteration leaves the cell [(p, q)] alone leaves it
    alone. *)
Lemma fold_left_frame {X : Type} (F : matrix -> X -> matrix) (l : list X) p q :
  (forall x g, In x l -> F g x p q = g p q) ->
  forall g, fold_left F l g p q = g p q.
Proof.
  induction l as [|x l IH]; intros HF g; simpl.
  - reflexivity.
  - rewrite IH.
    + apply HF. now left.
    + intros y g' Hy. apply HF. now right.
Qed.

(** A loop over distinct values in which only the iteration [x0] touches
    the cell [(p, q)], and reads no other cell to compute it, acts on that
    cell as the iteration [x0] alone. *)
Lemma fold_left_cell {X : Type} (F : matrix -> X -> matrix) (l : list X) (x0 : X) p q :
  NoDup l -> In x0 l ->
  (forall x g, x <> x0 -> F g x p q = g p q) ->
  (forall g g', g p q = g' p q -> F g x0 p q = F g' x0 p q) ->
  forall g, fold_left F l g p q = F g x0 p q.
Proof.
  intros Hnd Hin Hframe Hlocal g.
  destruct (in_split _ _ Hin) as (l1 & l2 & ->).
  apply NoDup_remove_2 in Hnd.
  rewrite fold_left_app. simpl.
  rewrite fold_left_frame.
  - apply Hlocal. apply fold_left_frame.
    intros x g' Hx. apply Hframe. intros ->. apply Hnd, in_or_app. now left.
  - intros x g' Hx. apply Hframe. intros ->. apply Hnd, in_or_app. now right.
Qed.

Lemma pair_neq (p q p' q' : nat) :
  p <> p' \/ q <> q' -> (p, q) <> (p', q').
Proof.
  intros H E. injection E as E1 E2. lia.
Qed.

Lemma div2_double a : (2 * a / 2)%nat = a.
Proof.
  now rewrite Nat.mul_comm, Nat.div_mul.
Qed.

Lemma div2_succ_double a s : (s < 2)%nat -> ((2 * a + s) / 2)%nat = a.
Proof.
  intros Hs. rewrite Nat.mul_comm, Nat.div_add_l by lia.
  rewrite Nat.div_small by lia. lia.
Qed.

Lemma mixed_spin_cell p q a b :
  Nat.even (p + q) = false ->
  (p, q) <> ((2 * a)%nat, (2 * b)%nat) /\
  (p, q) <> ((2 * a + 1)%nat, (2 * b + 1)%nat).
Proof.
  intros H.
  assert (Hodd : Nat.odd (p + q) = true) by (now rewrite <- Nat.negb_even, H).
  apply Nat.odd_spec in Hodd as [k Hk].
  split; apply pair_neq; lia.
Qed.

Lemma mixed_parity a b :
  Nat.even (2 * a + (2 * b + 1)) = false /\ Nat.even (2 * a + 1 + 2 * b) = false.
Proof.
  assert (H : forall n, Nat.even (2 * n + 1) = false).
  { intros n. rewrite <- Nat.negb_odd.
    replace (Nat.odd (2 * n + 1)) with true; [reflexivity|].
    symmetry. apply Nat.odd_spec. now exists n. }
  split.
  - replace (2 * a + (2 * b + 1))%nat with (2 * (a + b) + 1)%nat by lia. apply H.
  - replace (2 * a + 1 + 2 * b)%nat with (2 * (a + b) + 1)%nat by lia. apply H.
Qed.

(** ** The cells one iteration of the selective update writes *)

Section SelectiveUpdate.

Variables (U1 gamma : matrix) (i j : nat).

Lemma add_loop_other a b (m_list n_list : list nat) p q :
  (p, q) <> ((2 * a)%nat, (2 * b)%nat) ->
  (p, q) <> ((2 * a + 1)%nat, (2 * b + 1)%nat) ->
  forall g,
    fold_left (fun g m =>
      fold_left (fun g n =>
        let g := iadd g (2 * a) (2 * b)
                   (U1 a m * U1 b n * gamma (2 * m)%nat (2 * n)%nat) in
        iadd g (2 * a + 1) (2 * b + 1)
          (U1 a m * U1 b n * gamma (2 * m + 1)%nat (2 * n + 1)%nat))
        n_list g)
      m_list g p q = g p q.
Proof.
  intros H0 H1. apply fold_left_frame. intros m g _.
  apply fold_left_frame. intros n g' _. cbv zeta.
  rewrite iadd_neq by assumption. now apply iadd_neq.
Qed.

(** The accumulated value of the cell of spin [s] (0 is up, 1 is down). *)
Lemma add_loop_at a b (m_list n_list : list nat) (s : nat) :
  (s < 2)%nat ->
  forall g,
    fold_left (fun g m =>
      fold_left (fun g n =>
        let g := iadd g (2 * a) (2 * b)
                   (U1 a m * U1 b n * gamma (2 * m)%nat (2 * n)%nat) in
        iadd g (2 * a + 1) (2 * b + 1)
          (U1 a m * U1 b n * gamma (2 * m + 1)%nat (2 * n + 1)%nat))
        n_list g)
      m_list g (2 * a + s)%nat (2 * b + s)%nat
    = g (2 * a + s)%nat (2 * b + s)%nat
      + sum_over m_list (fun m => sum_over n_list (fun n =>
          U1 a m * U1 b n * gamma (2 * m + s)%nat (2 * n + s)%nat)).
Proof.
  intros Hs.
  induction m_list as [|m ml IHm]; intros g; cbn [fold_left sum_over].
  - lra.
  - rewrite IHm. clear IHm.
    assert (Hn : forall g,
      fold_left (fun g n =>
        iadd (iadd g (2 * a) (2 * b)
                (U1 a m * U1 b n * gamma (2 * m)%nat (2 * n)%nat))
          (2 * a + 1) (2 * b + 1)
          (U1 a m * U1 b n * gamma (2 * m + 1)%nat (2 * n + 1)%nat))
        n_list g (2 * a + s)%nat (2 * b + s)%nat
      = g (2 * a + s)%nat (2 * b + s)%nat
        + sum_over n_list (fun n =>
            U1 a m * U1 b n * gamma (2 * m + s)%nat (2 * n + s)%nat)).
    { induction n_list as [|n nl IHn]; intros g0; cbn [fold_left sum_over].
      - lra.
      - rewrite IHn. clear IHn.
        assert (s = 0 \/ s = 1)%nat as [-> | ->] by lia.
        + rewrite iadd_neq by (apply pair_neq; lia).
          rewrite !Nat.add_0_r, iadd_eq. lra.
        + rewrite iadd_eq, iadd_neq by (apply pair_neq; lia). lra. }
    cbv zeta. rewrite Hn. lra.
Qed.

Lemma update_cell_other a testa m_list g b p q :
  (p, q) <> ((2 * a)%nat, (2 * b)%nat) ->
  (p, q) <> ((2 * a + 1)%nat, (2 * b + 1)%nat) ->
  update_cell U1 gamma i j a testa m_list g b p q = g p q.
Proof.
  intros H0 H1. unfold update_cell.
  destruct (mix_list b i j) as [testb n_list].
  destruct (0 <? testa + testb)%nat.
  - now apply add_loop_other.
  - cbv zeta. rewrite setitem_neq by assumption. now apply setitem_neq.
Qed.

Lemma update_cell_at a testa m_list g b s :
  (s < 2)%nat ->
  update_cell U1 gamma i j a testa m_list g b (2 * a + s)%nat (2 * b + s)%nat
  = if (0 <? testa + fst (mix_list b i j))%nat
    then g (2 * a + s)%nat (2 * b + s)%nat
         + sum_over m_list (fun m => sum_over (snd (mix_list b i j)) (fun n =>
             U1 a m * U1 b n * gamma (2 * m + s)%nat (2 * n + s)%nat))
    else gamma (2 * a + s)%nat (2 * b + s)%nat.
Proof.
  intros Hs. unfold update_cell.
  destruct (mix_list b i j) as [testb n_list]. simpl fst. simpl snd.
  destruct (0 <? testa + testb)%nat.
  - now apply add_loop_at.
  - cbv zeta. assert (s = 0 \/ s = 1)%nat as [-> | ->] by lia.
    + rewrite setitem_neq by (apply pair_neq; lia).
      rewrite !Nat.add_0_r. apply setitem_eq.
    + apply setitem_eq.
Qed.

Lemma update_row_other no g a p q :
  (p / 2)%nat <> a -> update_row no U1 gamma i j g a p q = g p q.
Proof.
  intros Hp. unfold update_row.
  destruct (mix_list a i j) as [testa m_list].
  apply fold_left_frame. intros b g' _.
  apply update_cell_other; apply pair_neq; left; intros ->; apply Hp.
  - apply div2_double.
  - apply div2_succ_double. lia.
Qed.

Lemma update_row_mixed no g a p q :
  Nat.even (p + q) = false -> update_row no U1 gamma i j g a p q = g p q.
Proof.
  intros Hodd. unfold update_row.
  destruct (mix_list a i j) as [testa m_list].
  apply fold_left_frame. intros b g' _.
  apply update_cell_other; now apply mixed_spin_cell.
Qed.

Lemma update_row_at no g a b s :
  (b < no)%nat -> (s < 2)%nat ->
  update_row no U1 gamma i j g a (2 * a + s)%nat (2 * b + s)%nat
  = if (0 <? fst (mix_list a i j) + fst (mix_list b i j))%nat
    then g (2 * a + s)%nat (2 * b + s)%nat
         + sum_over (snd (mix_list a i j)) (fun m =>
             sum_over (snd (mix_list b i j)) (fun n =>
               U1 a m * U1 b n * gamma (2 * m + s)%nat (2 * n + s)%nat))
    else gamma (2 * a + s)%nat (2 * b + s)%nat.
Proof.
  intros Hb Hs. unfold update_row.
  destruct (mix_list a i j) as [testa m_list]. simpl fst. simpl snd.
  rewrite (fold_left_cell _ (seq 0 no) b).
  - now apply update_cell_at.
  - apply seq_NoDup.
  - apply in_seq. lia.
  - intros b' g' Hb'. apply update_cell_other; apply pair_neq; lia.
  - intros g1 g2 Hg. rewrite !update_cell_at by assumption. now rewrite Hg.
Qed.

(** Every same-spin entry of the updated 1-RDM. *)
Lemma transform_gamma_at no a b s :
  (a < no)%nat -> (b < no)%nat -> (s < 2)%nat ->
  transform_gamma no U1 gamma i j (2 * a + s)%nat (2 * b + s)%nat
  = if (0 <? fst (mix_list a i j) + fst (mix_list b i j))%nat
    then sum_over (snd (mix_list a i j)) (fun m =>
           sum_over (snd (mix_list b i j)) (fun n =>
             U1 a m * U1 b n * gamma (2 * m + s)%nat (2 * n + s)%nat))
    else gamma (2 * a + s)%nat (2 * b + s)%nat.
Proof.
  intros Ha Hb Hs. unfold transform_gamma.
  rewrite (fold_left_cell _ (seq 0 no) a).
  - rewrite update_row_at by assumption. unfold zeros.
    destruct (0 <? _)%nat; [lra | reflexivity].
  - apply seq_NoDup.
  - apply in_seq. lia.
  - intros a' g Ha'. apply update_row_other.
    rewrite div2_succ_double by assumption. congruence.
  - intros g1 g2 Hg. rewrite !update_row_at by assumption. now rewrite Hg.
Qed.

(** Every mixed-spin entry of the updated 1-RDM is the 0 of [np.zeros]. *)
Lemma transform_gamma_mixed no p q :
  Nat.even (p + q) = false -> transform_gamma no U1 gamma i j p q = 0.
Proof.
  intros Hodd. unfold transform_gamma.
  rewrite fold_left_frame.
  - reflexivity.
  - intros a g _. now apply update_row_mixed.
Qed.

End SelectiveUpdate.

(** ** Sums with few non-zero terms *)

Lemma sum_over_app l1 l2 f :
  sum_over (l1 ++ l2) f = sum_over l1 f + sum_over l2 f.
Proof.
  induction l1 as [|k l1 IH]; simpl; [|rewrite IH]; lra.
Qed.

Lemma sum_over_zero l f :
  (forall k, In k l -> f k = 0) -> sum_over l f = 0.
Proof.
  induction l as [|k l IH]; intros H; simpl.
  - reflexivity.
  - rewrite IH by (intros; apply H; simpl; auto).
    rewrite (H k) by (simpl; auto). lra.
Qed.

Lemma sum_over_ext l f g :
  (forall k, In k l -> f k = g k) -> sum_over l f = sum_over l g.
Proof.
  induction l as [|k l IH]; intros H; simpl.
  - reflexivity.
  - rewrite IH by (intros; apply H; simpl; auto).
    now rewrite (H k) by (simpl; auto).
Qed.

Lemma sum_over_scal l c f :
  sum_over l (fun k => c * f k) = c * sum_over l f.
Proof.
  induction l as [|k l IH]; simpl; [|rewrite IH]; lra.
Qed.

Lemma sum_over_one l k f :
  NoDup l -> In k l ->
  (forall m, In m l -> m <> k -> f m = 0) ->
  sum_over l f = f k.
Proof.
  intros Hnd Hin Hz.
  destruct (in_split _ _ Hin) as (l1 & l2 & ->).
  apply NoDup_remove_2 in Hnd.
  rewrite sum_over_app. simpl.
  rewrite !sum_over_zero; [lra | |];
    intros m Hm; apply Hz; try (apply in_or_app; simpl; auto);
    intros ->; apply Hnd, in_or_app; auto.
Qed.

Lemma sum_over_two l i j f :
  NoDup l -> In i l -> In j l -> i <> j ->
  (forall m, In m l -> m <> i -> m <> j -> f m = 0) ->
  sum_over l f = f i + f j.
Proof.
  intros Hnd Hi Hj Hij Hz.
  destruct (in_split _ _ Hi) as (l1 & l2 & ->).
  assert (Hnd' := NoDup_remove_1 _ _ _ Hnd).
  apply NoDup_remove_2 in Hnd.
  rewrite sum_over_app. simpl.
  assert (Hj' : In j (l1 ++ l2)).
  { apply in_app_or in Hj as [Hj | [Hj | Hj]];
      [apply in_or_app; auto | congruence | apply in_or_app; auto]. }
  rewrite <- (sum_over_one (l1 ++ l2) j f Hnd' Hj').
  - rewrite sum_over_app. lra.
  - intros m Hm Hmj. apply Hz; auto.
    + apply in_app_or in Hm as [Hm | Hm]; apply in_or_app; simpl; auto.
    + intros ->. now apply Hnd.
Qed.

(** ** The rotation as an operator on one index *)

Lemma make_U1_at i j t a m :
  i <> j ->
  make_U1 i j t a m =
    if (a =? i)%nat then
      if (m =? i)%nat then cos t else if (m =? j)%nat then sin t else 0
    else if (a =? j)%nat then
      if (m =? i)%nat then - sin t else if (m =? j)%nat then cos t else 0
    else if (a =? m)%nat then 1 else 0.
Proof.
  intros Hij. unfold make_U1, setitem, eye, rot2.
  destruct (Nat.eqb_spec a i); destruct (Nat.eqb_spec a j);
    destruct (Nat.eqb_spec m i); destruct (Nat.eqb_spec m j);
    destruct (Nat.eqb_spec a m); simpl; try reflexivity; lia.
Qed.

(** The contraction of one index of range [no] against [U1]. *)
Lemma contract_full no i j t f a :
  i <> j -> (i < no)%nat -> (j < no)%nat -> (a < no)%nat ->
  sum_over (seq 0 no) (fun m => make_U1 i j t a m * f m) = rot_row t i j f a.
Proof.
  intros Hij Hi Hj Ha. unfold rot_row.
  destruct (Nat.eqb_spec a i) as [-> | Hai]; [| destruct (Nat.eqb_spec a j) as [-> | Haj]].
  - rewrite (sum_over_two _ i j); try apply seq_NoDup; try (apply in_seq; lia); auto.
    + rewrite !make_U1_at by assumption.
      rewrite !Nat.eqb_refl. destruct (Nat.eqb_spec j i); [lia | reflexivity].
    + intros m _ Hmi Hmj. rewrite make_U1_at by assumption.
      rewrite Nat.eqb_refl.
      destruct (Nat.eqb_spec m i); [lia|]. destruct (Nat.eqb_spec m j); [lia|]. lra.
  - rewrite (sum_over_two _ i j); try apply seq_NoDup; try (apply in_seq; lia); auto.
    + rewrite !make_U1_at by assumption.
      rewrite !Nat.eqb_refl. destruct (Nat.eqb_spec j i); [lia|].
      destruct (Nat.eqb_spec i j); [lia | reflexivity].
    + intros m _ Hmi Hmj. rewrite make_U1_at by assumption.
      rewrite Nat.eqb_refl. destruct (Nat.eqb_spec j i); [lia|].
      destruct (Nat.eqb_spec m i); [lia|]. destruct (Nat.eqb_spec m j); [lia|]. lra.
  - rewrite (sum_over_one _ a); try apply seq_NoDup; try (apply in_seq; lia).
    + rewrite make_U1_at by assumption.
      destruct (Nat.eqb_spec a i); [lia|]. destruct (Nat.eqb_spec a j); [lia|].
      rewrite Nat.eqb_refl. lra.
    + intros m _ Hma. rewrite make_U1_at by assumption.
      destruct (Nat.eqb_spec a i); [lia|]. destruct (Nat.eqb_spec a j); [lia|].
      destruct (Nat.eqb_spec a m); [congruence | lra].
Qed.

(** The contraction of one index over [m_list] (or [n_list]) against [U1]. *)
Lemma contract_selective i j t f a :
  i <> j ->
  sum_over (snd (mix_list a i j)) (fun m => make_U1 i j t a m * f m)
  = rot_row t i j f a.
Proof.
  intros Hij. unfold mix_list, rot_row, list_set.
  assert (Hset : forall a, a = i \/ a = j ->
    sum_over (nodup Nat.eq_dec [a; i; j]) (fun m => make_U1 i j t a m * f m)
    = make_U1 i j t a i * f i + make_U1 i j t a j * f j).
  { intros a0 Ha0.
    apply (sum_over_two _ i j (fun m => make_U1 i j t a0 m * f m)); auto.
    - apply NoDup_nodup.
    - apply nodup_In. simpl. auto.
    - apply nodup_In. simpl. auto.
    - intros m Hm Hmi Hmj. apply nodup_In in Hm. simpl in Hm. lia. }
  destruct (Nat.eqb_spec a i) as [-> | Hai]; [| destruct (Nat.eqb_spec a j) as [-> | Haj]];
    simpl orb; cbn [snd].
  - rewrite Hset by auto. rewrite !make_U1_at by assumption.
    rewrite !Nat.eqb_refl. destruct (Nat.eqb_spec j i); [lia | reflexivity].
  - rewrite Hset by auto. rewrite !make_U1_at by assumption.
    rewrite !Nat.eqb_refl. destruct (Nat.eqb_spec j i); [lia|].
    destruct (Nat.eqb_spec i j); [lia | reflexivity].
  - simpl. rewrite make_U1_at by assumption.
    destruct (Nat.eqb_spec a i); [lia|]. destruct (Nat.eqb_spec a j); [lia|].
    rewrite Nat.eqb_refl. lra.
Qed.

Lemma rot_row_ext t i j f g a :
  (forall m, f m = g m) -> rot_row t i j f a = rot_row t i j g a.
Proof.
  intros H. unfold rot_row. now rewrite !H.
Qed.

Lemma rot_row_zero i j f a : rot_row 0 i j f a = f a.
Proof.
  unfold rot_row. rewrite cos_0, sin_0.
  destruct (Nat.eqb_spec a i) as [-> |]; [lra|].
  destruct (Nat.eqb_spec a j) as [-> |]; [lra | reflexivity].
Qed.

Lemma rot_row_compose t1 t2 i j f a :
  i <> j ->
  rot_row t2 i j (fun m => rot_row t1 i j f m) a = rot_row (t1 + t2) i j f a.
Proof.
  intros Hij. unfold rot_row. rewrite cos_plus, sin_plus.
  rewrite !Nat.eqb_refl.
  destruct (Nat.eqb_spec j i); [lia|]. destruct (Nat.eqb_spec i j); [lia|].
  destruct (Nat.eqb_spec a i); [ring|]. destruct (Nat.eqb_spec a j); [ring | reflexivity].
Qed.

Lemma rot_row_comm t t' i j (h : nat -> nat -> R) a b :
  rot_row t i j (fun m => rot_row t' i j (fun n => h m n) b) a
  = rot_row t' i j (fun n => rot_row t i j (fun m => h m n) a) b.
Proof.
  unfold rot_row.
  destruct (Nat.eqb_spec a i); destruct (Nat.eqb_spec a j);
    destruct (Nat.eqb_spec b i); destruct (Nat.eqb_spec b j); ring.
Qed.

(** ** The three contractions in closed form *)

Lemma mix_list_test a i j :
  fst (mix_list a i j) = if ((a =? i) || (a =? j))%nat then 1%nat else 0%nat.
Proof.
  unfold mix_list. now destruct ((a =? i) || (a =? j))%nat.
Qed.

(** The selective update computes the rotated same-spin entries. *)
Lemma transform_gamma_rot no gamma i j t a b s :
  i <> j -> (a < no)%nat -> (b < no)%nat -> (s < 2)%nat ->
  transform_gamma no (make_U1 i j t) gamma i j (2 * a + s)%nat (2 * b + s)%nat
  = rot_gamma t i j gamma s s a b.
Proof.
  intros Hij Ha Hb Hs. rewrite transform_gamma_at by assumption.
  unfold rot_gamma. rewrite !mix_list_test.
  destruct ((a =? i) || (a =? j))%nat eqn:Ea;
    [| destruct ((b =? i) || (b =? j))%nat eqn:Eb].
  1, 2: replace (0 <? _)%nat with true by (symmetry; apply Nat.ltb_lt; lia);
    rewrite <- contract_selective by assumption;
    apply sum_over_ext; intros m _;
    rewrite <- contract_selective by assumption;
    rewrite <- sum_over_scal; apply sum_over_ext; intros n _; ring.
  simpl. apply orb_false_elim in Ea as [Ea1 Ea2]. apply orb_false_elim in Eb as [Eb1 Eb2].
  unfold rot_row. now rewrite Ea1, Ea2, Eb1, Eb2.
Qed.

Lemma sum_over_double n F :
  sum_over (seq 0 (2 * n)) F
  = sum_over (seq 0 n) (fun m => F (2 * m)%nat + F (2 * m + 1)%nat).
Proof.
  induction n as [|n IH].
  - reflexivity.
  - replace (2 * S n)%nat with (S (S (2 * n))) by lia.
    rewrite !seq_S, !sum_over_app, IH. cbn [sum_over Nat.add].
    replace (S (2 * n)) with (2 * n + 1)%nat by lia. lra.
Qed.

Lemma kron2_at U a m s s' :
  (s < 2)%nat -> (s' < 2)%nat ->
  kron2 U (2 * a + s)%nat (2 * m + s')%nat = if (s =? s')%nat then U a m else 0.
Proof.
  intros Hs Hs'. unfold kron2, eye.
  rewrite !div2_succ_double by assumption.
  replace ((2 * a + s) mod 2)%nat with s
    by (rewrite Nat.add_comm, Nat.mul_comm, Nat.Div0.mod_add, Nat.mod_small; lia).
  replace ((2 * m + s') mod 2)%nat with s'
    by (rewrite Nat.add_comm, Nat.mul_comm, Nat.Div0.mod_add, Nat.mod_small; lia).
  destruct (s =? s')%nat; lra.
Qed.

Lemma kron2_contract no U a s F :
  (s < 2)%nat ->
  sum_over (seq 0 (2 * no)) (fun x => kron2 U (2 * a + s)%nat x * F x)
  = sum_over (seq 0 no) (fun m => U a m * F (2 * m + s)%nat).
Proof.
  intros Hs. rewrite sum_over_double. apply sum_over_ext. intros m _.
  assert (H0 := kron2_at U a m s 0 Hs Nat.lt_0_2).
  assert (H1 := kron2_at U a m s 1 Hs Nat.lt_1_2).
  rewrite Nat.add_0_r in H0. rewrite H0, H1.
  assert (s = 0 \/ s = 1)%nat as [-> | ->] by lia; simpl Nat.eqb; cbv iota.
  - rewrite Nat.add_0_r. lra.
  - lra.
Qed.

(** The full contraction computes the rotated entries of every spin pair. *)
Lemma full_contraction_rot no gamma i j t a b s s' :
  i <> j -> (i < no)%nat -> (j < no)%nat ->
  (a < no)%nat -> (b < no)%nat -> (s < 2)%nat -> (s' < 2)%nat ->
  full_contraction no (make_U1 i j t) gamma (2 * a + s)%nat (2 * b + s')%nat
  = rot_gamma t i j gamma s s' a b.
Proof.
  intros Hij Hi Hj Ha Hb Hs Hs'. unfold full_contraction, einsum2, rot_gamma.
  rewrite <- (contract_full no) by assumption.
  transitivity (sum_over (seq 0 (2 * no)) (fun x =>
    kron2 (make_U1 i j t) (2 * a + s)%nat x *
    sum_over (seq 0 (2 * no)) (fun y =>
      kron2 (make_U1 i j t) (2 * b + s')%nat y * gamma x y))).
  - apply sum_over_ext. intros x _. rewrite <- sum_over_scal.
    apply sum_over_ext. intros y _. ring.
  - rewrite kron2_contract by assumption. apply sum_over_ext. intros m _.
    f_equal. rewrite kron2_contract by assumption.
    now apply contract_full.
Qed.

(** The contraction of the 2-RDM computes the rotated 2-RDM. *)
Lemma einsum4_rot no G i j t a b c d :
  i <> j -> (i < no)%nat -> (j < no)%nat ->
  (a < no)%nat -> (b < no)%nat -> (c < no)%nat -> (d < no)%nat ->
  einsum4 no (make_U1 i j t) G a b c d = rot4 t i j G a b c d.
Proof.
  intros Hij Hi Hj Ha Hb Hc Hd. unfold einsum4, rot4.
  rewrite <- (contract_full no) by assumption.
  apply sum_over_ext. intros a' _.
  rewrite <- (contract_full no) by assumption.
  rewrite <- sum_over_scal. apply sum_over_ext. intros b' _.
  rewrite <- (contract_full no) by assumption.
  rewrite <- !sum_over_scal. apply sum_over_ext. intros c' _.
  rewrite <- (contract_full no) by assumption.
  rewrite <- !sum_over_scal. apply sum_over_ext. intros d' _. ring.
Qed.

Lemma einsum4_ext no U G G' :
  t4_eq no G G' -> forall a b c d, einsum4 no U G a b c d = einsum4 no U G' a b c d.
Proof.
  intros H a b c d. unfold einsum4.
  apply sum_over_ext. intros a' Ha'. apply sum_over_ext. intros b' Hb'.
  apply sum_over_ext. intros c' Hc'. apply sum_over_ext. intros d' Hd'.
  apply in_seq in Ha', Hb', Hc', Hd'. rewrite H by lia. reflexivity.
Qed.

(** ** Algebra of the rotated arrays *)

Lemma rot_row_ext_in t i j f g a :
  f i = g i -> f j = g j -> f a = g a -> rot_row t i j f a = rot_row t i j g a.
Proof.
  intros Hi Hj Ha. unfold rot_row. now rewrite Hi, Hj, Ha.
Qed.

Lemma rot_row_null t i j a : rot_row t i j (fun _ => 0) a = 0.
Proof.
  unfold rot_row. destruct (a =? i)%nat; [ring|]. destruct (a =? j)%nat; [ring | reflexivity].
Qed.

Lemma rot_gamma_zero i j gamma s s' a b :
  rot_gamma 0 i j gamma s s' a b = gamma (2 * a + s)%nat (2 * b + s')%nat.
Proof.
  unfold rot_gamma. now rewrite !rot_row_zero.
Qed.

Lemma rot4_zero i j G a b c d : rot4 0 i j G a b c d = G a b c d.
Proof.
  unfold rot4. now rewrite !rot_row_zero.
Qed.

(** Two rotations of the same pair compose on every index at once: first
    for two indices, then with one index more each time, the rotation of
    the last index being moved inside with [rot_row_comm]. *)
Section Compose.

Variables (t1 t2 : R) (i j : nat).
Hypothesis Hij : i <> j.

Lemma rot_compose2 (h : nat -> nat -> R) a b :
  rot_row t2 i j (fun a1 =>
  rot_row t2 i j (fun b1 =>
    rot_row t1 i j (fun a' =>
    rot_row t1 i j (fun b' => h a' b') b1) a1) b) a
  = rot_row (t1 + t2) i j (fun a' =>
    rot_row (t1 + t2) i j (fun b' => h a' b') b) a.
Proof.
  rewrite <- (rot_row_compose t1 t2) by assumption.
  apply rot_row_ext. intros a1.
  rewrite (rot_row_comm t2 t1 i j _ b a1).
  apply rot_row_ext. intros a'.
  now apply rot_row_compose.
Qed.

Lemma rot_compose3 (h : nat -> nat -> nat -> R) a b c :
  rot_row t2 i j (fun a1 =>
  rot_row t2 i j (fun b1 =>
  rot_row t2 i j (fun c1 =>
    rot_row t1 i j (fun a' =>
    rot_row t1 i j (fun b' =>
    rot_row t1 i j (fun c' => h a' b' c') c1) b1) a1) c) b) a
  = rot_row (t1 + t2) i j (fun a' =>
    rot_row (t1 + t2) i j (fun b' =>
    rot_row (t1 + t2) i j (fun c' => h a' b' c') c) b) a.
Proof.
  rewrite <- (rot_compose2 (fun a' b' =>
    rot_row (t1 + t2) i j (fun c' => h a' b' c') c)).
  apply rot_row_ext. intros a1. apply rot_row_ext. intros b1.
  rewrite (rot_row_comm t2 t1 i j _ c a1).
  apply rot_row_ext. intros a'.
  rewrite (rot_row_comm t2 t1 i j _ c b1).
  apply rot_row_ext. intros b'.
  now apply rot_row_compose.
Qed.

Lemma rot_compose4 (h : nat -> nat -> nat -> nat -> R) a b c d :
  rot_row t2 i j (fun a1 =>
  rot_row t2 i j (fun b1 =>
  rot_row t2 i j (fun c1 =>
  rot_row t2 i j (fun d1 =>
    rot_row t1 i j (fun a' =>
    rot_row t1 i j (fun b' =>
    rot_row t1 i j (fun c' =>
    rot_row t1 i j (fun d' => h a' b' c' d') d1) c1) b1) a1) d) c) b) a
  = rot_row (t1 + t2) i j (fun a' =>
    rot_row (t1 + t2) i j (fun b' =>
    rot_row (t1 + t2) i j (fun c' =>
    rot_row (t1 + t2) i j (fun d' => h a' b' c' d') d) c) b) a.
Proof.
  rewrite <- (rot_compose3 (fun a' b' c' =>
    rot_row (t1 + t2) i j (fun d' => h a' b' c' d') d)).
  apply rot_row_ext. intros a1. apply rot_row_ext. intros b1.
  apply rot_row_ext. intros c1.
  rewrite (rot_row_comm t2 t1 i j _ d a1).
  apply rot_row_ext. intros a'.
  rewrite (rot_row_comm t2 t1 i j _ d b1).
  apply rot_row_ext. intros b'.
  rewrite (rot_row_comm t2 t1 i j _ d c1).
  apply rot_row_ext. intros c'.
  now apply rot_row_compose.
Qed.

Lemma rot_gamma_compose gamma s s' a b :
  rot_row t2 i j (fun m =>
    rot_row t2 i j (fun n => rot_gamma t1 i j gamma s s' m n) b) a
  = rot_gamma (t1 + t2) i j gamma s s' a b.
Proof.
  unfold rot_gamma. apply rot_compose2.
Qed.

Lemma rot4_compose G a b c d :
  rot4 t2 i j (rot4 t1 i j G) a b c d = rot4 (t1 + t2) i j G a b c d.
Proof.
  unfold rot4. apply rot_compose4.
Qed.

End Compose.

(** ** jacobi_transform *)

Lemma jacobi_transform_ok gamma Gamma i j t :
  (i < len Gamma)%nat -> (j < len Gamma)%nat ->
  jacobi_transform gamma Gamma i j t
  = Ok (transform_gamma (len Gamma) (make_U1 i j t) gamma i j,
        mk_ndarray4 (len Gamma) (einsum4 (len Gamma) (make_U1 i j t) (get4 Gamma))).
Proof.
  intros Hi Hj. unfold jacobi_transform.
  apply Nat.ltb_lt in Hi, Hj. now rewrite Hi, Hj.
Qed.

Lemma spin_index n p :
  (p < 2 * n)%nat -> exists a s, p = (2 * a + s)%nat /\ (a < n)%nat /\ (s < 2)%nat.
Proof.
  intros Hp. exists (p / 2)%nat, (p mod 2)%nat.
  assert (H := Nat.div_mod_eq p 2).
  assert (H' := Nat.mod_upper_bound p 2).
  split; [lia | split; [| lia]].
  apply Nat.Div0.div_lt_upper_bound. lia.
Qed.

(** Every entry of the selectively updated 1-RDM. *)
Lemma transform_gamma_entry no gamma i j t a b s s' :
  i <> j -> (a < no)%nat -> (b < no)%nat -> (s < 2)%nat -> (s' < 2)%nat ->
  transform_gamma no (make_U1 i j t) gamma i j (2 * a + s)%nat (2 * b + s')%nat
  = if (s =? s')%nat then rot_gamma t i j gamma s s a b else 0.
Proof.
  intros Hij Ha Hb Hs Hs'. destruct (Nat.eqb_spec s s') as [<- | Hss].
  - now apply transform_gamma_rot.
  - apply transform_gamma_mixed.
    assert (Hodd : Nat.odd (2 * a + s + (2 * b + s')) = true).
    { apply Nat.odd_spec. exists (a + b)%nat. lia. }
    now rewrite <- Nat.negb_odd, Hodd.
Qed.

Lemma rot_gamma_mixed t i j gamma s s' a b :
  spin_diagonal gamma -> (s < 2)%nat -> (s' < 2)%nat -> s <> s' ->
  rot_gamma t i j gamma s s' a b = 0.
Proof.
  intros Hd Hs Hs' Hss. unfold rot_gamma.
  rewrite <- (rot_row_null t i j a). apply rot_row_ext. intros m.
  rewrite <- (rot_row_null t i j b). apply rot_row_ext. intros n.
  destruct (Hd m n) as [H01 H10].
  assert ((s = 0 /\ s' = 1) \/ (s = 1 /\ s' = 0))%nat as [[-> ->] | [-> ->]] by lia.
  - now rewrite Nat.add_0_r.
  - now rewrite Nat.add_0_r.
Qed.

(** C1 (as amended).  For [i <> j] below [len(Gamma)] and every angle
    [t], the selective update of [jacobi_transform] gives every same-spin
    entry [gamma_[2a+s, 2b+s]] the value that contracting the full,
    spin-doubled [U1] twice against [gamma] gives it; its mixed-spin
    entries are 0; so the two transformed 1-RDMs are the same whenever
    [gamma] has no mixed-spin entries. *)
Theorem jacobi_transform_selective_full gamma Gamma i j t :
  i <> j -> (i < len Gamma)%nat -> (j < len Gamma)%nat ->
  exists gamma_ Gamma_,
    jacobi_transform gamma Gamma i j t = Ok (gamma_, Gamma_) /\
    (forall a b s, (a < len Gamma)%nat -> (b < len Gamma)%nat -> (s < 2)%nat ->
       gamma_ (2 * a + s)%nat (2 * b + s)%nat
       = full_contraction (len Gamma) (make_U1 i j t) gamma
           (2 * a + s)%nat (2 * b + s)%nat) /\
    (forall a b, gamma_ (2 * a)%nat (2 * b + 1)%nat = 0
              /\ gamma_ (2 * a + 1)%nat (2 * b)%nat = 0) /\
    (spin_diagonal gamma ->
       mat_eq (2 * len Gamma) gamma_
         (full_contraction (len Gamma) (make_U1 i j t) gamma)).
Proof.
  intros Hij Hi Hj. eexists. eexists.
  split; [now apply jacobi_transform_ok|].
  split; [| split].
  - intros a b s Ha Hb Hs.
    rewrite transform_gamma_rot, full_contraction_rot by assumption. reflexivity.
  - intros a b. split; apply transform_gamma_mixed; apply mixed_parity.
  - intros Hd p q Hp Hq.
    destruct (spin_index _ _ Hp) as (a & s & -> & Ha & Hs).
    destruct (spin_index _ _ Hq) as (b & s' & -> & Hb & Hs').
    rewrite transform_gamma_entry, full_contraction_rot by assumption.
    destruct (Nat.eqb_spec s s') as [<- | Hss]; [reflexivity|].
    symmetry. now apply rot_gamma_mixed.
Qed.

Lemma jacobi_transform_selective_full_witness :
  exists gamma_ Gamma_,
    jacobi_transform gamma_half (Gamma_quarter 2) 0 1 1 = Ok (gamma_, Gamma_) /\
    (forall a b s, (a < 2)%nat -> (b < 2)%nat -> (s < 2)%nat ->
       gamma_ (2 * a + s)%nat (2 * b + s)%nat
       = full_contraction 2 (make_U1 0 1 1) gamma_half
           (2 * a + s)%nat (2 * b + s)%nat) /\
    (forall a b, gamma_ (2 * a)%nat (2 * b + 1)%nat = 0
              /\ gamma_ (2 * a + 1)%nat (2 * b)%nat = 0) /\
    (spin_diagonal gamma_half ->
       mat_eq 4 gamma_ (full_contraction 2 (make_U1 0 1 1) gamma_half)).
Proof.
  apply (jacobi_transform_selective_full gamma_half (Gamma_quarter 2) 0 1 1);
    simpl; lia.
Defined.

(** C1 (as stated) fails on a 1-RDM with a mixed-spin entry: at angle 0
    the selective update leaves [gamma_[0,1]] at 0, the full contraction
    returns [gamma[0,1] = 1]. *)
Lemma jacobi_transform_selective_full_counterexample :
  exists gamma_ Gamma_,
    jacobi_transform gamma_mixed Gamma_zero2 0 1 0 = Ok (gamma_, Gamma_) /\
    gamma_ 0%nat 1%nat = 0 /\
    full_contraction 2 (make_U1 0 1 0) gamma_mixed 0%nat 1%nat = 1 /\
    ~ mat_eq 4 gamma_ (full_contraction 2 (make_U1 0 1 0) gamma_mixed).
Proof.
  eexists. eexists.
  split; [apply jacobi_transform_ok; simpl; lia|].
  assert (H0 : transform_gamma (len Gamma_zero2) (make_U1 0 1 0) gamma_mixed 0 1
                 0%nat 1%nat = 0).
  { now apply transform_gamma_mixed. }
  assert (H1 : full_contraction 2 (make_U1 0 1 0) gamma_mixed 0%nat 1%nat = 1).
  { change (full_contraction 2 (make_U1 0 1 0) gamma_mixed
              (2 * 0 + 0)%nat (2 * 0 + 1)%nat = 1).
    rewrite full_contraction_rot by lia.
    rewrite rot_gamma_zero. reflexivity. }
  split; [exact H0 | split; [exact H1|]].
  intros Heq. specialize (Heq 0%nat 1%nat). rewrite H0, H1 in Heq.
  assert (0 = 1) by (apply Heq; lia). lra.
Qed.

(** C10.  For [i], [j] below [len(Gamma)] and every input [gamma], every
    mixed-spin entry of the 1-RDM that [jacobi_transform] returns is
    exactly 0. *)
Theorem jacobi_transform_mixed_spin_zero gamma Gamma i j t :
  (i < len Gamma)%nat -> (j < len Gamma)%nat ->
  exists gamma_ Gamma_,
    jacobi_transform gamma Gamma i j t = Ok (gamma_, Gamma_) /\
    forall a b, gamma_ (2 * a)%nat (2 * b + 1)%nat = 0
             /\ gamma_ (2 * a + 1)%nat (2 * b)%nat = 0.
Proof.
  intros Hi Hj. eexists. eexists.
  split; [now apply jacobi_transform_ok|].
  intros a b. split; apply transform_gamma_mixed; apply mixed_parity.
Qed.

Lemma jacobi_transform_mixed_spin_zero_witness :
  exists gamma_ Gamma_,
    jacobi_transform gamma_mixed Gamma_zero2 0 1 1 = Ok (gamma_, Gamma_) /\
    forall a b, gamma_ (2 * a)%nat (2 * b + 1)%nat = 0
             /\ gamma_ (2 * a + 1)%nat (2 * b)%nat = 0.
Proof.
  apply (jacobi_transform_mixed_spin_zero gamma_mixed Gamma_zero2 0 1 1);
    simpl; lia.
Defined.

(** C7 (as amended).  For [i <> j] below [len(Gamma)],
    [jacobi_transform(gamma, Gamma, i, j, 0)] returns [Gamma] unchanged
    and every same-spin entry of [gamma] unchanged; the mixed-spin entries
    of the returned 1-RDM are 0, so the pair is returned unchanged
    whenever [gamma] has no mixed-spin entries. *)
Theorem jacobi_transform_zero_angle gamma Gamma i j :
  i <> j -> (i < len Gamma)%nat -> (j < len Gamma)%nat ->
  exists gamma_ Gamma_,
    jacobi_transform gamma Gamma i j 0 = Ok (gamma_, Gamma_) /\
    len Gamma_ = len Gamma /\
    t4_eq (len Gamma) (get4 Gamma_) (get4 Gamma) /\
    (forall a b s, (a < len Gamma)%nat -> (b < len Gamma)%nat -> (s < 2)%nat ->
       gamma_ (2 * a + s)%nat (2 * b + s)%nat = gamma (2 * a + s)%nat (2 * b + s)%nat) /\
    (forall a b, gamma_ (2 * a)%nat (2 * b + 1)%nat = 0
              /\ gamma_ (2 * a + 1)%nat (2 * b)%nat = 0) /\
    (spin_diagonal gamma -> mat_eq (2 * len Gamma) gamma_ gamma).
Proof.
  intros Hij Hi Hj. eexists. eexists.
  split; [now apply jacobi_transform_ok|].
  split; [reflexivity|]. split; [| split; [| split]].
  - intros a b c d Ha Hb Hc Hd. simpl.
    rewrite einsum4_rot by assumption. apply rot4_zero.
  - intros a b s Ha Hb Hs.
    rewrite transform_gamma_rot by assumption. apply rot_gamma_zero.
  - intros a b. split; apply transform_gamma_mixed; apply mixed_parity.
  - intros Hd p q Hp Hq.
    destruct (spin_index _ _ Hp) as (a & s & -> & Ha & Hs).
    destruct (spin_index _ _ Hq) as (b & s' & -> & Hb & Hs').
    rewrite transform_gamma_entry by assumption.
    destruct (Nat.eqb_spec s s') as [<- | Hss]; [apply rot_gamma_zero|].
    destruct (Hd a b) as [H01 H10].
    assert ((s = 0 /\ s' = 1) \/ (s = 1 /\ s' = 0))%nat as [[-> ->] | [-> ->]] by lia.
    + now rewrite Nat.add_0_r.
    + now rewrite Nat.add_0_r.
Qed.

Lemma jacobi_transform_zero_angle_witness :
  exists gamma_ Gamma_,
    jacobi_transform gamma_half (Gamma_quarter 2) 0 1 0 = Ok (gamma_, Gamma_) /\
    len Gamma_ = 2%nat /\
    t4_eq 2 (get4 Gamma_) (get4 (Gamma_quarter 2)) /\
    (forall a b s, (a < 2)%nat -> (b < 2)%nat -> (s < 2)%nat ->
       gamma_ (2 * a + s)%nat (2 * b + s)%nat
       = gamma_half (2 * a + s)%nat (2 * b + s)%nat) /\
    (forall a b, gamma_ (2 * a)%nat (2 * b + 1)%nat = 0
              /\ gamma_ (2 * a + 1)%nat (2 * b)%nat = 0) /\
    (spin_diagonal gamma_half -> mat_eq 4 gamma_ gamma_half).
Proof.
  apply (jacobi_transform_zero_angle gamma_half (Gamma_quarter 2) 0 1);
    simpl; lia.
Defined.

(** C7 (as stated) fails on a 1-RDM with a mixed-spin entry: the returned
    1-RDM has [gamma_[0,1] = 0] where the input has [gamma[0,1] = 1]. *)
Lemma jacobi_transform_zero_angle_counterexample :
  exists gamma_ Gamma_,
    jacobi_transform gamma_mixed Gamma_zero2 0 1 0 = Ok (gamma_, Gamma_) /\
    gamma_ 0%nat 1%nat = 0 /\ gamma_mixed 0%nat 1%nat = 1 /\
    ~ mat_eq 4 gamma_ gamma_mixed.
Proof.
  eexists. eexists.
  split; [apply jacobi_transform_ok; simpl; lia|].
  assert (H0 : transform_gamma (len Gamma_zero2) (make_U1 0 1 0) gamma_mixed 0 1
                 0%nat 1%nat = 0).
  { now apply transform_gamma_mixed. }
  split; [exact H0 | split; [reflexivity|]].
  intros Heq. specialize (Heq 0%nat 1%nat). rewrite H0 in Heq.
  assert (H : 0 = gamma_mixed 0%nat 1%nat) by (apply Heq; lia).
  unfold gamma_mixed in H. simpl in H. lra.
Qed.

(** C6.  For [i <> j] below [len(Gamma)] and angles [t1], [t2],
    [jacobi_transform] with [t1] followed by [jacobi_transform] with [t2]
    on the same pair returns the pair [(gamma, Gamma)] that a single
    [jacobi_transform] with [t1 + t2] returns. *)
Theorem jacobi_transform_compose gamma Gamma i j t1 t2 :
  i <> j -> (i < len Gamma)%nat -> (j < len Gamma)%nat ->
  exists gamma1 Gamma1 gamma2 Gamma2 gamma12 Gamma12,
    jacobi_transform gamma Gamma i j t1 = Ok (gamma1, Gamma1) /\
    jacobi_transform gamma1 Gamma1 i j t2 = Ok (gamma2, Gamma2) /\
    jacobi_transform gamma Gamma i j (t1 + t2) = Ok (gamma12, Gamma12) /\
    mat_eq (2 * len Gamma) gamma2 gamma12 /\
    len Gamma2 = len Gamma12 /\
    t4_eq (len Gamma) (get4 Gamma2) (get4 Gamma12).
Proof.
  intros Hij Hi Hj.
  do 6 eexists.
  split; [now apply jacobi_transform_ok|].
  split; [now apply jacobi_transform_ok|].
  split; [now apply jacobi_transform_ok|].
  cbn [len get4]. split; [| split; [reflexivity|]].
  - intros p q Hp Hq.
    destruct (spin_index _ _ Hp) as (a & s & -> & Ha & Hs).
    destruct (spin_index _ _ Hq) as (b & s' & -> & Hb & Hs').
    rewrite !transform_gamma_entry by assumption.
    destruct (Nat.eqb_spec s s') as [<- | Hss]; [| reflexivity].
    rewrite <- rot_gamma_compose by assumption.
    unfold rot_gamma at 1.
    apply rot_row_ext_in;
      apply rot_row_ext_in; now apply transform_gamma_rot.
  - intros a b c d Ha Hb Hc Hd.
    rewrite (einsum4_ext _ _ _ (rot4 t1 i j (get4 Gamma))).
    + rewrite !einsum4_rot by assumption. now apply rot4_compose.
    + intros a' b' c' d' Ha' Hb' Hc' Hd'. now apply einsum4_rot.
Qed.

Lemma jacobi_transform_compose_witness :
  exists gamma1 Gamma1 gamma2 Gamma2 gamma12 Gamma12,
    jacobi_transform gamma_mixed (Gamma_quarter 2) 0 1 1 = Ok (gamma1, Gamma1) /\
    jacobi_transform gamma1 Gamma1 0 1 2 = Ok (gamma2, Gamma2) /\
    jacobi_transform gamma_mixed (Gamma_quarter 2) 0 1 (1 + 2) = Ok (gamma12, Gamma12) /\
    mat_eq 4 gamma2 gamma12 /\
    len Gamma2 = len Gamma12 /\
    t4_eq 2 (get4 Gamma2) (get4 Gamma12).
Proof.
  apply (jacobi_transform_compose gamma_mixed (Gamma_quarter 2) 0 1 1 2);
    simpl; lia.
Defined.

(** ** make_tailored_ccsd *)

(** C2.  [make_tailored_ccsd] fails on the assertion exactly when
    [|c0| <= 1e-8]; when [|c0| > 1e-8] the target amplitudes are
    [t1 = c1/c0] and [t2 = c2/c0 - t1 (x) t1]; in the failure case no
    amplitudes are produced. *)
Theorem make_tailored_ccsd_reference_weight pocc pvir cas :
  (make_tailored_ccsd pocc pvir cas = Raise AssertionError
     <-> Rabs (c0 cas) <= 1e-8) /\
  (Rabs (c0 cas) > 1e-8 ->
     exists tl,
       make_tailored_ccsd pocc pvir cas = Ok tl /\
       (forall i a, t1cas_fci tl i a = c1 cas i a / c0 cas) /\
       (forall i j a b,
          t2cas_fci tl i j a b
          = c2 cas i j a b / c0 cas - t1cas_fci tl i a * t1cas_fci tl j b)) /\
  (Rabs (c0 cas) <= 1e-8 ->
     get_cas_t1t2 cas = Raise AssertionError /\
     forall tl, make_tailored_ccsd pocc pvir cas <> Ok tl).
Proof.
  unfold make_tailored_ccsd, get_cas_t1t2.
  destruct (Rgt_dec (Rabs (c0 cas)) 1e-8) as [Hgt | Hle]; simpl.
  - split; [| split].
    + split; [discriminate | lra].
    + intros _. eexists. split; [reflexivity|]. simpl. split; reflexivity.
    + lra.
  - split; [| split].
    + split; [lra | reflexivity].
    + lra.
    + intros _. split; [reflexivity | discriminate].
Qed.

(** A wave function of reference weight exactly 0 fails the check. *)
Lemma make_tailored_ccsd_reference_weight_witness :
  make_tailored_ccsd eye eye (mk_cas 0 zeros (fun _ _ _ _ => 0))
  = Raise AssertionError.
Proof.
  apply (proj1 (make_tailored_ccsd_reference_weight eye eye
                  (mk_cas 0 zeros (fun _ _ _ _ => 0)))).
  simpl. rewrite Rabs_R0. lra.
Defined.

(** ** The initial perturbation *)

Lemma perturbation_raw_bounds rand u a b :
  is_draw (rand a b) -> is_draw u ->
  - 1 / (1 + 49 * u) <= perturbation_raw rand u a b < - (1 / 2) / (1 + 49 * u).
Proof.
  unfold is_draw, perturbation_raw. intros Hr Hu.
  assert (Hi : 0 < / (1 + 49 * u)) by (apply Rinv_0_lt_compat; lra).
  unfold Rdiv. rewrite Rinv_1, Rmult_1_r. split.
  - apply Rmult_le_compat_r; lra.
  - apply Rmult_lt_compat_r; lra.
Qed.

(** C8 (as amended).  For draws in [0, 1) every raw entry is
    [(r/2 - 1)/(1 + 49 u)] and lies in [[-1, -1/2) / (1 + 49 u)], inside
    [[-1, 1] / (1 + 49 u)]; every value of that interval is the raw entry
    of some draw. *)
Theorem perturbation_raw_range rand u a b :
  is_draw (rand a b) -> is_draw u ->
  (- 1 / (1 + 49 * u) <= perturbation_raw rand u a b < - (1 / 2) / (1 + 49 * u)) /\
  (- 1 / (1 + 49 * u) <= perturbation_raw rand u a b <= 1 / (1 + 49 * u)) /\
  (forall x, - 1 / (1 + 49 * u) <= x < - (1 / 2) / (1 + 49 * u) ->
     exists r, is_draw r /\ perturbation_raw (fun _ _ => r) u a b = x).
Proof.
  intros Hr Hu.
  destruct (perturbation_raw_bounds rand u a b Hr Hu) as [Hlo Hhi].
  unfold is_draw in Hu.
  assert (Hd : 0 < 1 + 49 * u) by lra.
  assert (Hi : 0 < / (1 + 49 * u)) by (now apply Rinv_0_lt_compat).
  split; [split; assumption | split].
  - split; [assumption|].
    apply Rlt_le, Rlt_trans with (1 := Hhi). unfold Rdiv. nra.
  - intros x [Hx1 Hx2]. exists (2 * (x * (1 + 49 * u) + 1)).
    unfold Rdiv in Hx1, Hx2.
    assert (Hx1' : - 1 <= x * (1 + 49 * u)).
    { apply Rmult_le_reg_r with (/ (1 + 49 * u)); [assumption|].
      rewrite Rmult_assoc, Rinv_r by lra. lra. }
    assert (Hx2' : x * (1 + 49 * u) < - / 2).
    { apply Rmult_lt_reg_r with (/ (1 + 49 * u)); [assumption|].
      rewrite Rmult_assoc, Rinv_r by lra. lra. }
    unfold is_draw, perturbation_raw. split; [lra|]. field. lra.
Qed.

Lemma perturbation_raw_range_witness :
  (- 1 / (1 + 49 * 0) <= perturbation_raw (fun _ _ => 1 / 2) 0 0%nat 1%nat
     < - (1 / 2) / (1 + 49 * 0)) /\
  (- 1 / (1 + 49 * 0) <= perturbation_raw (fun _ _ => 1 / 2) 0 0%nat 1%nat
     <= 1 / (1 + 49 * 0)) /\
  (forall x, - 1 / (1 + 49 * 0) <= x < - (1 / 2) / (1 + 49 * 0) ->
     exists r, is_draw r /\ perturbation_raw (fun _ _ => r) 0 0%nat 1%nat = x).
Proof.
  apply (perturbation_raw_range (fun _ _ => 1 / 2) 0 0%nat 1%nat);
    unfold is_draw; lra.
Defined.

(** C8 (as stated) fails: no draw gives a raw entry 0, a value of
    [(-0.5, 1] / (1 + 49 u)]; every raw entry is negative. *)
Lemma perturbation_raw_range_counterexample :
  ~ exists rand u a b,
      is_draw (rand a b) /\ is_draw u /\ perturbation_raw rand u a b = 0.
Proof.
  intros (rand & u & a & b & Hr & Hu & H0).
  destruct (perturbation_raw_bounds rand u a b Hr Hu) as [_ Hlt].
  rewrite H0 in Hlt. unfold is_draw in Hu.
  assert (Hi : 0 < / (1 + 49 * u)) by (apply Rinv_0_lt_compat; lra).
  unfold Rdiv in Hlt. nra.
Qed.

(** The matrix handed to [expm] is antisymmetric. *)
Lemma perturbation_antisymmetric rand u a b :
  perturbation rand u a b = - perturbation rand u b a.
Proof.
  unfold perturbation. lra.
Qed.

(** ** jacobi_direct *)

Lemma fine_step_accept cost_at test topt c t :
  c > cost_at t + 1e-8 ->
  fine_step cost_at (test, topt, c) t = (1%nat, Some t, cost_at t).
Proof.
  intros H. unfold fine_step. now destruct (Rgt_dec c (cost_at t + 1e-8)).
Qed.

Lemma fine_step_reject cost_at test topt c t :
  ~ c > cost_at t + 1e-8 ->
  fine_step cost_at (test, topt, c) t = (test, topt, c).
Proof.
  intros H. unfold fine_step. now destruct (Rgt_dec c (cost_at t + 1e-8)).
Qed.

(** No acceptance: the state of the second loop does not change. *)
Lemma fine_fold_none cost_at l st :
  Forall (fun t => ~ snd st > cost_at t + 1e-8) l ->
  fold_left (fine_step cost_at) l st = st.
Proof.
  induction 1 as [|t l Ht _ IH]; cbn [fold_left].
  - reflexivity.
  - destruct st as [[test topt] c]. simpl in Ht.
    rewrite fine_step_reject by assumption. exact IH.
Qed.

(** The second loop either accepts nothing, or ends on its last accepted
    angle [t]: [t] improved the best cost held after the angles before it
    by more than 1e-8, and no later angle improved on [t] by more than
    1e-8. *)
Lemma fine_fold_last cost_at l : forall test topt c,
  (Forall (fun t => ~ c > cost_at t + 1e-8) l /\
   fold_left (fine_step cost_at) l (test, topt, c) = (test, topt, c))
  \/
  (exists pre t post,
     l = pre ++ t :: post /\
     snd (fold_left (fine_step cost_at) pre (test, topt, c)) > cost_at t + 1e-8 /\
     Forall (fun u => ~ cost_at t > cost_at u + 1e-8) post /\
     fold_left (fine_step cost_at) l (test, topt, c) = (1%nat, Some t, cost_at t)).
Proof.
  induction l as [|x l IH]; intros test topt c.
  - left. split; [constructor | reflexivity].
  - cbn [fold_left].
    destruct (Rgt_dec c (cost_at x + 1e-8)) as [Hacc | Hrej].
    + right. rewrite fine_step_accept by assumption.
      destruct (IH 1%nat (Some x) (cost_at x))
        as [[Hall Heq] | (pre & t & post & -> & Hrun & Hpost & Heq)].
      * exists [], x, l. simpl. auto.
      * exists (x :: pre), t, post. cbn [fold_left].
        rewrite fine_step_accept by assumption. auto.
    + rewrite fine_step_reject by assumption.
      destruct (IH test topt c)
        as [[Hall Heq] | (pre & t & post & -> & Hrun & Hpost & Heq)].
      * left. split; [constructor; assumption | assumption].
      * right. exists (x :: pre), t, post. cbn [fold_left].
        rewrite fine_step_reject by assumption. auto.
Qed.

Section Direct.

Variable shannon : list R -> R.

(** C3.  With [best] the best cost and [t_opt] the best angle of the
    coarse scan: [jacobi_direct] returns [None] exactly when no angle of
    the fine scan improves on [best] by more than 1e-8, the best cost
    then never changing; otherwise it returns the last accepted angle of
    the fine scan, which improved the best cost held when it was examined
    by more than 1e-8 and on which no later angle improved by more than
    1e-8. *)
Theorem jacobi_direct_sentinel i j gamma Gamma inactive_indices :
  let cost_at := fun t => jacobi_cost shannon t i j gamma Gamma inactive_indices in
  let t_opt := fst (coarse_scan cost_at) in
  let best := snd (coarse_scan cost_at) in
  (jacobi_direct shannon i j gamma Gamma inactive_indices = None
     <-> Forall (fun t => ~ best > cost_at t + 1e-8) (fine_angles t_opt)) /\
  match jacobi_direct shannon i j gamma Gamma inactive_indices with
  | None => True
  | Some t =>
      exists pre post,
        fine_angles t_opt = pre ++ t :: post /\
        snd (fine_scan cost_at pre best) > cost_at t + 1e-8 /\
        Forall (fun u => ~ cost_at t > cost_at u + 1e-8) post
  end.
Proof.
  intros cost_at t_opt best. unfold jacobi_direct. fold cost_at.
  subst t_opt best. destruct (coarse_scan cost_at) as [t_opt best]. cbn [fst snd].
  unfold fine_scan.
  destruct (fine_fold_last cost_at (fine_angles t_opt) 0%nat None best)
    as [[Hall Heq] | (pre & t & post & Hl & Hrun & Hpost & Heq)]; rewrite Heq; simpl.
  - split; [tauto | exact I].
  - split.
    + split; [discriminate|]. intros Hall.
      rewrite (fine_fold_none cost_at _ (0%nat, None, best) Hall) in Heq.
      discriminate.
    + exists pre, post. auto.
Qed.

End Direct.

(** The angles of the fine scan: 200 steps of [small_grid] from
    [t - grid], where [t] is [t_opt], or [grid] when [t_opt] is 0. *)
Lemma fine_angles_window t_opt :
  fine_angles t_opt
  = map (fun k => (if Req_dec_T t_opt 0 then t_opt + grid else t_opt) - grid
                  + INR k * small_grid)
        (seq 0 200).
Proof.
  unfold fine_angles, arange.
  set (t := if Req_dec_T t_opt 0 then t_opt + grid else t_opt).
  replace (Zceil ((t + grid - (t - grid)) / small_grid)) with 200%Z; [reflexivity|].
  symmetry. apply Zceil_eq. unfold grid, small_grid.
  replace ((t + 0.01 - (t - 0.01)) / 0.0001) with 200 by lra. lra.
Qed.

Lemma fine_angles_zero :
  fine_angles 0 = map (fun k => INR k * small_grid) (seq 0 200).
Proof.
  rewrite fine_angles_window. apply map_ext. intros k.
  destruct (Req_dec_T 0 0) as [_ | H]; [| now elim H]. unfold grid. lra.
Qed.

Lemma coarse_fold_none cost_at l t0 c :
  Forall (fun t => ~ c > cost_at t) l ->
  fold_left (coarse_step cost_at) l (t0, c) = (t0, c).
Proof.
  induction 1 as [|t l Ht _ IH]; cbn [fold_left].
  - reflexivity.
  - unfold coarse_step at 2.
    destruct (Rgt_dec c (cost_at t)); [contradiction | exact IH].
Qed.

(** A coarse scan that finds no improving angle leaves [t_opt] at 0. *)
Lemma coarse_scan_none cost_at :
  Forall (fun t => ~ cost_at 0 > cost_at t) (arange grid PI grid) ->
  coarse_scan cost_at = (0, cost_at 0).
Proof.
  intros H. unfold coarse_scan. now apply coarse_fold_none.
Qed.

Lemma arange_grid_pos t : In t (arange grid PI grid) -> 0 < t.
Proof.
  unfold arange. intros H. apply in_map_iff in H as (k & <- & _).
  assert (H0 := pos_INR k). unfold grid. nra.
Qed.

Lemma coarse_fold_angle cost_at l : forall t0 c,
  (Forall (fun t => ~ c > cost_at t) l /\
   fold_left (coarse_step cost_at) l (t0, c) = (t0, c))
  \/ In (fst (fold_left (coarse_step cost_at) l (t0, c))) l.
Proof.
  induction l as [|x l IH]; intros t0 c; cbn [fold_left].
  - left. split; [constructor | reflexivity].
  - unfold coarse_step at 2 4.
    destruct (Rgt_dec c (cost_at x)) as [Hacc | Hrej].
    + right. destruct (IH x (cost_at x)) as [[_ ->] | Hin]; [now left | now right].
    + destruct (IH t0 c) as [[Hall Heq] | Hin].
      * left. split; [now constructor | exact Heq].
      * right. now right.
Qed.

(** [t_opt] remains 0 exactly when the coarse scan finds no improving
    angle. *)
Lemma coarse_scan_zero_iff cost_at :
  fst (coarse_scan cost_at) = 0
  <-> Forall (fun t => ~ cost_at 0 > cost_at t) (arange grid PI grid).
Proof.
  split.
  - intros H0. unfold coarse_scan in H0.
    destruct (coarse_fold_angle cost_at (arange grid PI grid) 0 (cost_at 0))
      as [[Hall _] | Hin]; [exact Hall|].
    rewrite H0 in Hin. apply arange_grid_pos in Hin. lra.
  - intros H. now rewrite coarse_scan_none.
Qed.

Lemma In_fine_angles_zero t :
  In t (fine_angles 0) -> 0 <= t < 2 * grid.
Proof.
  rewrite fine_angles_zero. intros H.
  apply in_map_iff in H as (k & <- & Hk). apply in_seq in Hk.
  assert (H0 := pos_INR k).
  assert (H1 : INR k <= INR 199) by (apply le_INR; lia).
  rewrite (INR_IZR_INZ 199) in H1. simpl in H1.
  unfold grid, small_grid. lra.
Qed.

Lemma fine_angles_zero_head : In 0 (fine_angles 0).
Proof.
  rewrite fine_angles_zero. apply in_map_iff. exists 0%nat.
  split; [simpl; lra | apply in_seq; lia].
Qed.

(** Rotating two empty orbitals: every occupation is 0 at every angle,
    so the cost does not depend on the angle. *)
Lemma jacobi_cost_empty shannon t :
  jacobi_cost shannon t 0 1 zeros Gamma_zero2 [0; 1]%nat
  = shannon [1; 0; 0; 0] + shannon [1; 0; 0; 0].
Proof.
  unfold jacobi_cost, zeros. cbn.
  rewrite Rplus_0_l.
  f_equal; f_equal; repeat (f_equal; try lra).
Qed.

(** C4 (as amended).  When the coarse scan finds no improving angle,
    [t_opt] remains 0 and the fine pass is re-centred on [grid = 0.01]:
    it examines the 200 angles [k * 0.0001], [k = 0 .. 199], so every
    angle it examines lies in [[0, 0.02)] and the first one is 0. *)
Theorem jacobi_direct_fine_window shannon i j gamma Gamma inactive_indices :
  let cost_at := fun t => jacobi_cost shannon t i j gamma Gamma inactive_indices in
  Forall (fun t => ~ cost_at 0 > cost_at t) (arange grid PI grid) ->
  fst (coarse_scan cost_at) = 0 /\
  fine_angles (fst (coarse_scan cost_at))
  = map (fun k => INR k * small_grid) (seq 0 200) /\
  Forall (fun t => 0 <= t < 2 * grid) (fine_angles (fst (coarse_scan cost_at))) /\
  In 0 (fine_angles (fst (coarse_scan cost_at))).
Proof.
  intros cost_at H. rewrite (coarse_scan_none cost_at H). cbn [fst].
  split; [reflexivity|]. split; [apply fine_angles_zero|].
  split; [| apply fine_angles_zero_head].
  apply Forall_forall. intros t. apply In_fine_angles_zero.
Qed.

Lemma jacobi_direct_fine_window_witness :
  fst (coarse_scan (fun t =>
         jacobi_cost shannon_spec t 0 1 zeros Gamma_zero2 [0; 1]%nat)) = 0 /\
  fine_angles (fst (coarse_scan (fun t =>
         jacobi_cost shannon_spec t 0 1 zeros Gamma_zero2 [0; 1]%nat)))
  = map (fun k => INR k * small_grid) (seq 0 200) /\
  Forall (fun t => 0 <= t < 2 * grid)
    (fine_angles (fst (coarse_scan (fun t =>
         jacobi_cost shannon_spec t 0 1 zeros Gamma_zero2 [0; 1]%nat)))) /\
  In 0 (fine_angles (fst (coarse_scan (fun t =>
         jacobi_cost shannon_spec t 0 1 zeros Gamma_zero2 [0; 1]%nat)))).
Proof.
  apply (jacobi_direct_fine_window shannon_spec 0 1 zeros Gamma_zero2 [0; 1]%nat).
  apply Forall_forall. intros t _. rewrite !jacobi_cost_empty. lra.
Defined.

(** C4 (as stated) fails: for two empty orbitals, both inactive, the
    cost is the same at every angle, the coarse scan finds no improving
    angle, [t_opt] remains 0, and the fine pass examines the angle 0,
    which is below 0.01. *)
Lemma jacobi_direct_fine_window_counterexample :
  fst (coarse_scan (fun t =>
         jacobi_cost shannon_spec t 0 1 zeros Gamma_zero2 [0; 1]%nat)) = 0 /\
  exists t,
    In t (fine_angles (fst (coarse_scan (fun t =>
            jacobi_cost shannon_spec t 0 1 zeros Gamma_zero2 [0; 1]%nat)))) /\
    ~ t >= 0.01.
Proof.
  rewrite coarse_scan_none.
  - cbn [fst]. split; [reflexivity|]. exists 0.
    split; [apply fine_angles_zero_head | lra].
  - apply Forall_forall. intros t _. rewrite !jacobi_cost_empty. lra.
Qed.

(** ** The bubble-sort phase of reorder *)

Lemma count_gt_le x l : (count_gt x l <= length l)%nat.
Proof.
  unfold count_gt. apply filter_length_le.
Qed.

Lemma count_gt_app x l1 l2 :
  count_gt x (l1 ++ l2) = (count_gt x l1 + count_gt x l2)%nat.
Proof.
  unfold count_gt. now rewrite filter_app, length_app.
Qed.

Lemma count_gt_cons x y l :
  count_gt x (y :: l) = ((if Rlt_dec x y then 1 else 0) + count_gt x l)%nat.
Proof.
  unfold count_gt. simpl. now destruct (Rlt_dec x y).
Qed.

Lemma inversions_bound l :
  (2 * inversions l <= length l * (length l - 1))%nat.
Proof.
  induction l as [|x l IH]; simpl inversions; simpl length.
  - lia.
  - assert (H := count_gt_le x l). nia.
Qed.

Lemma inversions_swap pre x y post :
  x < y ->
  (inversions (pre ++ y :: x :: post) + 1)%nat = inversions (pre ++ x :: y :: post).
Proof.
  intros Hxy. induction pre as [|a pre IH]; cbn [app inversions].
  - rewrite !count_gt_cons.
    destruct (Rlt_dec y x); [lra|]. destruct (Rlt_dec x y); [lia | contradiction].
  - rewrite !count_gt_app, !count_gt_cons. lia.
Qed.

Lemma upd_app pre k v l :
  upd (length pre + k) v (pre ++ l) = pre ++ upd k v l.
Proof.
  induction pre as [|a pre IH]; simpl; [reflexivity | now rewrite IH].
Qed.

Lemma upd_length k v l : length (upd k v l) = length l.
Proof.
  revert k. induction l as [|a l IH]; intros [|k]; simpl; auto.
Qed.

Lemma exchange_length p q l : length (exchange p q l) = length l.
Proof.
  unfold exchange. now rewrite !upd_length.
Qed.

Lemma exchange_adjacent pre x y post :
  exchange (length pre) (length pre + 1) (pre ++ x :: y :: post)
  = pre ++ y :: x :: post.
Proof.
  unfold exchange.
  rewrite (app_nth2 pre), Nat.sub_diag by lia.
  rewrite (app_nth2 pre) by lia.
  replace (length pre + 1 - length pre)%nat with 1%nat by lia. cbn [nth].
  rewrite <- (Nat.add_0_r (length pre)) at 2.
  rewrite upd_app. cbn [upd]. now rewrite upd_app.
Qed.

Lemma adjacent_split (l : list R) i :
  (i + 1 < length l)%nat ->
  exists pre x y post,
    l = pre ++ x :: y :: post /\ length pre = i /\
    nth i l 0 = x /\ nth (i + 1) l 0 = y.
Proof.
  intros Hi.
  assert (Hl : length (skipn i l) = (length l - i)%nat) by apply length_skipn.
  assert (Hpre : length (firstn i l) = i) by (rewrite length_firstn; lia).
  assert (Heq : firstn i l ++ skipn i l = l) by apply firstn_skipn.
  destruct (skipn i l) as [|x [|y post]]; simpl in Hl; try lia.
  remember (firstn i l) as pre eqn:Epre. clear Epre. subst l i.
  exists pre, x, y, post.
  split; [reflexivity | split; [reflexivity|]].
  rewrite !(app_nth2 pre) by lia. rewrite Nat.sub_diag.
  replace (length pre + 1 - length pre)%nat with 1%nat by lia.
  split; reflexivity.
Qed.

Lemma bubble_fold_inv no st0 test0 (l : list nat) :
  (forall i, In i l -> (i + 1 < length (S1 st0))%nat) ->
  forall cur, pass_inv st0 test0 cur ->
  pass_inv st0 test0 (fold_left (bubble_step no) l cur).
Proof.
  induction l as [|i l IH]; intros Hl cur Hcur; cbn [fold_left].
  - exact Hcur.
  - apply IH; [intros k Hk; apply Hl; now right|].
    destruct cur as [st test]. destruct Hcur as (Hlen & Hsum & Hrec & Htest).
    unfold bubble_step.
    destruct (Rlt_dec (nth i (S1 st) 0) (nth (i + 1) (S1 st) 0)) as [Hlt | Hge].
    + assert (Hi : (i + 1 < length (S1 st))%nat)
        by (rewrite Hlen; apply Hl; now left).
      destruct (adjacent_split _ _ Hi) as (pre & x & y & post & Heq & Hpre & Hx & Hy).
      rewrite Hx, Hy in Hlt.
      assert (Hex : S1 (swap_record no st i (i + 1) (i + 1) (i + 2))
                    = pre ++ y :: x :: post).
      { cbn [swap_record S1]. rewrite Heq, <- Hpre. apply exchange_adjacent. }
      assert (Hinv := inversions_swap pre x y post Hlt).
      unfold pass_inv. rewrite Hex.
      cbn [swap_record rotations].
      rewrite Heq in Hlen, Hsum, Htest.
      split; [| split; [| split]].
      * rewrite <- Hlen, !length_app. reflexivity.
      * rewrite length_app. cbn [length]. lia.
      * intros H0. apply Forall_app. split; [now apply Hrec|].
        constructor; [| constructor]. cbn. split; [reflexivity | lia].
      * right. split; [reflexivity | lia].
    + unfold pass_inv. auto.
Qed.

Lemma bubble_pass_inv no st :
  pass_inv st 0%nat (bubble_pass no st).
Proof.
  unfold bubble_pass. apply bubble_fold_inv.
  - intros i Hi. apply in_seq in Hi. lia.
  - unfold pass_inv. split; [reflexivity | split; [reflexivity | split; auto]].
Qed.

(** The [while] loop ends within one pass more than [S1] has inversions,
    every swap it records removing one inversion. *)
Lemma bubble_loop_terminates no : forall fuel st,
  (inversions (S1 st) < fuel)%nat ->
  exists st',
    bubble_loop fuel no st 1%nat = Some st' /\
    length (S1 st') = length (S1 st) /\
    (length (rotations st') + inversions (S1 st')
     = length (rotations st) + inversions (S1 st))%nat /\
    (Forall (fun r : rotation => snd r = 0 /\ snd (fst r) = S (fst (fst r)))
       (rotations st) ->
     Forall (fun r : rotation => snd r = 0 /\ snd (fst r) = S (fst (fst r)))
       (rotations st')).
Proof.
  induction fuel as [|fuel IH]; intros st Hfuel; [lia|].
  cbn [bubble_loop Nat.eqb].
  assert (Hpass := bubble_pass_inv no st).
  destruct (bubble_pass no st) as [st1 test1].
  destruct Hpass as (Hlen & Hsum & Hrec & [[-> Hsame] | [-> Hless]]).
  - exists st1. split; [now destruct fuel|]. auto.
  - destruct (IH st1) as (st' & Hrun & Hlen' & Hsum' & Hrec'); [lia|].
    exists st'. split; [exact Hrun|].
    split; [congruence | split; [lia | auto]].
Qed.

Section LegacyReorder.

Variable shannon : list R -> R.

(** C9.  For every [(gamma, Gamma)] with [N = len(Gamma)] orbitals the
    bubble-sort phase of [reorder] terminates (within [N(N-1)/2 + 1]
    passes of the [while] loop, so [reorder] returns for every [N_cas]),
    and it produces at most [N(N-1)/2] rotation records, each an adjacent
    swap of angle 0. *)
Theorem reorder_bubble_phase_swaps gamma Gamma fuel :
  (len Gamma * (len Gamma - 1) / 2 < fuel)%nat ->
  exists st,
    bubble_phase shannon fuel gamma Gamma = Some st /\
    (length (rotations st) <= len Gamma * (len Gamma - 1) / 2)%nat /\
    Forall (fun r : rotation => snd r = 0 /\ snd (fst r) = S (fst (fst r)))
      (rotations st) /\
    forall N_cas, reorder shannon fuel gamma Gamma N_cas <> None.
Proof.
  intros Hfuel. unfold reorder, bubble_phase.
  set (st0 := reorder_init shannon gamma Gamma).
  assert (Hn : length (S1 st0) = len Gamma).
  { unfold st0, reorder_init. cbn [S1]. now rewrite length_map, length_seq. }
  assert (Hb := inversions_bound (S1 st0)). rewrite Hn in Hb.
  assert (Hdiv : (inversions (S1 st0) <= len Gamma * (len Gamma - 1) / 2)%nat).
  { apply Nat.div_le_lower_bound; lia. }
  destruct (bubble_loop_terminates (length (S1 st0)) fuel st0)
    as (st & Hrun & _ & Hsum & Hrec); [lia|].
  exists st. rewrite Hrun.
  split; [reflexivity|]. split; [| split].
  - unfold st0 at 1 in Hsum. cbn [reorder_init rotations length] in Hsum. lia.
  - apply Hrec. unfold st0. cbn [reorder_init rotations]. constructor.
  - intros N_cas. destruct (closed_phase _ N_cas st). discriminate.
Qed.

End LegacyReorder.

Lemma reorder_bubble_phase_swaps_witness :
  exists st,
    bubble_phase shannon_spec 2 gamma_half Gamma_zero2 = Some st /\
    (length (rotations st) <= 2 * (2 - 1) / 2)%nat /\
    Forall (fun r : rotation => snd r = 0 /\ snd (fst r) = S (fst (fst r)))
      (rotations st) /\
    forall N_cas, reorder shannon_spec 2 gamma_half Gamma_zero2 N_cas <> None.
Proof.
  apply (reorder_bubble_phase_swaps shannon_spec gamma_half Gamma_zero2 2).
  cbn. lia.
Defined.

(** ** reorder_fast *)

Lemma is_perm_length n l : is_perm n l -> length l = n.
Proof.
  intros H. apply Permutation_length in H. now rewrite length_seq in H.
Qed.

Lemma is_perm_lt n l : is_perm n l -> Forall (fun k => (k < n)%nat) l.
Proof.
  intros H. apply Forall_forall. intros k Hk.
  apply (Permutation_in _ H), in_seq in Hk. lia.
Qed.

Lemma is_perm_NoDup n l : is_perm n l -> NoDup l.
Proof.
  intros H. apply (Permutation_NoDup (Permutation_sym H)), seq_NoDup.
Qed.

Lemma nth_gather {A : Type} (d : A) x inds r :
  (r < length inds)%nat -> nth r (gather d x inds) d = nth (nth r inds 0%nat) x d.
Proof.
  intros Hr. unfold gather.
  rewrite (nth_indep _ d (nth 0%nat x d)) by (now rewrite length_map).
  now rewrite (map_nth (fun k => nth k x d)).
Qed.

Lemma gather_all {A : Type} (d : A) (x : list A) :
  gather d x (seq 0 (length x)) = x.
Proof.
  apply (nth_ext _ _ d d).
  - unfold gather. now rewrite length_map, length_seq.
  - unfold gather at 1. rewrite length_map, length_seq. intros r Hr.
    rewrite nth_gather by (now rewrite length_seq).
    now rewrite seq_nth.
Qed.

Lemma gather_gather {A : Type} (d : A) x perm inds :
  Forall (fun k => (k < length perm)%nat) inds ->
  gather d (gather d x perm) inds = gather d x (gather 0%nat perm inds).
Proof.
  intros H. unfold gather. rewrite map_map.
  apply map_ext_in. intros k Hk.
  rewrite Forall_forall in H. apply (nth_gather d x perm k). now apply H.
Qed.

Lemma is_perm_gather n perm inds :
  is_perm n perm -> is_perm n inds -> is_perm n (gather 0%nat perm inds).
Proof.
  intros Hp Hi. unfold is_perm.
  transitivity (gather 0%nat perm (seq 0 n)).
  - unfold gather. now apply Permutation_map.
  - rewrite <- (is_perm_length _ _ Hp) at 1. now rewrite gather_all.
Qed.

(** [take] and [take_rows] succeed on indices in range. *)
Lemma take_ok x inds :
  Forall (fun k => (k < length x)%nat) inds -> take x inds = Ok (gather 0 x inds).
Proof.
  induction 1 as [|k inds Hk _ IH]; cbn [take gather map].
  - reflexivity.
  - rewrite (nth_error_nth' x 0 Hk), IH. reflexivity.
Qed.

Lemma take_rows_ok n P inds :
  Forall (fun k => (k < n)%nat) inds ->
  take_rows n P inds = Ok (fun r c => P (nth r inds 0%nat) c).
Proof.
  intros H. unfold take_rows.
  replace (forallb _ inds) with true; [reflexivity|].
  symmetry. apply forallb_forall. rewrite Forall_forall in H.
  intros k Hk. now apply Nat.ltb_lt, H.
Qed.

(** [argsort] returns a permutation of the indices. *)
Lemma insert_index_perm v k l : Permutation (insert_index v k l) (k :: l).
Proof.
  induction l as [|h l IH]; cbn [insert_index].
  - reflexivity.
  - destruct (Rle_dec (v k) (v h)); [reflexivity|].
    rewrite IH. apply perm_swap.
Qed.

Lemma argsort_perm x : is_perm (length x) (argsort x).
Proof.
  unfold is_perm, argsort.
  induction (seq 0 (length x)) as [|k l IH]; cbn [fold_right].
  - reflexivity.
  - rewrite insert_index_perm. now constructor.
Qed.

Lemma map_add_seq s len : map (Nat.add s) (seq 0 len) = seq s len.
Proof.
  revert s. induction len as [|len IH]; intros s; cbn [seq map].
  - reflexivity.
  - rewrite Nat.add_0_r. f_equal. rewrite <- seq_shift, map_map.
    rewrite <- (IH (S s)). apply map_ext. intros k. lia.
Qed.

(** The four index arrays of [reorder_fast] are permutations. *)
Lemma rev_argsort_perm x : is_perm (length x) (rev (argsort x)).
Proof.
  unfold is_perm. rewrite <- Permutation_rev. apply argsort_perm.
Qed.

Lemma inds_inactive_perm n n_cas (occ : list R) :
  length occ = n -> (n_cas <= n)%nat ->
  is_perm n (seq 0 n_cas ++ map (Nat.add n_cas) (rev (argsort (skipn n_cas occ)))).
Proof.
  intros Hlen Hle. unfold is_perm.
  replace n with (n_cas + (n - n_cas))%nat at 1 by lia.
  rewrite seq_app. apply Permutation_app_head. cbn [Nat.add].
  rewrite <- map_add_seq. apply Permutation_map.
  replace (n - n_cas)%nat with (length (skipn n_cas occ))
    by (rewrite length_skipn; lia).
  apply rev_argsort_perm.
Qed.

Lemma inds_active_perm n n_cas (occ : list R) :
  length occ = n -> (n_cas <= n)%nat ->
  is_perm n (rev (argsort (firstn n_cas occ)) ++ seq n_cas (n - n_cas)).
Proof.
  intros Hlen Hle. unfold is_perm.
  replace n with (n_cas + (n - n_cas))%nat at 2 by lia.
  rewrite seq_app. apply Permutation_app_tail.
  replace n_cas with (length (firstn n_cas occ)) at 2
    by (rewrite length_firstn; lia).
  apply rev_argsort_perm.
Qed.

Lemma inds_core_perm n n_cas n_core :
  (n_cas + n_core <= n)%nat ->
  is_perm n (seq n_cas n_core ++ seq 0 n_cas
             ++ seq (n_cas + n_core) (n - (n_cas + n_core))).
Proof.
  intros Hle. unfold is_perm.
  replace n with (n_cas + n_core + (n - (n_cas + n_core)))%nat at 2 by lia.
  rewrite !seq_app, <- app_assoc. cbn [Nat.add].
  rewrite !app_assoc. apply Permutation_app_tail, Permutation_app_comm.
Qed.

Lemma reindex_inv n s_init perm st inds :
  length s_init = n -> reorder_inv n s_init perm st -> is_perm n inds ->
  exists st',
    reindex n st inds = Ok st' /\
    reorder_inv n s_init (gather 0%nat perm inds) st'.
Proof.
  intros Hs Hinv Hinds. destruct st as [[P s_val] occ_num].
  destruct Hinv as (Hperm & HP & Hsv & Hocc).
  assert (Hlt := is_perm_lt _ _ Hinds).
  assert (Hlen := is_perm_length _ _ Hinds).
  assert (Hplen := is_perm_length _ _ Hperm).
  unfold reindex. rewrite take_rows_ok by assumption. cbn [bind].
  rewrite take_ok; [cbn [bind] | ].
  2:{ subst s_val. unfold gather. rewrite length_map, Hplen. exact Hlt. }
  rewrite take_ok by (now rewrite Hocc). cbn [bind].
  eexists. split; [reflexivity|].
  unfold reorder_inv. split; [| split; [| split]].
  - now apply is_perm_gather.
  - intros r c Hr.
    assert (Hin : (nth r inds 0 < n)%nat).
    { rewrite Forall_forall in Hlt. apply Hlt, nth_In. lia. }
    rewrite HP by assumption. now rewrite nth_gather by lia.
  - subst s_val. apply gather_gather. now rewrite Hplen.
  - unfold gather. now rewrite length_map.
Qed.

(** With [n_cas + n_core <= len(Gamma)] the four passes succeed. *)
Lemma reorder_fast_passes_ok gamma Gamma n_cas n_core :
  (n_cas + n_core <= len Gamma)%nat ->
  exists perm st,
    reorder_fast_passes gamma Gamma n_cas n_core = Ok st /\
    reorder_inv (len Gamma) (orbital_entropies gamma Gamma) perm st.
Proof.
  intros Hle. unfold reorder_fast_passes.
  set (n := len Gamma). set (s := orbital_entropies gamma Gamma).
  assert (Hs : length s = n)
    by (unfold s, orbital_entropies; now rewrite length_map, length_seq).
  assert (Ho : length (occupations gamma Gamma) = n)
    by (unfold occupations; now rewrite length_map, length_seq).
  assert (H0 : reorder_inv n s (seq 0 n) (eye, s, occupations gamma Gamma)).
  { unfold reorder_inv, is_perm. split; [reflexivity | split; [| split]].
    - intros r c Hr. now rewrite seq_nth.
    - symmetry. rewrite <- Hs. apply gather_all.
    - exact Ho. }
  destruct (reindex_inv n s _ _ (rev (argsort s)) Hs H0) as (st1 & -> & H1).
  { rewrite <- Hs. apply rev_argsort_perm. }
  cbn [bind].
  assert (Hlen : forall perm (st : matrix * list R * list R),
            reorder_inv n s perm st -> length (snd st) = n).
  { intros perm [[P sv] occ] Hinv. apply Hinv. }
  destruct (reindex_inv n s _ _ _ Hs H1
              (inds_inactive_perm n n_cas (snd st1) (Hlen _ _ H1) ltac:(lia)))
    as (st2 & -> & H2).
  cbn [bind].
  destruct (reindex_inv n s _ _ _ Hs H2
              (inds_active_perm n n_cas (snd st2) (Hlen _ _ H2) ltac:(lia)))
    as (st3 & -> & H3).
  cbn [bind].
  destruct (reindex_inv n s _ _ _ Hs H3 (inds_core_perm n n_cas n_core Hle))
    as (st4 & Hrun & H4).
  eexists. exists st4. split; [exact Hrun | exact H4].
Qed.

Lemma eye_row_dot n k (v : list R) :
  (k < n)%nat ->
  sum_over (seq 0 n) (fun c => eye k c * nth c v 0) = nth k v 0.
Proof.
  intros Hk. rewrite (sum_over_one _ k).
  - unfold eye. rewrite Nat.eqb_refl. lra.
  - apply seq_NoDup.
  - apply in_seq. lia.
  - intros m _ Hm. unfold eye.
    destruct (Nat.eqb_spec k m); [congruence | lra].
Qed.


(** The permutation applied to the initial entropies is the tracked
    vector: the operands of the [assert] are equal. *)
Lemma reorder_inv_selfcheck n s_init perm P s_val occ_num :
  length s_init = n -> reorder_inv n s_init perm (P, s_val, occ_num) ->
  matvec n P s_init = s_val.
Proof.
  intros Hs (Hperm & HP & -> & _). unfold matvec.
  assert (Hlt := is_perm_lt _ _ Hperm).
  assert (Hlen := is_perm_length _ _ Hperm).
  transitivity (gather 0 s_init (gather 0%nat perm (seq 0 n))).
  - unfold gather. rewrite map_map. apply map_ext_in. intros r Hr.
    apply in_seq in Hr.
    transitivity (sum_over (seq 0 n) (fun c => eye (nth r perm 0%nat) c * nth c s_init 0)).
    + apply sum_over_ext. intros c _. now rewrite HP by lia.
    + apply eye_row_dot. rewrite Forall_forall in Hlt. apply Hlt, nth_In. lia.
  - rewrite <- Hlen at 1. now rewrite gather_all.
Qed.

(** [P @ P.T] is the identity. *)
Lemma reorder_inv_orthogonal n s_init perm P s_val occ_num :
  reorder_inv n s_init perm (P, s_val, occ_num) ->
  mat_eq n (matmul n P (transpose P)) eye.
Proof.
  intros (Hperm & HP & _ & _) r r' Hr Hr'. unfold matmul, transpose.
  assert (Hlt := is_perm_lt _ _ Hperm).
  assert (Hlen := is_perm_length _ _ Hperm).
  assert (Hnd := is_perm_NoDup _ _ Hperm).
  rewrite Forall_forall in Hlt.
  assert (Hk : (nth r perm 0 < n)%nat) by (apply Hlt, nth_In; lia).
  rewrite (sum_over_one _ (nth r perm 0%nat)).
  - rewrite !HP by assumption. unfold eye. rewrite Nat.eqb_refl.
    destruct (Nat.eqb_spec r r') as [-> | Hne].
    + rewrite Nat.eqb_refl. lra.
    + destruct (Nat.eqb_spec (nth r' perm 0%nat) (nth r perm 0%nat)) as [E | _]; [| lra].
      elim Hne. symmetry.
      apply (proj1 (NoDup_nth perm 0%nat) Hnd); [lia | lia | exact E].
  - apply seq_NoDup.
  - apply in_seq. lia.
  - intros m _ Hm. rewrite HP by assumption. unfold eye.
    destruct (Nat.eqb_spec (nth r perm 0%nat) m); [congruence | lra].
Qed.



Lemma getitem_end (x : list R) :
  getitem x (Z.of_nat (length x)) = Raise IndexError.
Proof.
  unfold getitem.
  replace (Z.of_nat (length x) <? Z.of_nat (length x))%Z with false
    by (symmetry; apply Z.ltb_ge; lia).
  replace (Z.of_nat (length x) <? 0)%Z with false
    by (symmetry; apply Z.ltb_ge; lia).
  now rewrite !andb_false_r.
Qed.


Lemma getitem_raises (x : list R) k e :
  getitem x k = Raise e -> e = IndexError.
Proof.
  unfold getitem.
  destruct ((0 <=? k) && (k <? Z.of_nat (length x)))%Z; [discriminate|].
  destruct ((- Z.of_nat (length x) <=? k) && (k <? 0))%Z; [discriminate|].
  congruence.
Qed.





(** C5, on the boundary: with [n_core + n_cas = len(Gamma)] the
    comparison of line 300 reads [occ_num[len(Gamma)]], one past the end,
    and [reorder_fast] raises [IndexError] before the self-check: no [P]
    is returned. *)
Theorem reorder_fast_boundary gamma Gamma n_cas n_core :
  (n_cas + n_core = len Gamma)%nat ->
  reorder_fast gamma Gamma n_cas n_core = Raise IndexError.
Proof.
  intros Heq.
  destruct (reorder_fast_passes_ok gamma Gamma n_cas n_core)
    as (perm & [[P s_val] occ_num] & Hrun & Hinv); [lia|].
  destruct Hinv as (_ & _ & _ & Hocc).
  unfold reorder_fast. rewrite Hrun. cbn [bind].
  replace (Z.of_nat n_core + Z.of_nat n_cas)%Z with (Z.of_nat (length occ_num)) by lia.
  rewrite getitem_end.
  destruct (getitem occ_num (Z.of_nat (length occ_num) - 1)) as [v | e] eqn:E;
    cbn [bind]; [reflexivity|].
  apply getitem_raises in E. now subst e.
Qed.

Lemma reorder_fast_boundary_witness :
  reorder_fast gamma_half (Gamma_quarter 2) 1 1 = Raise IndexError.
Proof.
  apply (reorder_fast_boundary gamma_half (Gamma_quarter 2) 1 1). reflexivity.
Defined.

(** * Further properties *)

(** ** jacobi_cost *)

Section Cost.

Variable shannon : list R -> R.

(** X3.  When neither [i] nor [j] is inactive the cost is 0, whatever
    the angle and the RDMs. *)
Theorem jacobi_cost_no_inactive theta i j rdm1 rdm2 inactive_indices :
  ~ In i inactive_indices -> ~ In j inactive_indices ->
  jacobi_cost shannon theta i j rdm1 rdm2 inactive_indices = 0.
Proof.
  intros Hi Hj. unfold jacobi_cost. cbn [fold_left].
  assert (H : forall k, ~ In k inactive_indices ->
                existsb (Nat.eqb k) inactive_indices = false).
  { intros k Hk. destruct (existsb (Nat.eqb k) inactive_indices) eqn:E; [| reflexivity].
    apply existsb_exists in E as (x & Hx & Hkx).
    apply Nat.eqb_eq in Hkx. subst x. contradiction. }
  now rewrite (H i Hi), (H j Hj).
Qed.

(** X4.  The cost has period pi in the angle: the occupations are
    quadratic and quartic in the entries of [u1], which change sign. *)
Theorem jacobi_cost_periodic theta i j rdm1 rdm2 inactive_indices :
  jacobi_cost shannon (theta + PI) i j rdm1 rdm2 inactive_indices
  = jacobi_cost shannon theta i j rdm1 rdm2 inactive_indices.
Proof.
  unfold jacobi_cost. cbn [fold_left seq nth].
  rewrite Nat.eqb_refl.
  destruct (existsb (Nat.eqb i) inactive_indices);
    destruct (existsb (Nat.eqb j) inactive_indices);
    destruct (i =? j)%nat; cbn [Nat.mul Nat.add rot2];
    rewrite ?neg_cos, ?neg_sin;
    repeat (f_equal; try ring).
Qed.

End Cost.

Section CostTransform.

Variable shannon : list R -> R.

(** X5.  The cost at angle [theta] is the cost at angle 0 of the RDMs
    that [jacobi_transform] returns for [theta]: [jacobi_cost] predicts
    the entropies of [i] and [j] after the rotation. *)
Theorem jacobi_cost_of_transform theta i j gamma Gamma inactive_indices :
  i <> j -> (i < len Gamma)%nat -> (j < len Gamma)%nat ->
  exists gamma_ Gamma_,
    jacobi_transform gamma Gamma i j theta = Ok (gamma_, Gamma_) /\
    jacobi_cost shannon 0 i j gamma_ Gamma_ inactive_indices
    = jacobi_cost shannon theta i j gamma Gamma inactive_indices.
Proof.
  intros Hij Hi Hj. eexists. eexists.
  split; [now apply jacobi_transform_ok|].
  set (no := len Gamma).
  set (g := transform_gamma no (make_U1 i j theta) gamma i j).
  assert (Hg : forall a b s, (a < no)%nat -> (b < no)%nat -> (s < 2)%nat ->
            g (2 * a + s)%nat (2 * b + s)%nat = rot_gamma theta i j gamma s s a b).
  { intros. now apply transform_gamma_rot. }
  assert (Hg0 : forall a b, (a < no)%nat -> (b < no)%nat ->
            g (2 * a)%nat (2 * b)%nat = rot_gamma theta i j gamma 0 0 a b).
  { intros a b Ha Hb. rewrite <- (Hg a b 0%nat) by lia. now rewrite !Nat.add_0_r. }
  assert (HG : forall a b c d, (a < no)%nat -> (b < no)%nat -> (c < no)%nat -> (d < no)%nat ->
            einsum4 no (make_U1 i j theta) (get4 Gamma) a b c d
            = rot4 theta i j (get4 Gamma) a b c d).
  { intros. now apply einsum4_rot. }
  unfold jacobi_cost. cbn [fold_left seq nth get4].
  rewrite Nat.eqb_refl.
  destruct (Nat.eqb_spec i j) as [E | _]; [contradiction|].
  assert (Hji : (j =? i)%nat = false) by (apply Nat.eqb_neq; lia).
  rewrite !Nat.mul_1_l. cbn [rot2].
  rewrite !Hg0, !(Hg _ _ 1%nat), !HG by lia.
  unfold rot_gamma, rot4, rot_row.
  rewrite ?Nat.eqb_refl, ?Hji, ?cos_0, ?sin_0, ?Nat.add_0_r.
  replace (i =? j)%nat with false by (symmetry; apply Nat.eqb_neq; lia).
  destruct (existsb (Nat.eqb i) inactive_indices);
    destruct (existsb (Nat.eqb j) inactive_indices);
    repeat first
      [ reflexivity
      | apply (f_equal2 Rplus)
      | apply (f_equal shannon)
      | apply (f_equal2 (@cons R)); [ring|] ].
Qed.

End CostTransform.

(** ** jacobi_direct: what an accepted angle is *)

Lemma coarse_fold_le cost_at l : forall t0 c,
  snd (fold_left (coarse_step cost_at) l (t0, c)) <= c.
Proof.
  induction l as [|x l IH]; intros t0 c; cbn [fold_left].
  - simpl. lra.
  - unfold coarse_step at 2.
    destruct (Rgt_dec c (cost_at x)) as [Hacc | Hrej].
    + specialize (IH x (cost_at x)). lra.
    + apply IH.
Qed.

Lemma fine_fold_le cost_at l : forall test topt c,
  snd (fold_left (fine_step cost_at) l (test, topt, c)) <= c.
Proof.
  induction l as [|x l IH]; intros test topt c; cbn [fold_left].
  - simpl. lra.
  - destruct (Rgt_dec c (cost_at x + 1e-8)) as [Hacc | Hrej].
    + rewrite fine_step_accept by assumption.
      specialize (IH 1%nat (Some x) (cost_at x)). lra.
    + rewrite fine_step_reject by assumption. apply IH.
Qed.

(** The angles of the coarse scan lie in [[grid, pi)]. *)
Lemma arange_grid_range t : In t (arange grid PI grid) -> grid <= t < PI.
Proof.
  unfold arange. intros H. apply in_map_iff in H as (k & <- & Hk).
  apply in_seq in Hk. assert (H0 := pos_INR k).
  assert (Hg : 0 < grid) by (unfold grid; lra).
  split; [nra|].
  set (x := (PI - grid) / grid) in *.
  assert (Hc := Zceil_bound x).
  assert (Hz : (Z.of_nat k < Zceil x)%Z) by lia.
  assert (Hk' : INR k <= IZR (Zceil x) - 1).
  { rewrite INR_IZR_INZ, <- minus_IZR. apply IZR_le. lia. }
  assert (Hx : INR k < x) by lra.
  assert (Hm : INR k * grid < x * grid) by (apply Rmult_lt_compat_r; assumption).
  unfold x in Hm. unfold Rdiv in Hm.
  rewrite Rmult_assoc, Rinv_l, Rmult_1_r in Hm by lra. lra.
Qed.

Lemma coarse_scan_angle cost_at :
  fst (coarse_scan cost_at) = 0 \/ grid <= fst (coarse_scan cost_at) < PI.
Proof.
  unfold coarse_scan.
  destruct (coarse_fold_angle cost_at (arange grid PI grid) 0 (cost_at 0))
    as [[_ ->] | Hin].
  - now left.
  - right. now apply arange_grid_range.
Qed.

Lemma In_fine_angles t t_opt :
  In t (fine_angles t_opt) ->
  (if Req_dec_T t_opt 0 then t_opt + grid else t_opt) - grid <= t
  < (if Req_dec_T t_opt 0 then t_opt + grid else t_opt) + grid.
Proof.
  rewrite fine_angles_window. intros H.
  apply in_map_iff in H as (k & <- & Hk). apply in_seq in Hk.
  assert (H0 := pos_INR k).
  assert (H1 : INR k <= INR 199) by (apply le_INR; lia).
  rewrite (INR_IZR_INZ 199) in H1. simpl in H1.
  unfold grid, small_grid. lra.
Qed.

Section Accepted.

Variable shannon : list R -> R.

(** X6.  Whenever [jacobi_direct] returns an angle, that angle lowers the
    cost by more than 1e-8: the cost at angle 0 of the RDMs that
    [jacobi_transform] returns for it is below the cost at angle 0 of the
    given RDMs by more than 1e-8. *)
Theorem jacobi_direct_improves i j gamma Gamma inactive_indices :
  i <> j -> (i < len Gamma)%nat -> (j < len Gamma)%nat ->
  match jacobi_direct shannon i j gamma Gamma inactive_indices with
  | None => True
  | Some t =>
      jacobi_cost shannon t i j gamma Gamma inactive_indices + 1e-8
      < jacobi_cost shannon 0 i j gamma Gamma inactive_indices /\
      exists gamma_ Gamma_,
        jacobi_transform gamma Gamma i j t = Ok (gamma_, Gamma_) /\
        jacobi_cost shannon 0 i j gamma_ Gamma_ inactive_indices + 1e-8
        < jacobi_cost shannon 0 i j gamma Gamma inactive_indices
  end.
Proof.
  intros Hij Hi Hj. unfold jacobi_direct.
  set (cost_at := fun t => jacobi_cost shannon t i j gamma Gamma inactive_indices).
  assert (Hbest : snd (coarse_scan cost_at) <= cost_at 0)
    by apply coarse_fold_le.
  destruct (coarse_scan cost_at) as [t_opt best]. cbn [snd] in Hbest.
  unfold fine_scan.
  destruct (fine_fold_last cost_at (fine_angles t_opt) 0%nat None best)
    as [[Hall Heq] | (pre & t & post & Hl & Hrun & Hpost & Heq)]; rewrite Heq; simpl.
  - exact I.
  - assert (Hpre := fine_fold_le cost_at pre 0%nat None best).
    assert (Hlt : cost_at t + 1e-8 < cost_at 0) by lra.
    split; [exact Hlt|].
    destruct (jacobi_cost_of_transform shannon t i j gamma Gamma inactive_indices
                Hij Hi Hj) as (g & G & Hrun' & Hcost).
    exists g, G. split; [exact Hrun'|]. rewrite Hcost. exact Hlt.
Qed.

Lemma jacobi_direct_angle i j gamma Gamma inactive_indices t :
  jacobi_direct shannon i j gamma Gamma inactive_indices = Some t ->
  0 <= t < PI + grid.
Proof.
  intros Hsome. revert Hsome.
  unfold jacobi_direct.
  set (cost_at := fun t => jacobi_cost shannon t i j gamma Gamma inactive_indices).
  assert (Hopt := coarse_scan_angle cost_at).
  destruct (coarse_scan cost_at) as [t_opt best]. cbn [fst] in Hopt.
  unfold fine_scan.
  destruct (fine_fold_last cost_at (fine_angles t_opt) 0%nat None best)
    as [[Hall Heq] | (pre & t0 & post & Hl & Hrun & Hpost & Heq)]; rewrite Heq; simpl.
  - discriminate.
  - intros Hsome. injection Hsome as <-.
    assert (Hin : In t0 (fine_angles t_opt))
      by (rewrite Hl; apply in_or_app; right; now left).
    apply In_fine_angles in Hin.
    assert (HPI := PI2_1). unfold grid in *.
    destruct (Req_dec_T t_opt 0) as [E | E]; destruct Hopt as [H0 | H1];
      try contradiction; lra.
Qed.

(** X7.  An angle that [jacobi_direct] returns lies in [[0, pi + 0.01)]:
    in [[0, 0.02)] when the coarse scan found no improving angle, within
    0.01 of the coarse optimum otherwise. *)
Theorem jacobi_direct_angle_range i j gamma Gamma inactive_indices :
  match jacobi_direct shannon i j gamma Gamma inactive_indices with
  | None => True
  | Some t => 0 <= t < PI + grid
  end.
Proof.
  destruct (jacobi_direct shannon i j gamma Gamma inactive_indices) as [t |] eqn:E;
    [| exact I].
  now apply (jacobi_direct_angle i j gamma Gamma inactive_indices).
Qed.

End Accepted.

(** ** Contractions against arbitrary matrices *)

Lemma sum_over_plus l f g :
  sum_over l (fun k => f k + g k) = sum_over l f + sum_over l g.
Proof.
  induction l as [|k l IH]; simpl; [|rewrite IH]; lra.
Qed.

Lemma sum_over_swap l1 l2 (f : nat -> nat -> R) :
  sum_over l1 (fun a => sum_over l2 (fun b => f a b))
  = sum_over l2 (fun b => sum_over l1 (fun a => f a b)).
Proof.
  induction l1 as [|a l1 IH]; cbn [sum_over].
  - symmetry. now apply sum_over_zero.
  - rewrite IH. now rewrite sum_over_plus.
Qed.

Lemma contract_ext n M f g i :
  (forall a, f a = g a) -> contract n M f i = contract n M g i.
Proof.
  intros H. unfold contract. apply sum_over_ext. intros a _. now rewrite H.
Qed.

Lemma contract_ext_in n M f g i :
  (forall a, (a < n)%nat -> f a = g a) -> contract n M f i = contract n M g i.
Proof.
  intros H. unfold contract. apply sum_over_ext. intros a Ha.
  apply in_seq in Ha. rewrite H by lia. reflexivity.
Qed.

Lemma contract_comm n M M' (h : nat -> nat -> R) i j :
  contract n M (fun a => contract n M' (fun b => h a b) j) i
  = contract n M' (fun b => contract n M (fun a => h a b) i) j.
Proof.
  unfold contract.
  transitivity (sum_over (seq 0 n) (fun a =>
                  sum_over (seq 0 n) (fun b => M i a * (M' j b * h a b)))).
  - apply sum_over_ext. intros a _. now rewrite sum_over_scal.
  - rewrite sum_over_swap. apply sum_over_ext. intros b _.
    rewrite <- sum_over_scal. apply sum_over_ext. intros a _. ring.
Qed.

Lemma contract_matmul n A B f i :
  contract n (matmul n A B) f i = contract n A (fun a => contract n B f a) i.
Proof.
  unfold contract, matmul.
  transitivity (sum_over (seq 0 n) (fun c =>
                  sum_over (seq 0 n) (fun a => A i a * (B a c * f c)))).
  - apply sum_over_ext. intros c _.
    rewrite Rmult_comm, <- sum_over_scal. apply sum_over_ext. intros a _. ring.
  - rewrite sum_over_swap. apply sum_over_ext. intros a _.
    now rewrite sum_over_scal.
Qed.

(** [make_U1] is [jacobi_step], and contracting against it is the
    rotation of one index. *)
Lemma jacobi_step_U1 t i j : jacobi_step t i j = make_U1 i j t.
Proof.
  reflexivity.
Qed.

Lemma contract_U1 no i j t f a :
  i <> j -> (i < no)%nat -> (j < no)%nat -> (a < no)%nat ->
  contract no (make_U1 i j t) f a = rot_row t i j f a.
Proof.
  intros. unfold contract. now apply contract_full.
Qed.

(** [einsum4] and the same-spin part of the spin-doubled [einsum2] as
    nested contractions. *)
Lemma einsum4_contract n M G i j k l :
  einsum4 n M G i j k l
  = contract n M (fun a => contract n M (fun b => contract n M (fun c =>
      contract n M (fun d => G a b c d) l) k) j) i.
Proof.
  unfold einsum4, contract.
  apply sum_over_ext. intros a _.
  rewrite <- sum_over_scal. apply sum_over_ext. intros b _.
  rewrite <- !sum_over_scal. apply sum_over_ext. intros c _.
  rewrite <- !sum_over_scal. apply sum_over_ext. intros d _. ring.
Qed.

Lemma einsum2_kron_contract no U gamma a b s s' :
  (s < 2)%nat -> (s' < 2)%nat ->
  einsum2 (2 * no) (kron2 U) gamma (2 * a + s)%nat (2 * b + s')%nat
  = contract no U (fun m => contract no U (fun n =>
      gamma (2 * m + s)%nat (2 * n + s')%nat) b) a.
Proof.
  intros Hs Hs'. unfold einsum2, contract.
  transitivity (sum_over (seq 0 (2 * no)) (fun x =>
    kron2 U (2 * a + s)%nat x *
    sum_over (seq 0 (2 * no)) (fun y => kron2 U (2 * b + s')%nat y * gamma x y))).
  - apply sum_over_ext. intros x _. rewrite <- sum_over_scal.
    apply sum_over_ext. intros y _. ring.
  - rewrite kron2_contract by assumption. apply sum_over_ext. intros m _.
    f_equal. now rewrite kron2_contract.
Qed.

(** Contractions against [A] after contractions against [B], on two and
    on four indices, are contractions against [A @ B]. *)
Section ContractCompose.

Variables (n : nat) (A B : matrix).

Lemma contract_compose2 (h : nat -> nat -> R) a b :
  contract n A (fun a1 => contract n A (fun b1 =>
    contract n B (fun a' => contract n B (fun b' => h a' b') b1) a1) b) a
  = contract n (matmul n A B) (fun a' =>
      contract n (matmul n A B) (fun b' => h a' b') b) a.
Proof.
  rewrite contract_matmul. apply contract_ext. intros a1.
  rewrite (contract_comm n A B). apply contract_ext. intros a'.
  now rewrite contract_matmul.
Qed.

Lemma contract_compose3 (h : nat -> nat -> nat -> R) a b c :
  contract n A (fun a1 => contract n A (fun b1 => contract n A (fun c1 =>
    contract n B (fun a' => contract n B (fun b' => contract n B (fun c' =>
      h a' b' c') c1) b1) a1) c) b) a
  = contract n (matmul n A B) (fun a' => contract n (matmul n A B) (fun b' =>
      contract n (matmul n A B) (fun c' => h a' b' c') c) b) a.
Proof.
  rewrite <- (contract_compose2 (fun a' b' =>
    contract n (matmul n A B) (fun c' => h a' b' c') c)).
  apply contract_ext. intros a1. apply contract_ext. intros b1.
  rewrite (contract_comm n A B). apply contract_ext. intros a'.
  rewrite (contract_comm n A B). apply contract_ext. intros b'.
  now rewrite contract_matmul.
Qed.

Lemma contract_compose4 (h : tensor4) a b c d :
  contract n A (fun a1 => contract n A (fun b1 => contract n A (fun c1 =>
  contract n A (fun d1 =>
    contract n B (fun a' => contract n B (fun b' => contract n B (fun c' =>
    contract n B (fun d' => h a' b' c' d') d1) c1) b1) a1) d) c) b) a
  = contract n (matmul n A B) (fun a' => contract n (matmul n A B) (fun b' =>
    contract n (matmul n A B) (fun c' => contract n (matmul n A B) (fun d' =>
      h a' b' c' d') d) c) b) a.
Proof.
  rewrite <- (contract_compose3 (fun a' b' c' =>
    contract n (matmul n A B) (fun d' => h a' b' c' d') d)).
  apply contract_ext. intros a1. apply contract_ext. intros b1.
  apply contract_ext. intros c1.
  rewrite (contract_comm n A B). apply contract_ext. intros a'.
  rewrite (contract_comm n A B). apply contract_ext. intros b'.
  rewrite (contract_comm n A B). apply contract_ext. intros c'.
  now rewrite contract_matmul.
Qed.

End ContractCompose.

(** Transforming with [B] and then with [A] is transforming with
    [A @ B]. *)
Lemma einsum4_matmul n A B G G' :
  t4_eq n G' (einsum4 n B G) ->
  t4_eq n (einsum4 n A G') (einsum4 n (matmul n A B) G).
Proof.
  intros H a b c d Ha Hb Hc Hd.
  rewrite (einsum4_ext n A G' (einsum4 n B G) H).
  rewrite !einsum4_contract.
  rewrite <- contract_compose4.
  do 4 (apply contract_ext; intro). now rewrite einsum4_contract.
Qed.

(** ** Orthogonal matrices *)

Lemma contract_eye_col n A c a :
  (a < n)%nat -> contract n A (fun a' => eye a a') c = A c a.
Proof.
  intros Ha. unfold contract. rewrite (sum_over_one _ a).
  - unfold eye. rewrite Nat.eqb_refl. lra.
  - apply seq_NoDup.
  - apply in_seq. lia.
  - intros m _ Hm. unfold eye.
    destruct (Nat.eqb_spec a m); [congruence | lra].
Qed.

Lemma orthogonal_matmul n A B :
  orthogonal n A -> orthogonal n B -> orthogonal n (matmul n A B).
Proof.
  intros HA HB r c Hr Hc.
  change (contract n (matmul n A B) (fun k => matmul n A B c k) r = eye r c).
  rewrite contract_matmul. rewrite <- (HA r c Hr Hc).
  change (matmul n A (transpose A) r c) with (contract n A (fun a => A c a) r).
  apply contract_ext_in. intros a Ha.
  change (fun k => matmul n A B c k)
    with (fun k => contract n A (fun a' => B a' k) c).
  rewrite (contract_comm n B A). rewrite <- (contract_eye_col n A c a Ha).
  apply contract_ext_in. intros a' Ha'. exact (HB a a' Ha Ha').
Qed.

Lemma orthogonal_jacobi_step n t i j :
  i <> j -> (i < n)%nat -> (j < n)%nat -> orthogonal n (jacobi_step t i j).
Proof.
  intros Hij Hi Hj r c Hr Hc. rewrite jacobi_step_U1.
  change (contract n (make_U1 i j t) (fun k => make_U1 i j t c k) r = eye r c).
  rewrite contract_U1 by assumption.
  unfold rot_row, eye. rewrite !make_U1_at by assumption.
  assert (H := sin2_cos2 t). unfold Rsqr in H.
  rewrite !Nat.eqb_refl.
  destruct (Nat.eqb_spec j i); [lia|]. destruct (Nat.eqb_spec i j); [lia|].
  destruct (Nat.eqb_spec r i); destruct (Nat.eqb_spec r j);
    destruct (Nat.eqb_spec c i); destruct (Nat.eqb_spec c j);
    destruct (Nat.eqb_spec r c); destruct (Nat.eqb_spec c r);
    try lia; lra.
Qed.

(** ** minimize_orb_corr_jacobi *)

(** A loop that can raise: an invariant [P], indexed by a counter that
    the iteration on [x] advances by [w x], is kept, and nothing is
    raised. *)
Lemma fold_result_inv {A B : Type} (P : nat -> A -> Prop) (w : B -> nat)
    (f : A -> B -> result A) (l : list B) :
  (forall k a x, In x l -> P k a -> exists a', f a x = Ok a' /\ P (k + w x)%nat a') ->
  forall k a, P k a ->
  exists a', fold_result f l a = Ok a' /\ P (k + list_sum (map w l))%nat a'.
Proof.
  induction l as [|x l IH]; intros Hf k a Ha; cbn [fold_result map].
  - exists a. split; [reflexivity|]. cbn. now rewrite Nat.add_0_r.
  - change (list_sum (w x :: map w l)) with (w x + list_sum (map w l))%nat.
    destruct (Hf k a x (or_introl eq_refl) Ha) as (a1 & -> & Ha1). cbn [bind].
    destruct (IH (fun k a x Hx => Hf k a x (or_intror Hx)) _ _ Ha1) as (a' & Hrun & Ha').
    exists a'. split; [exact Hrun|]. now rewrite Nat.add_assoc.
Qed.

Lemma list_sum_const1 (l : list nat) : list_sum (map (fun _ => 1%nat) l) = length l.
Proof.
  induction l as [|x l IH]; cbn [map length].
  - reflexivity.
  - change (list_sum (1%nat :: map (fun _ => 1%nat) l))
      with (1 + list_sum (map (fun _ => 1%nat) l))%nat. lia.
Qed.

Lemma list_sum_seq n : (2 * list_sum (seq 0 n) = n * (n - 1))%nat.
Proof.
  induction n as [|n IH].
  - reflexivity.
  - rewrite seq_S, list_sum_app. cbn. nia.
Qed.

Lemma existsb_eqb_In k (l : list nat) : existsb (Nat.eqb k) l = true -> In k l.
Proof.
  intros H. apply existsb_exists in H as (x & Hx & E).
  apply Nat.eqb_eq in E. now subst.
Qed.

Section OptimizerProperties.

Variable shannon : list R -> R.
Variable get_cost_fqi : matrix -> ndarray4 -> list nat -> R.
Variable expm : nat -> matrix -> matrix.

Variables (no : nat) (inactive_indices : list nat).

(** One pair keeps an invariant [P] as soon as an accepted rotation and
    a skipped pair do. *)
Lemma pair_step_inv (P : nat -> opt_state -> Prop) i j :
  (forall k st, P k st -> len (o_Gamma st) = no) ->
  (forall k st, P k st -> P (S k) st) ->
  (forall k st t,
     P k st ->
     existsb (Nat.eqb i) inactive_indices || existsb (Nat.eqb j) inactive_indices = true ->
     jacobi_direct shannon i j (o_gamma st) (o_Gamma st) inactive_indices = Some t ->
     P (S k) (mk_opt
       (transform_gamma no (make_U1 i j t) (o_gamma st) i j)
       (mk_ndarray4 no (einsum4 no (make_U1 i j t) (get4 (o_Gamma st))))
       (get_cost_fqi (transform_gamma no (make_U1 i j t) (o_gamma st) i j)
          (mk_ndarray4 no (einsum4 no (make_U1 i j t) (get4 (o_Gamma st))))
          inactive_indices)
       (get_cost_fqi (transform_gamma no (make_U1 i j t) (o_gamma st) i j)
          (mk_ndarray4 no (einsum4 no (make_U1 i j t) (get4 (o_Gamma st))))
          inactive_indices)
       (matmul no (jacobi_step t i j) (o_U st))
       (o_rotations st ++ [((i + 1)%nat, (j + 1)%nat, t / PI * 180)]))) ->
  (i < no)%nat -> (j < no)%nat ->
  forall k st, P k st ->
  exists st', pair_step shannon get_cost_fqi no inactive_indices st i j = Ok st'
              /\ P (k + 1)%nat st'.
Proof.
  intros Hlen Hmono Hacc Hi Hj k st HP. unfold pair_step.
  replace (k + 1)%nat with (S k) by lia.
  destruct (existsb (Nat.eqb i) inactive_indices
            || existsb (Nat.eqb j) inactive_indices) eqn:Hin.
  - destruct (jacobi_direct shannon i j (o_gamma st) (o_Gamma st) inactive_indices)
      as [t |] eqn:Hdir.
    + rewrite jacobi_transform_ok by (rewrite (Hlen k st HP); assumption).
      rewrite (Hlen k st HP). cbn [bind fst snd].
      eexists. split; [reflexivity|]. apply Hacc; [exact HP | reflexivity | exact Hdir].
    + exists st. split; [reflexivity | now apply Hmono].
  - exists st. split; [reflexivity | now apply Hmono].
Qed.

(** One cycle over a shuffled order advances the counter by at most
    [no (no - 1) / 2]. *)
Lemma sweep_inv (P : nat -> opt_state -> Prop) orb_list :
  is_perm no orb_list ->
  (forall i j, i <> j -> (i < no)%nat -> (j < no)%nat ->
     forall k st, P k st ->
     exists st', pair_step shannon get_cost_fqi no inactive_indices st i j = Ok st'
                 /\ P (k + 1)%nat st') ->
  forall k st, P k st ->
  exists st', sweep shannon get_cost_fqi no inactive_indices orb_list st = Ok st'
              /\ P (k + list_sum (seq 0 no))%nat st'.
Proof.
  intros Hperm Hpair k st HP. unfold sweep.
  assert (Hlt := is_perm_lt _ _ Hperm). rewrite Forall_forall in Hlt.
  assert (Hlen := is_perm_length _ _ Hperm).
  assert (Hnd := is_perm_NoDup _ _ Hperm).
  destruct (fold_result_inv P (fun a => a)
              (fun st a =>
                 fold_result
                   (fun st b =>
                      pair_step shannon get_cost_fqi no inactive_indices st
                        (nth a orb_list 0%nat) (nth b orb_list 0%nat))
                   (seq 0 a) st)
              (seq 0 no)) with (k := k) (a := st) as (st' & Hrun & HP').
  - intros k1 st1 a Ha HP1. apply in_seq in Ha.
    destruct (fold_result_inv P (fun _ => 1%nat)
                (fun st b =>
                   pair_step shannon get_cost_fqi no inactive_indices st
                     (nth a orb_list 0%nat) (nth b orb_list 0%nat))
                (seq 0 a)) with (k := k1) (a := st1) as (st2 & Hrun2 & HP2).
    + intros k2 st2 b Hb HP2. apply in_seq in Hb.
      apply Hpair; try assumption.
      * intros E. apply (proj1 (NoDup_nth orb_list 0%nat) Hnd) in E; lia.
      * apply Hlt, nth_In. lia.
      * apply Hlt, nth_In. lia.
    + exact HP1.
    + exists st2. split; [exact Hrun2|].
      now rewrite list_sum_const1, length_seq in HP2.
  - exact HP.
  - exists st'. split; [exact Hrun|]. now rewrite map_id in HP'.
Qed.

(** The cycles: at most [length orders] sweeps. *)
Lemma cycles_inv (P : nat -> opt_state -> Prop) :
  (forall k k' st, (k <= k')%nat -> P k st -> P k' st) ->
  (forall i j, i <> j -> (i < no)%nat -> (j < no)%nat ->
     forall k st, P k st ->
     exists st', pair_step shannon get_cost_fqi no inactive_indices st i j = Ok st'
                 /\ P (k + 1)%nat st') ->
  forall orders, Forall (is_perm no) orders ->
  forall k st cycle_cost, P k st ->
  exists st', cycles shannon get_cost_fqi no inactive_indices orders st cycle_cost = Ok st'
              /\ P (k + length orders * list_sum (seq 0 no))%nat st'.
Proof.
  intros Hmono Hpair orders Hperm.
  induction Hperm as [|orb_list orders Ho _ IH]; intros k st cycle_cost HP;
    cbn [cycles length].
  - exists st. split; [reflexivity|]. apply (Hmono k); [lia | exact HP].
  - destruct (sweep_inv P orb_list Ho Hpair k st HP) as (st1 & -> & HP1).
    cbn [bind].
    destruct (Rlt_dec (cycle_cost - o_new_cost st1) 1e-7).
    + exists st1. split; [reflexivity|].
      apply (Hmono (k + list_sum (seq 0 no))%nat); [lia | exact HP1].
    + destruct (IH _ st1 (o_new_cost st1) HP1) as (st' & Hrun & HP').
      exists st'. split; [exact Hrun|].
      apply (Hmono (k + list_sum (seq 0 no)
                    + length orders * list_sum (seq 0 no))%nat); [lia | exact HP'].
Qed.

End OptimizerProperties.

Section OptimizerResults.

Variable shannon : list R -> R.
Variable get_cost_fqi : matrix -> ndarray4 -> list nat -> R.
Variable expm : nat -> matrix -> matrix.

Lemma opt_inv_mono no inactive_indices gamma Gamma k k' st :
  (k <= k')%nat ->
  opt_inv no inactive_indices gamma Gamma k st ->
  opt_inv no inactive_indices gamma Gamma k' st.
Proof.
  intros Hk (H1 & H2 & H3 & H4 & H5).
  split; [exact H1 | split; [exact H2 | split; [exact H3 | split; [exact H4 | lia]]]].
Qed.

Lemma degrees_range t :
  0 <= t < PI + grid -> 0 <= t / PI * 180 < 180 + 1.8 / PI.
Proof.
  intros [H0 H1]. assert (HPI := PI_RGT_0).
  assert (Hi : 0 < / PI) by (now apply Rinv_0_lt_compat).
  assert (Hle : 0 <= t * / PI) by (apply Rmult_le_pos; lra).
  assert (Hlt : t * / PI < (PI + grid) * / PI)
    by (apply Rmult_lt_compat_r; assumption).
  assert (Heq : (PI + grid) * / PI = 1 + grid * / PI) by (field; lra).
  unfold Rdiv. unfold grid in *. lra.
Qed.

Lemma pair_step_opt_inv no inactive_indices gamma Gamma i j :
  i <> j -> (i < no)%nat -> (j < no)%nat ->
  forall k st, opt_inv no inactive_indices gamma Gamma k st ->
  exists st', pair_step shannon get_cost_fqi no inactive_indices st i j = Ok st'
              /\ opt_inv no inactive_indices gamma Gamma (k + 1)%nat st'.
Proof.
  intros Hij Hi Hj.
  apply (pair_step_inv shannon get_cost_fqi no inactive_indices
           (opt_inv no inactive_indices gamma Gamma)); try assumption.
  - intros k st H. apply H.
  - intros k st H. apply (opt_inv_mono _ _ _ _ k); [lia | exact H].
  - intros k st t (Hlen & HG & Hg & Hrec & Hcnt) Hin Hdir.
    unfold opt_inv. cbn [o_gamma o_Gamma o_U o_rotations len get4].
    split; [reflexivity|]. split; [| split; [| split]].
    + rewrite jacobi_step_U1. now apply einsum4_matmul.
    + intros a b s Ha Hb Hs. rewrite jacobi_step_U1.
      rewrite transform_gamma_rot by assumption. unfold rot_gamma.
      rewrite <- contract_compose2.
      rewrite <- (contract_U1 no) by assumption.
      apply contract_ext_in. intros m Hm.
      rewrite <- (contract_U1 no) by assumption.
      apply contract_ext_in. intros n Hn. now apply Hg.
    + apply Forall_app. split; [exact Hrec|]. constructor; [| constructor].
      unfold valid_record.
      split; [lia|]. split; [lia|]. split; [lia|]. split.
      * replace (i + 1 - 1)%nat with i by lia. replace (j + 1 - 1)%nat with j by lia.
        apply orb_true_iff in Hin as [H | H]; [left | right];
          now apply existsb_eqb_In.
      * apply degrees_range.
        apply (jacobi_direct_angle shannon i j (o_gamma st) (o_Gamma st)
                 inactive_indices). exact Hdir.
    + rewrite length_app. cbn [length]. lia.
Qed.

Lemma pair_step_orth_inv no inactive_indices i j :
  i <> j -> (i < no)%nat -> (j < no)%nat ->
  forall k st, orth_inv no k st ->
  exists st', pair_step shannon get_cost_fqi no inactive_indices st i j = Ok st'
              /\ orth_inv no (k + 1)%nat st'.
Proof.
  intros Hij Hi Hj.
  apply (pair_step_inv shannon get_cost_fqi no inactive_indices (orth_inv no));
    try assumption.
  - intros k st H. apply H.
  - intros k st H. exact H.
  - intros k st t (Hlen & Horth) _ _. split; [reflexivity|].
    cbn [o_U]. apply orthogonal_matmul; [| exact Horth].
    now apply orthogonal_jacobi_step.
Qed.

Lemma optimizer_init_inv rand u gamma Gamma inactive_indices :
  opt_inv (len Gamma) inactive_indices gamma Gamma 0
    (optimizer_init expm rand u gamma Gamma).
Proof.
  unfold opt_inv, optimizer_init. cbn [o_gamma o_Gamma o_U o_rotations len get4].
  split; [reflexivity|]. split; [| split; [| split]].
  - intros a b c d _ _ _ _. reflexivity.
  - intros a b s _ _ Hs. now apply einsum2_kron_contract.
  - constructor.
  - cbn. lia.
Qed.

Lemma shuffles_perm no shuffle max_cycle :
  (forall n, (n < max_cycle)%nat -> is_perm no (shuffle n)) ->
  Forall (is_perm no) (map shuffle (seq 0 max_cycle)).
Proof.
  intros H. apply Forall_forall. intros l Hl.
  apply in_map_iff in Hl as (n & <- & Hn). apply in_seq in Hn. apply H. lia.
Qed.

(** X8.  When every shuffled order is a permutation of the orbitals,
    [minimize_orb_corr_jacobi] returns, and the RDMs it returns are the
    given RDMs transformed by the [U] it returns: the 2-RDM in full, the
    1-RDM on its same-spin entries. *)
Theorem minimize_rdms_follow_U rand u shuffle gamma Gamma inactive_indices max_cycle :
  (forall n, (n < max_cycle)%nat -> is_perm (len Gamma) (shuffle n)) ->
  exists rotations U gamma0 Gamma0,
    minimize_orb_corr_jacobi shannon get_cost_fqi expm rand u shuffle
      gamma Gamma inactive_indices max_cycle
    = Ok (rotations, U, gamma0, Gamma0) /\
    len Gamma0 = len Gamma /\
    t4_eq (len Gamma) (get4 Gamma0) (einsum4 (len Gamma) U (get4 Gamma)) /\
    forall a b s, (a < len Gamma)%nat -> (b < len Gamma)%nat -> (s < 2)%nat ->
      gamma0 (2 * a + s)%nat (2 * b + s)%nat
      = einsum2 (2 * len Gamma) (kron2 U) gamma (2 * a + s)%nat (2 * b + s)%nat.
Proof.
  intros Hperm. unfold minimize_orb_corr_jacobi.
  destruct (cycles_inv shannon get_cost_fqi (len Gamma) inactive_indices
              (opt_inv (len Gamma) inactive_indices gamma Gamma))
    with (orders := map shuffle (seq 0 max_cycle)) (k := 0%nat)
         (st := optimizer_init expm rand u gamma Gamma) (cycle_cost := 100)
    as (st & -> & Hlen & HG & Hg & _ & _).
  - intros k k' st. apply opt_inv_mono.
  - intros i j. apply pair_step_opt_inv.
  - now apply shuffles_perm.
  - apply optimizer_init_inv.
  - cbn [bind]. do 4 eexists. split; [reflexivity|].
    split; [exact Hlen | split; [exact HG|]].
    intros a b s Ha Hb Hs. rewrite einsum2_kron_contract by assumption.
    now apply Hg.
Qed.

(** X9.  Under the same condition every rotation record
    [[i+1, j+1, angle]] names two distinct orbitals in [1 .. N], one of
    them inactive, with an angle in degrees in [[0, 180 + 1.8/pi)], and
    there are at most [max_cycle * N (N-1) / 2] records. *)
Theorem minimize_rotation_records rand u shuffle gamma Gamma inactive_indices max_cycle :
  (forall n, (n < max_cycle)%nat -> is_perm (len Gamma) (shuffle n)) ->
  exists rotations U gamma0 Gamma0,
    minimize_orb_corr_jacobi shannon get_cost_fqi expm rand u shuffle
      gamma Gamma inactive_indices max_cycle
    = Ok (rotations, U, gamma0, Gamma0) /\
    Forall (valid_record (len Gamma) inactive_indices) rotations /\
    (length rotations <= max_cycle * (len Gamma * (len Gamma - 1) / 2))%nat.
Proof.
  intros Hperm. unfold minimize_orb_corr_jacobi.
  destruct (cycles_inv shannon get_cost_fqi (len Gamma) inactive_indices
              (opt_inv (len Gamma) inactive_indices gamma Gamma))
    with (orders := map shuffle (seq 0 max_cycle)) (k := 0%nat)
         (st := optimizer_init expm rand u gamma Gamma) (cycle_cost := 100)
    as (st & -> & _ & _ & _ & Hrec & Hcnt).
  - intros k k' st. apply opt_inv_mono.
  - intros i j. apply pair_step_opt_inv.
  - now apply shuffles_perm.
  - apply optimizer_init_inv.
  - cbn [bind]. do 4 eexists. split; [reflexivity|].
    split; [exact Hrec|].
    rewrite length_map, length_seq in Hcnt. cbn [Nat.add] in Hcnt.
    replace (len Gamma * (len Gamma - 1) / 2)%nat with (list_sum (seq 0 (len Gamma))).
    + exact Hcnt.
    + apply Nat.div_unique_exact; [lia|].
      symmetry. apply list_sum_seq.
Qed.

(** X10.  Under the same condition, when the matrix exponential of the
    perturbation is orthogonal, so is the [U] returned. *)
Theorem minimize_U_orthogonal rand u shuffle gamma Gamma inactive_indices max_cycle :
  (forall n, (n < max_cycle)%nat -> is_perm (len Gamma) (shuffle n)) ->
  orthogonal (len Gamma) (expm (len Gamma) (perturbation rand u)) ->
  exists rotations U gamma0 Gamma0,
    minimize_orb_corr_jacobi shannon get_cost_fqi expm rand u shuffle
      gamma Gamma inactive_indices max_cycle
    = Ok (rotations, U, gamma0, Gamma0) /\
    orthogonal (len Gamma) U.
Proof.
  intros Hperm Horth. unfold minimize_orb_corr_jacobi.
  destruct (cycles_inv shannon get_cost_fqi (len Gamma) inactive_indices
              (orth_inv (len Gamma)))
    with (orders := map shuffle (seq 0 max_cycle)) (k := 0%nat)
         (st := optimizer_init expm rand u gamma Gamma) (cycle_cost := 100)
    as (st & -> & _ & HU).
  - intros k k' st _ H. exact H.
  - intros i j. apply pair_step_orth_inv.
  - now apply shuffles_perm.
  - split; [reflexivity | exact Horth].
  - cbn [bind]. do 4 eexists. split; [reflexivity | exact HU].
Qed.

Lemma fold_result_skip {A B : Type} (f : A -> B -> result A) (l : list B) (a : A) :
  (forall x, f a x = Ok a) -> fold_result f l a = Ok a.
Proof.
  intros H. induction l as [|x l IH]; cbn [fold_result].
  - reflexivity.
  - now rewrite H.
Qed.

(** X11.  With no inactive orbital nothing is rotated, whatever the
    shuffled orders and the number of cycles: the result is the
    perturbed RDMs, the perturbation [U] and no record. *)
Theorem minimize_no_inactive rand u shuffle gamma Gamma max_cycle :
  minimize_orb_corr_jacobi shannon get_cost_fqi expm rand u shuffle
    gamma Gamma [] max_cycle
  = Ok ([],
        expm (len Gamma) (perturbation rand u),
        einsum2 (2 * len Gamma) (kron2 (expm (len Gamma) (perturbation rand u))) gamma,
        mk_ndarray4 (len Gamma)
          (einsum4 (len Gamma) (expm (len Gamma) (perturbation rand u)) (get4 Gamma))).
Proof.
  unfold minimize_orb_corr_jacobi.
  assert (Hsweep : forall orb_list st,
            sweep shannon get_cost_fqi (len Gamma) [] orb_list st = Ok st).
  { intros orb_list st. unfold sweep. apply fold_result_skip. intros a.
    apply fold_result_skip. intros b. reflexivity. }
  assert (Hcycles : forall orders st cycle_cost,
            cycles shannon get_cost_fqi (len Gamma) [] orders st cycle_cost = Ok st).
  { induction orders as [|o orders IH]; intros st cycle_cost; cbn [cycles].
    - reflexivity.
    - rewrite Hsweep. cbn [bind].
      destruct (Rlt_dec (cycle_cost - o_new_cost st) 1e-7); [reflexivity | apply IH]. }
  rewrite Hcycles. reflexivity.
Qed.

End OptimizerResults.

(** ** The further properties on concrete inputs *)

Lemma jacobi_cost_no_inactive_witness :
  jacobi_cost shannon_spec 1 0 1 gamma_half (Gamma_quarter 2) [2; 3]%nat = 0.
Proof.
  apply (jacobi_cost_no_inactive shannon_spec 1 0 1 gamma_half (Gamma_quarter 2)
           [2; 3]%nat); simpl; lia.
Defined.

Lemma jacobi_cost_of_transform_witness :
  exists gamma_ Gamma_,
    jacobi_transform gamma_half (Gamma_quarter 2) 0 1 1 = Ok (gamma_, Gamma_) /\
    jacobi_cost shannon_spec 0 0 1 gamma_ Gamma_ [0; 1]%nat
    = jacobi_cost shannon_spec 1 0 1 gamma_half (Gamma_quarter 2) [0; 1]%nat.
Proof.
  apply (jacobi_cost_of_transform shannon_spec 1 0 1 gamma_half (Gamma_quarter 2)
           [0; 1]%nat); simpl; lia.
Defined.

Lemma jacobi_direct_improves_witness :
  match jacobi_direct shannon_spec 0 1 gamma_half (Gamma_quarter 2) [0; 1]%nat with
  | None => True
  | Some t =>
      jacobi_cost shannon_spec t 0 1 gamma_half (Gamma_quarter 2) [0; 1]%nat + 1e-8
      < jacobi_cost shannon_spec 0 0 1 gamma_half (Gamma_quarter 2) [0; 1]%nat /\
      exists gamma_ Gamma_,
        jacobi_transform gamma_half (Gamma_quarter 2) 0 1 t = Ok (gamma_, Gamma_) /\
        jacobi_cost shannon_spec 0 0 1 gamma_ Gamma_ [0; 1]%nat + 1e-8
        < jacobi_cost shannon_spec 0 0 1 gamma_half (Gamma_quarter 2) [0; 1]%nat
  end.
Proof.
  apply (jacobi_direct_improves shannon_spec 0 1 gamma_half (Gamma_quarter 2)
           [0; 1]%nat); simpl; lia.
Defined.

Lemma shuffle_swap_perm n : is_perm 2 (shuffle_swap n).
Proof.
  unfold is_perm, shuffle_swap. cbn. apply perm_swap.
Qed.

Lemma expm_first_order_orthogonal :
  orthogonal 2 (expm_first_order 2 (perturbation rand_half 0)).
Proof.
  intros r c Hr Hc.
  unfold matmul, transpose, expm_first_order, perturbation, perturbation_raw,
    rand_half, eye.
  destruct r as [|[|r]]; [| | lia]; destruct c as [|[|c]]; try lia; cbn; lra.
Qed.

Lemma minimize_rdms_follow_U_witness :
  exists rotations U gamma0 Gamma0,
    minimize_orb_corr_jacobi shannon_spec get_cost_fqi_spec expm_first_order
      rand_half 0 shuffle_swap gamma_half (Gamma_quarter 2) [0]%nat 3
    = Ok (rotations, U, gamma0, Gamma0) /\
    len Gamma0 = 2%nat /\
    t4_eq 2 (get4 Gamma0) (einsum4 2 U (get4 (Gamma_quarter 2))) /\
    forall a b s, (a < 2)%nat -> (b < 2)%nat -> (s < 2)%nat ->
      gamma0 (2 * a + s)%nat (2 * b + s)%nat
      = einsum2 (2 * 2) (kron2 U) gamma_half (2 * a + s)%nat (2 * b + s)%nat.
Proof.
  apply (minimize_rdms_follow_U shannon_spec get_cost_fqi_spec expm_first_order
           rand_half 0 shuffle_swap gamma_half (Gamma_quarter 2) [0]%nat 3).
  intros n _. apply shuffle_swap_perm.
Defined.

Lemma minimize_rotation_records_witness :
  exists rotations U gamma0 Gamma0,
    minimize_orb_corr_jacobi shannon_spec get_cost_fqi_spec expm_first_order
      rand_half 0 shuffle_swap gamma_half (Gamma_quarter 2) [0]%nat 3
    = Ok (rotations, U, gamma0, Gamma0) /\
    Forall (valid_record 2 [0]%nat) rotations /\
    (length rotations <= 3 * (2 * (2 - 1) / 2))%nat.
Proof.
  apply (minimize_rotation_records shannon_spec get_cost_fqi_spec expm_first_order
           rand_half 0 shuffle_swap gamma_half (Gamma_quarter 2) [0]%nat 3).
  intros n _. apply shuffle_swap_perm.
Defined.

Lemma minimize_U_orthogonal_witness :
  exists rotations U gamma0 Gamma0,
    minimize_orb_corr_jacobi shannon_spec get_cost_fqi_spec expm_first_order
      rand_half 0 shuffle_swap gamma_half (Gamma_quarter 2) [0]%nat 3
    = Ok (rotations, U, gamma0, Gamma0) /\
    orthogonal 2 U.
Proof.
  apply (minimize_U_orthogonal shannon_spec get_cost_fqi_spec expm_first_order
           rand_half 0 shuffle_swap gamma_half (Gamma_quarter 2) [0]%nat 3).
  - intros n _. apply shuffle_swap_perm.
  - apply expm_first_order_orthogonal.
Defined.

(** ** Sorting with argsort *)







Lemma gather_perm (x : list R) inds :
  is_perm (length x) inds -> Permutation (gather 0 x inds) x.
Proof.
  intros H. rewrite <- (gather_all 0 x) at 2.
  unfold gather. apply Permutation_map. exact H.
Qed.



(** ** reorder_occ *)



Lemma reorder_track_entropies n s_init o_init perm P s o :
  reorder_track n s_init o_init perm (P, s, o) ->
  reorder_inv n s_init perm (P, s, o).
Proof.
  intros (Hperm & HP & Hs & Ho). unfold reorder_inv.
  repeat split; try assumption.
  rewrite Ho. unfold gather. rewrite length_map. now apply is_perm_length.
Qed.

Lemma reorder_track_occupations n s_init o_init perm P s o :
  reorder_track n s_init o_init perm (P, s, o) ->
  reorder_inv n o_init perm (P, o, s).
Proof.
  intros (Hperm & HP & Hs & Ho). unfold reorder_inv.
  repeat split; try assumption.
  rewrite Hs. unfold gather. rewrite length_map. now apply is_perm_length.
Qed.

Lemma reorder_track_init n s_init o_init :
  length s_init = n -> length o_init = n ->
  reorder_track n s_init o_init (seq 0 n) (eye, s_init, o_init).
Proof.
  intros Hs Ho. unfold reorder_track, is_perm.
  split; [reflexivity | split; [| split]].
  - intros r c Hr. now rewrite seq_nth.
  - symmetry. rewrite <- Hs. apply gather_all.
  - symmetry. rewrite <- Ho. apply gather_all.
Qed.




(** ** reorder_fast: the order within and between the blocks *)

Lemma gather_app {A : Type} (d : A) x l1 l2 :
  gather d x (l1 ++ l2) = gather d x l1 ++ gather d x l2.
Proof.
  unfold gather. apply map_app.
Qed.

Lemma gather_seq {A : Type} (d : A) (x : list A) a n :
  (a + n <= length x)%nat -> gather d x (seq a n) = firstn n (skipn a x).
Proof.
  intros H. apply (nth_ext _ _ d d).
  - unfold gather. rewrite length_map, length_seq, length_firstn, length_skipn. lia.
  - unfold gather at 1. rewrite length_map, length_seq. intros r Hr.
    rewrite nth_gather by (now rewrite length_seq).
    rewrite seq_nth by assumption.
    rewrite nth_firstn, nth_skipn.
    now replace (r <? n)%nat with true by (symmetry; apply Nat.ltb_lt; lia).
Qed.


Lemma gather_head {A : Type} (d : A) (x y : list A) l :
  Forall (fun k => (k < length x)%nat) l -> gather d (x ++ y) l = gather d x l.
Proof.
  intros H. unfold gather. apply map_ext_in. intros k Hk.
  rewrite Forall_forall in H. now rewrite app_nth1 by (now apply H).
Qed.

Lemma skipn_app_exact {A : Type} (x y : list A) k :
  skipn (length x + k) (x ++ y) = skipn k y.
Proof.
  rewrite skipn_app, skipn_all2 by lia.
  now replace (length x + k - length x)%nat with k by lia.
Qed.








Lemma sorted_app_ge (x y : list R) :
  StronglySorted Rge (x ++ y) ->
  forall a b, In a x -> In b y -> a >= b.
Proof.
  induction x as [|h x IH]; cbn [app]; intros Hs a b Ha Hb.
  - destruct Ha.
  - inversion Hs as [|? ? Hs' Hall]; subst. destruct Ha as [<- | Ha].
    + rewrite Forall_forall in Hall. apply Hall, in_or_app. now right.
    + now apply IH.
Qed.







(** ** reorder: what the swaps do to the arrays and to [V] *)

Lemma gather_adj_swap {A : Type} (d : A) pre x y post n p :
  length pre = p -> length (pre ++ x :: y :: post) = n ->
  gather d (pre ++ x :: y :: post) (adj_swap n p) = pre ++ y :: x :: post.
Proof.
  intros Hp Hn. rewrite length_app in Hn. cbn [length] in Hn.
  unfold adj_swap. rewrite !gather_app.
  change (y :: x :: post) with ([y; x] ++ post). f_equal; [| f_equal].
  - rewrite gather_head by (apply Forall_forall; intros k Hk; apply in_seq in Hk; lia).
    rewrite <- Hp. apply gather_all.
  - unfold gather. cbn [map]. rewrite <- Hp.
    rewrite (app_nth2 pre) by lia. rewrite nth_middle.
    replace (S (length pre) - length pre)%nat with 1%nat by lia. reflexivity.
  - rewrite gather_seq by (rewrite length_app; cbn [length]; lia).
    rewrite <- Hp, skipn_app_exact. cbn [skipn].
    apply firstn_all2. lia.
Qed.

Lemma adj_swap_perm n p : (p + 1 < n)%nat -> is_perm n (adj_swap n p).
Proof.
  intros Hp. unfold is_perm, adj_swap.
  replace n with (p + (2 + (n - (p + 2))))%nat at 2 by lia.
  rewrite seq_app. apply Permutation_app_head.
  rewrite seq_app. cbn [seq app Nat.add].
  replace (p + 2)%nat with (S (S p)) by lia. apply perm_swap.
Qed.

Lemma nth_adj_swap n p r :
  (p + 1 < n)%nat -> (r < n)%nat ->
  nth r (adj_swap n p) 0%nat
  = if (r =? p)%nat then S p else if (r =? S p)%nat then p else r.
Proof.
  intros Hp Hr. unfold adj_swap.
  destruct (Nat.eqb_spec r p) as [-> | Hne].
  - rewrite app_nth2 by (rewrite length_seq; lia).
    rewrite length_seq, Nat.sub_diag. reflexivity.
  - destruct (Nat.eqb_spec r (S p)) as [-> | Hne'].
    + rewrite app_nth2 by (rewrite length_seq; lia).
      rewrite length_seq. now replace (S p - p)%nat with 1%nat by lia.
    + destruct (Nat.lt_ge_cases r p) as [Hlt | Hge].
      * rewrite app_nth1 by (rewrite length_seq; lia). now rewrite seq_nth.
      * rewrite app_nth2 by (rewrite length_seq; lia). rewrite length_seq.
        rewrite app_nth2 by (cbn [length]; lia). cbn [length].
        rewrite seq_nth by lia. lia.
Qed.

Lemma exchange_gather (l : list R) p :
  (p + 1 < length l)%nat ->
  exchange p (p + 1) l = gather 0 l (adj_swap (length l) p).
Proof.
  intros Hp.
  destruct (adjacent_split l p Hp) as (pre & x & y & post & Heq & Hpre & _ & _).
  rewrite Heq at 1 2. rewrite <- Hpre at 1 2. rewrite exchange_adjacent.
  symmetry. rewrite Heq at 1. apply gather_adj_swap; [exact Hpre | now rewrite <- Heq].
Qed.

Lemma swap_record_V n st p r1 r2 r c :
  (p + 1 < n)%nat -> (r < n)%nat ->
  V (swap_record n st p (p + 1) r1 r2) r c
  = V st (nth r (adj_swap n p) 0%nat) c.
Proof.
  intros Hp Hr. cbn [swap_record V]. unfold matmul.
  assert (Hk : (nth r (adj_swap n p) 0 < n)%nat).
  { rewrite nth_adj_swap by assumption.
    destruct (r =? p)%nat; [lia|]. destruct (r =? S p)%nat; lia. }
  rewrite (sum_over_one _ (nth r (adj_swap n p) 0%nat)).
  - rewrite nth_adj_swap by assumption. unfold setitem, eye.
    repeat match goal with
           | |- context [Nat.eqb ?a ?b] => destruct (Nat.eqb_spec a b)
           end; cbn [andb]; try lia; lra.
  - apply seq_NoDup.
  - apply in_seq. lia.
  - intros m _ Hm. rewrite nth_adj_swap in Hm by assumption.
    unfold setitem, eye.
    repeat match goal with
           | |- context [Nat.eqb ?a ?b] => destruct (Nat.eqb_spec a b)
           | H : context [Nat.eqb ?a ?b] |- _ => destruct (Nat.eqb_spec a b)
           end; cbn [andb]; try lia; lra.
Qed.

Lemma reorder_track_step n s_init o_init perm P s o tau P' :
  reorder_track n s_init o_init perm (P, s, o) -> is_perm n tau ->
  (forall r c, (r < n)%nat -> P' r c = P (nth r tau 0%nat) c) ->
  reorder_track n s_init o_init (gather 0%nat perm tau)
    (P', gather 0 s tau, gather 0 o tau).
Proof.
  intros (Hperm & HP & -> & ->) Htau HP'.
  assert (Hlt := is_perm_lt _ _ Htau).
  assert (Hlen := is_perm_length _ _ Htau).
  assert (Hplen := is_perm_length _ _ Hperm).
  unfold reorder_track. split; [now apply is_perm_gather|]. split; [| split].
  - intros r c Hr.
    assert (Hin : (nth r tau 0 < n)%nat).
    { rewrite Forall_forall in Hlt. apply Hlt, nth_In. lia. }
    rewrite HP', HP by assumption. now rewrite nth_gather by lia.
  - apply gather_gather. now rewrite Hplen.
  - apply gather_gather. now rewrite Hplen.
Qed.

Lemma rstate_track_length n s_init o_init perm st :
  rstate_track n s_init o_init perm st ->
  length (S1 st) = n /\ length (N1 st) = n.
Proof.
  intros (Hperm & _ & -> & ->). unfold gather. rewrite !length_map.
  split; now apply is_perm_length.
Qed.

(** One swap of [reorder] at the positions [p] and [q = p + 1]. *)
Lemma swap_record_track n s_init o_init perm st p q r1 r2 :
  rstate_track n s_init o_init perm st -> q = (p + 1)%nat -> (q < n)%nat ->
  rstate_track n s_init o_init (gather 0%nat perm (adj_swap n p))
    (swap_record n st p q r1 r2).
Proof.
  intros Htr -> Hp. destruct (rstate_track_length _ _ _ _ _ Htr) as (HS & HN).
  unfold rstate_track.
  replace (S1 (swap_record n st p (p + 1) r1 r2))
    with (gather 0 (S1 st) (adj_swap n p))
    by (cbn [swap_record S1]; rewrite exchange_gather by lia; now rewrite HS).
  replace (N1 (swap_record n st p (p + 1) r1 r2))
    with (gather 0 (N1 st) (adj_swap n p))
    by (cbn [swap_record N1]; rewrite exchange_gather by lia; now rewrite HN).
  apply (reorder_track_step n s_init o_init perm (V st)).
  - exact Htr.
  - now apply adj_swap_perm.
  - intros r c Hr. now apply swap_record_V.
Qed.

(** ** reorder: the first phase sorts, and [V] follows *)

Lemma bubble_fold_track n s_init o_init (l : list nat) :
  (forall i, In i l -> (i + 1 < n)%nat) ->
  forall cur,
    (exists perm, rstate_track n s_init o_init perm (fst cur)) ->
    exists perm,
      rstate_track n s_init o_init perm (fst (fold_left (bubble_step n) l cur)).
Proof.
  induction l as [|i l IH]; intros Hl cur Hcur; cbn [fold_left].
  - exact Hcur.
  - apply IH; [intros k Hk; apply Hl; now right|].
    destruct cur as [st test]. destruct Hcur as (perm & Htr). cbn [fst] in Htr.
    unfold bubble_step.
    destruct (Rlt_dec (nth i (S1 st) 0) (nth (i + 1) (S1 st) 0)); cbn [fst].
    + eexists. apply swap_record_track; [exact Htr | reflexivity | apply Hl; now left].
    + now exists perm.
Qed.

Lemma bubble_fold_raised no (l : list nat) st :
  snd (fold_left (bubble_step no) l (st, 1%nat)) = 1%nat.
Proof.
  revert st. induction l as [|i l IH]; intros st; cbn [fold_left].
  - reflexivity.
  - unfold bubble_step at 2.
    destruct (Rlt_dec (nth i (S1 st) 0) (nth (i + 1) (S1 st) 0)); apply IH.
Qed.

(** A pass that leaves [test] at 0 has found no pair out of order and
    has changed nothing. *)
Lemma bubble_fold_quiet no (l : list nat) st st' :
  fold_left (bubble_step no) l (st, 0%nat) = (st', 0%nat) ->
  st' = st /\
  forall i, In i l -> ~ nth i (S1 st) 0 < nth (i + 1) (S1 st) 0.
Proof.
  revert st. induction l as [|i l IH]; intros st; cbn [fold_left].
  - intros E. injection E as <-. split; [reflexivity | intros i []].
  - unfold bubble_step at 2.
    destruct (Rlt_dec (nth i (S1 st) 0) (nth (i + 1) (S1 st) 0)) as [Hlt | Hge].
    + intros E. assert (H1 := bubble_fold_raised no l
                                 (swap_record no st i (i + 1) (i + 1) (i + 2))).
      rewrite E in H1. discriminate.
    + intros E. destruct (IH st E) as (-> & Hall). split; [reflexivity|].
      intros k [<- | Hk]; [exact Hge | now apply Hall].
Qed.

Lemma bubble_loop_stop fuel no st test :
  test <> 1%nat -> bubble_loop fuel no st test = Some st.
Proof.
  intros Hne. destruct fuel; cbn [bubble_loop];
    now destruct (Nat.eqb_spec test 1).
Qed.

Lemma bubble_loop_sorted n s_init o_init : forall fuel st st',
  bubble_loop fuel n st 1%nat = Some st' ->
  (exists perm, rstate_track n s_init o_init perm st) ->
  (exists perm, rstate_track n s_init o_init perm st') /\
  forall i, (i + 1 < n)%nat -> ~ nth i (S1 st') 0 < nth (i + 1) (S1 st') 0.
Proof.
  induction fuel as [|fuel IH]; intros st st' Hrun Htr; [discriminate|].
  cbn [bubble_loop Nat.eqb] in Hrun.
  assert (HS : length (S1 st) = n).
  { destruct Htr as (perm & Htr). apply (rstate_track_length _ _ _ _ _ Htr). }
  assert (Hpass := bubble_pass_inv n st).
  assert (Htr1 : exists perm,
             rstate_track n s_init o_init perm (fst (bubble_pass n st))).
  { unfold bubble_pass. apply bubble_fold_track.
    - intros i Hi. apply in_seq in Hi. lia.
    - exact Htr. }
  destruct (bubble_pass n st) as [st1 test1] eqn:Epass. cbn [fst] in Htr1.
  destruct Hpass as (_ & _ & _ & [[-> _] | [-> _]]).
  - rewrite bubble_loop_stop in Hrun by discriminate. injection Hrun as <-.
    unfold bubble_pass in Epass.
    destruct (bubble_fold_quiet _ _ _ _ Epass) as (-> & Hall).
    split; [exact Htr|]. intros i Hi. apply Hall, in_seq. lia.
  - now apply (IH st1).
Qed.

Lemma adjacent_sorted (l : list R) :
  (forall i, (i + 1 < length l)%nat -> ~ nth i l 0 < nth (i + 1) l 0) ->
  StronglySorted Rge l.
Proof.
  intros H. apply Sorted_StronglySorted.
  - intros a b c. apply Rge_trans.
  - induction l as [|a l IH]; constructor.
    + apply IH. intros i Hi. apply (H (S i)). cbn [length]. lia.
    + destruct l as [|b l]; constructor.
      apply Rnot_lt_ge. apply (H 0%nat). cbn [length]. lia.
Qed.

Lemma sorted_inversions (l : list R) :
  StronglySorted Rge l -> inversions l = 0%nat.
Proof.
  induction 1 as [|a l _ IH Hall]; cbn [inversions]; [reflexivity|].
  rewrite IH, Nat.add_0_r. clear IH. unfold count_gt.
  induction Hall as [|b l Hb _ IHl]; cbn [filter length]; [reflexivity|].
  destruct (Rlt_dec a b); [lra | exact IHl].
Qed.

Lemma reorder_init_length shannon gamma Gamma :
  length (S1 (reorder_init shannon gamma Gamma)) = len Gamma /\
  length (N1 (reorder_init shannon gamma Gamma)) = len Gamma.
Proof.
  unfold reorder_init. cbn [S1 N1]. now rewrite !length_map, !length_seq.
Qed.

Lemma reorder_init_track shannon gamma Gamma :
  rstate_track (len Gamma)
    (S1 (reorder_init shannon gamma Gamma))
    (N1 (reorder_init shannon gamma Gamma))
    (seq 0 (len Gamma)) (reorder_init shannon gamma Gamma).
Proof.
  destruct (reorder_init_length shannon gamma Gamma) as (HS & HN).
  unfold rstate_track.
  replace (V (reorder_init shannon gamma Gamma)) with eye by reflexivity.
  now apply reorder_track_init.
Qed.

(** The first phase of [reorder], with everything the later properties
    need of its final state. *)
Lemma bubble_phase_result shannon gamma Gamma fuel :
  (len Gamma * (len Gamma - 1) / 2 < fuel)%nat ->
  exists st perm,
    bubble_phase shannon fuel gamma Gamma = Some st /\
    rstate_track (len Gamma)
      (S1 (reorder_init shannon gamma Gamma))
      (N1 (reorder_init shannon gamma Gamma)) perm st /\
    StronglySorted Rge (S1 st) /\
    length (rotations st) = inversions (S1 (reorder_init shannon gamma Gamma)) /\
    Forall (fun r : rotation => snd r = 0 /\ snd (fst r) = S (fst (fst r)))
      (rotations st).
Proof.
  intros Hfuel. unfold bubble_phase.
  set (st0 := reorder_init shannon gamma Gamma).
  destruct (reorder_init_length shannon gamma Gamma) as (HS & HN). fold st0 in HS, HN.
  assert (Hb := inversions_bound (S1 st0)). rewrite HS in Hb.
  assert (Hdiv : (inversions (S1 st0) <= len Gamma * (len Gamma - 1) / 2)%nat).
  { apply Nat.div_le_lower_bound; lia. }
  destruct (bubble_loop_terminates (length (S1 st0)) fuel st0)
    as (st & Hrun & _ & Hsum & Hrec); [lia|].
  rewrite HS in Hrun |- *.
  destruct (bubble_loop_sorted (len Gamma) (S1 st0) (N1 st0) fuel st0 st Hrun)
    as ((perm & Htr) & Hadj).
  { eexists. apply reorder_init_track. }
  assert (Hsorted : StronglySorted Rge (S1 st)).
  { apply adjacent_sorted. intros i Hi. apply Hadj.
    now rewrite (proj1 (rstate_track_length _ _ _ _ _ Htr)) in Hi. }
  exists st, perm. split; [exact Hrun|]. split; [exact Htr|].
  split; [exact Hsorted|]. split.
  - rewrite (sorted_inversions _ Hsorted) in Hsum.
    unfold st0 at 1 in Hsum. cbn [reorder_init rotations length] in Hsum. lia.
  - apply Hrec. unfold st0. cbn [reorder_init rotations]. constructor.
Qed.

Lemma rstate_track_matvec n s_init o_init perm st :
  length s_init = n -> length o_init = n ->
  rstate_track n s_init o_init perm st ->
  matvec n (V st) s_init = S1 st /\
  matvec n (V st) o_init = N1 st /\
  orthogonal n (V st).
Proof.
  intros Hs Ho Htr. unfold rstate_track in Htr. split; [| split].
  - exact (reorder_inv_selfcheck n s_init _ _ _ _ Hs
             (reorder_track_entropies _ _ _ _ _ _ _ Htr)).
  - exact (reorder_inv_selfcheck n o_init _ _ _ _ Ho
             (reorder_track_occupations _ _ _ _ _ _ _ Htr)).
  - exact (reorder_inv_orthogonal n s_init _ _ _ _
             (reorder_track_entropies _ _ _ _ _ _ _ Htr)).
Qed.

Section LegacySorted.

Variable shannon : list R -> R.

(** X15.  The first phase of [reorder] ends with [S1] in non-increasing
    order, a permutation of the initial entropies; [V] is then a
    permutation matrix that takes the initial [S1] and [N1] to the
    current ones; and the phase has recorded exactly as many swaps as
    the initial [S1] has pairs out of order. *)
Theorem reorder_bubble_phase_sorted gamma Gamma fuel :
  (len Gamma * (len Gamma - 1) / 2 < fuel)%nat ->
  exists st,
    bubble_phase shannon fuel gamma Gamma = Some st /\
    StronglySorted Rge (S1 st) /\
    Permutation (S1 st) (S1 (reorder_init shannon gamma Gamma)) /\
    matvec (len Gamma) (V st) (S1 (reorder_init shannon gamma Gamma)) = S1 st /\
    matvec (len Gamma) (V st) (N1 (reorder_init shannon gamma Gamma)) = N1 st /\
    orthogonal (len Gamma) (V st) /\
    length (rotations st) = inversions (S1 (reorder_init shannon gamma Gamma)).
Proof.
  intros Hfuel.
  destruct (bubble_phase_result shannon gamma Gamma fuel Hfuel)
    as (st & perm & Hrun & Htr & Hsorted & Hcount & _).
  destruct (reorder_init_length shannon gamma Gamma) as (HS & HN).
  destruct (rstate_track_matvec _ _ _ _ _ HS HN Htr) as (HmS & HmN & Horth).
  exists st. split; [exact Hrun|]. split; [exact Hsorted|].
  split; [| split; [exact HmS | split; [exact HmN | split; [exact Horth | exact Hcount]]]].
  destruct Htr as (Hperm & _ & -> & _).
  apply gather_perm. now rewrite HS.
Qed.

End LegacySorted.

Lemma reorder_bubble_phase_sorted_witness :
  exists st,
    bubble_phase shannon_spec 2 gamma_half Gamma_zero2 = Some st /\
    StronglySorted Rge (S1 st) /\
    Permutation (S1 st) (S1 (reorder_init shannon_spec gamma_half Gamma_zero2)) /\
    matvec 2 (V st) (S1 (reorder_init shannon_spec gamma_half Gamma_zero2)) = S1 st /\
    matvec 2 (V st) (N1 (reorder_init shannon_spec gamma_half Gamma_zero2)) = N1 st /\
    orthogonal 2 (V st) /\
    length (rotations st)
    = inversions (S1 (reorder_init shannon_spec gamma_half Gamma_zero2)).
Proof.
  apply (reorder_bubble_phase_sorted shannon_spec gamma_half Gamma_zero2 2).
  cbn. lia.
Defined.

(** ** reorder: the second phase *)

Lemma front_step_0 n j : (j < n)%nat -> front_step n j 0 = seq 0 n.
Proof.
  intros Hj. unfold front_step. rewrite Nat.sub_0_r. cbn [seq app].
  replace n with (j + S (n - S j))%nat at 2 by lia.
  now rewrite seq_app.
Qed.

Lemma front_step_S n j k :
  (k < j)%nat -> (j < n)%nat ->
  gather 0%nat (front_step n j k) (adj_swap n (j - 1 - k)) = front_step n j (S k).
Proof.
  intros Hk Hj. unfold front_step.
  replace (j - k)%nat with (S (j - 1 - k)) by lia.
  replace (j - S k)%nat with (j - 1 - k)%nat by lia.
  set (p := (j - 1 - k)%nat).
  rewrite seq_S, <- app_assoc. cbn [Nat.add app].
  rewrite (gather_adj_swap 0%nat (seq 0 p) p j _ n p).
  - reflexivity.
  - apply length_seq.
  - rewrite length_app. cbn [length]. rewrite length_app, !length_seq. lia.
Qed.

Lemma front_step_perm n j k :
  (k <= j)%nat -> (j < n)%nat -> is_perm n (front_step n j k).
Proof.
  intros Hk Hj. induction k as [|k IH].
  - rewrite front_step_0 by lia. unfold is_perm. reflexivity.
  - rewrite <- front_step_S by lia.
    apply is_perm_gather; [apply IH; lia | apply adj_swap_perm; lia].
Qed.

Lemma gather_to_front {A : Type} (d : A) x y z n :
  length (x ++ y :: z) = n ->
  gather d (x ++ y :: z) (to_front n (length x)) = y :: x ++ z.
Proof.
  intros Hn. rewrite length_app in Hn. cbn [length] in Hn.
  unfold to_front, front_step. rewrite Nat.sub_diag. cbn [seq app].
  unfold gather. cbn [map]. rewrite nth_middle. f_equal.
  rewrite map_app. f_equal.
  - fold (gather d (x ++ y :: z) (seq 0 (length x))).
    rewrite gather_head by (apply Forall_forall; intros k Hk; apply in_seq in Hk; lia).
    apply gather_all.
  - fold (gather d (x ++ y :: z) (seq (S (length x)) (n - S (length x)))).
    rewrite gather_seq by (rewrite length_app; cbn [length]; lia).
    replace (S (length x)) with (length x + 1)%nat by lia.
    rewrite skipn_app_exact. cbn [skipn]. apply firstn_all2. lia.
Qed.

(** The inner loop of lines 397-415 moves position [j] to the front, by
    [j] swaps of neighbours. *)
Lemma front_fold_track n s_init o_init perm st j :
  (j < n)%nat -> rstate_track n s_init o_init perm st ->
  forall k, (k <= j)%nat ->
    rstate_track n s_init o_init (gather 0%nat perm (front_step n j k))
      (fold_left
         (fun st i => swap_record n st (j - 1 - i) (j - i) (j - i) (j - i + 1))
         (seq 0 k) st) /\
    rotations
      (fold_left
         (fun st i => swap_record n st (j - 1 - i) (j - i) (j - i) (j - i + 1))
         (seq 0 k) st)
    = rotations st ++ map (fun i => ((j - i)%nat, (j - i + 1)%nat, 0)) (seq 0 k).
Proof.
  intros Hj Htr. induction k as [|k IH]; intros Hk.
  - cbn [seq fold_left map]. rewrite app_nil_r. split; [| reflexivity].
    rewrite front_step_0 by assumption.
    assert (Hlen : length perm = n) by (apply is_perm_length, Htr).
    assert (E : gather 0%nat perm (seq 0 n) = perm)
      by (rewrite <- Hlen; apply gather_all).
    now rewrite E.
  - destruct IH as (IHtr & IHrot); [lia|].
    rewrite seq_S, fold_left_app, map_app. cbn [fold_left map Nat.add].
    split.
    + rewrite <- front_step_S by lia.
      rewrite <- gather_gather.
      * apply swap_record_track; [exact IHtr | lia | lia].
      * assert (Hlen : length (front_step n j k) = n).
        { unfold front_step. rewrite !length_app, !length_seq. cbn [length]. lia. }
        rewrite Hlen. apply is_perm_lt, adj_swap_perm. lia.
    + cbn [swap_record rotations]. rewrite IHrot. now rewrite <- app_assoc.
Qed.

Lemma filter_split_perm {A : Type} (f : A -> bool) (l : list A) :
  Permutation (filter f l ++ filter (fun x => negb (f x)) l) l.
Proof.
  induction l as [|a l IH]; cbn [filter]; [reflexivity|].
  destruct (f a); cbn [negb app].
  - now constructor.
  - rewrite <- Permutation_middle. now constructor.
Qed.

Lemma closed_order_perm n N_cas m N :
  (N_cas + m <= n)%nat -> is_perm n (closed_order n N_cas m N).
Proof.
  intros Hle. unfold is_perm, closed_order.
  replace n with (N_cas + (m + (n - (N_cas + m))))%nat at 2 by lia.
  rewrite !seq_app. cbn [Nat.add].
  rewrite Permutation_app_swap_app. apply Permutation_app_head.
  rewrite !app_assoc. apply Permutation_app_tail.
  rewrite <- Permutation_rev. apply filter_split_perm.
Qed.

Lemma closed_order_0 n N_cas N :
  (N_cas <= n)%nat -> closed_order n N_cas 0 N = seq 0 n.
Proof.
  intros Hle. unfold closed_order, closed_indices, open_indices.
  cbn [seq filter rev app]. rewrite Nat.add_0_r.
  replace n with (N_cas + (n - N_cas))%nat at 2 by lia.
  now rewrite seq_app.
Qed.

Lemma closed_front_length N_cas m N :
  length (rev (closed_indices N_cas m N) ++ seq 0 N_cas ++ open_indices N_cas m N)
  = (N_cas + m)%nat.
Proof.
  rewrite !length_app, length_rev, length_seq.
  assert (H := filter_length (is_closed N) (seq N_cas m)).
  rewrite length_seq in H. unfold closed_indices, open_indices. lia.
Qed.

Lemma closed_order_split n N_cas m N :
  (N_cas + m < n)%nat ->
  closed_order n N_cas m N
  = (rev (closed_indices N_cas m N) ++ seq 0 N_cas ++ open_indices N_cas m N)
    ++ (N_cas + m)%nat :: seq (S (N_cas + m)) (n - S (N_cas + m)).
Proof.
  intros Hlt. unfold closed_order.
  replace (n - (N_cas + m))%nat with (S (n - S (N_cas + m))) by lia.
  cbn [seq]. now rewrite <- !app_assoc.
Qed.

Lemma nth_closed_order n N_cas m N :
  (N_cas + m < n)%nat ->
  nth (N_cas + m) (closed_order n N_cas m N) 0%nat = (N_cas + m)%nat.
Proof.
  intros Hlt. rewrite closed_order_split by assumption.
  rewrite <- (closed_front_length N_cas m N) at 1. apply nth_middle.
Qed.

Lemma closed_order_S_closed n N_cas m N :
  (N_cas + m < n)%nat -> is_closed N (N_cas + m) = true ->
  gather 0%nat (closed_order n N_cas m N) (to_front n (N_cas + m))
  = closed_order n N_cas (S m) N.
Proof.
  intros Hlt Hc. rewrite closed_order_split by assumption.
  pose proof (gather_to_front 0%nat
                (rev (closed_indices N_cas m N) ++ seq 0 N_cas ++ open_indices N_cas m N)
                (N_cas + m)%nat (seq (S (N_cas + m)) (n - S (N_cas + m))) n) as E.
  rewrite closed_front_length in E. rewrite E.
  - unfold closed_order, closed_indices, open_indices.
    rewrite !seq_S, !filter_app. cbn [filter]. rewrite Hc. cbn [negb].
    rewrite rev_app_distr, !app_nil_r. cbn [rev app].
    replace (N_cas + S m)%nat with (S (N_cas + m)) by lia.
    now rewrite <- !app_assoc.
  - rewrite length_app, closed_front_length. cbn [length]. rewrite length_seq. lia.
Qed.

Lemma closed_order_S_open n N_cas m N :
  (N_cas + m < n)%nat -> is_closed N (N_cas + m) = false ->
  closed_order n N_cas (S m) N = closed_order n N_cas m N.
Proof.
  intros Hlt Hc. rewrite (closed_order_split n N_cas m) by assumption.
  unfold closed_order, closed_indices, open_indices.
  rewrite !seq_S, !filter_app. cbn [filter]. rewrite Hc. cbn [negb].
  rewrite !app_nil_r.
  replace (N_cas + S m)%nat with (S (N_cas + m)) by lia.
  now rewrite <- !app_assoc.
Qed.

(** The second phase of [reorder] from a state that follows [perm]. *)
Lemma closed_phase_result n s_init o_init perm st N_cas :
  (N_cas <= n)%nat -> rstate_track n s_init o_init perm st ->
  exists st',
    closed_phase n N_cas st
    = (st', length (closed_indices N_cas (n - N_cas) (N1 st))) /\
    rstate_track n s_init o_init
      (gather 0%nat perm (closed_order n N_cas (n - N_cas) (N1 st))) st' /\
    (length (rotations st')
     = length (rotations st) + list_sum (closed_indices N_cas (n - N_cas) (N1 st)))%nat /\
    (Forall (fun r : rotation => snd r = 0 /\ snd (fst r) = S (fst (fst r)))
       (rotations st) ->
     Forall (fun r : rotation => snd r = 0 /\ snd (fst r) = S (fst (fst r)))
       (rotations st')).
Proof.
  intros Hle Htr. destruct (rstate_track_length _ _ _ _ _ Htr) as (HS & HN).
  assert (Hplen : length perm = n) by (apply is_perm_length, Htr).
  unfold closed_phase. rewrite HS.
  match goal with
  | |- context [fold_left ?f _ _] => set (F := f)
  end.
  assert (Hm : forall m, (N_cas + m <= n)%nat ->
            exists st',
              fold_left F (seq N_cas m) (st, 0%nat)
              = (st', length (closed_indices N_cas m (N1 st))) /\
              rstate_track n s_init o_init
                (gather 0%nat perm (closed_order n N_cas m (N1 st))) st' /\
              (length (rotations st')
               = length (rotations st) + list_sum (closed_indices N_cas m (N1 st)))%nat /\
              (Forall (fun r : rotation => snd r = 0 /\ snd (fst r) = S (fst (fst r)))
                 (rotations st) ->
               Forall (fun r : rotation => snd r = 0 /\ snd (fst r) = S (fst (fst r)))
                 (rotations st'))).
  { induction m as [|m IH]; intros Hm.
    - exists st. cbn [seq fold_left]. split; [reflexivity|].
      rewrite closed_order_0 by assumption.
      assert (E : gather 0%nat perm (seq 0 n) = perm)
        by (rewrite <- Hplen; apply gather_all).
      rewrite E. split; [exact Htr|].
      unfold closed_indices. cbn [seq filter list_sum fold_right]. split; [lia | auto].
    - destruct IH as (st1 & Hrun & Htr1 & Hcount & Hrec); [lia|].
      rewrite seq_S, fold_left_app, Hrun. cbn [fold_left].
      assert (HN1 : nth (N_cas + m) (N1 st1) 0 = nth (N_cas + m) (N1 st) 0).
      { assert (Hco := closed_order_perm n N_cas m (N1 st) ltac:(lia)).
        assert (Hnth := nth_closed_order n N_cas m (N1 st) ltac:(lia)).
        set (co := closed_order n N_cas m (N1 st)) in *.
        destruct Htr as (_ & _ & _ & HNst). destruct Htr1 as (_ & _ & _ & HNst1).
        rewrite HNst1, HNst.
        rewrite <- gather_gather by (rewrite Hplen; now apply is_perm_lt).
        rewrite nth_gather by (rewrite (is_perm_length _ _ Hco); lia).
        now rewrite Hnth. }
      unfold F at 1. rewrite HN1.
      assert (Hsplit : closed_indices N_cas (S m) (N1 st)
                       = closed_indices N_cas m (N1 st)
                         ++ (if is_closed (N1 st) (N_cas + m)
                             then [(N_cas + m)%nat] else [])).
      { unfold closed_indices. rewrite seq_S, filter_app. cbn [filter].
        now destruct (is_closed (N1 st) (N_cas + m)). }
      rewrite Hsplit. unfold is_closed.
      destruct (Rgt_dec (nth (N_cas + m) (N1 st) 0) 1) as [Hgt | Hngt].
      + destruct (front_fold_track n s_init o_init _ st1 (N_cas + m) ltac:(lia) Htr1
                    (N_cas + m)%nat (le_n _)) as (Htr2 & Hrot2).
        eexists. split; [| split; [| split]].
        * rewrite length_app. cbn [length]. reflexivity.
        * rewrite <- closed_order_S_closed
            by (try lia; unfold is_closed; now destruct (Rgt_dec (nth (N_cas + m) (N1 st) 0) 1)).
          rewrite <- gather_gather; [exact Htr2|].
          rewrite (is_perm_length _ _ (closed_order_perm n N_cas m (N1 st) ltac:(lia))).
          apply is_perm_lt, front_step_perm; lia.
        * rewrite Hrot2, length_app, length_map, length_seq, list_sum_app.
          cbn [list_sum fold_right]. lia.
        * intros H0. rewrite Hrot2. apply Forall_app. split; [now apply Hrec|].
          apply Forall_forall. intros r Hr. apply in_map_iff in Hr.
          destruct Hr as (i & <- & _). cbn [fst snd]. split; [reflexivity | lia].
      + exists st1. rewrite app_nil_r. split; [reflexivity|].
        rewrite closed_order_S_open
          by (try lia; unfold is_closed; now destruct (Rgt_dec (nth (N_cas + m) (N1 st) 0) 1)).
        split; [exact Htr1 | split; [exact Hcount | exact Hrec]]. }
  apply Hm. lia.
Qed.

Lemma rstate_track_compose n s_init o_init perm st inds st' :
  rstate_track n s_init o_init perm st ->
  rstate_track n s_init o_init (gather 0%nat perm inds) st' ->
  is_perm n inds ->
  S1 st' = gather 0 (S1 st) inds /\ N1 st' = gather 0 (N1 st) inds.
Proof.
  intros (Hperm & _ & HS & HN) (_ & _ & HS' & HN') Hinds.
  assert (Hlt : Forall (fun k => (k < length perm)%nat) inds)
    by (rewrite (is_perm_length _ _ Hperm); now apply is_perm_lt).
  rewrite HS', HN', HS, HN. now rewrite !gather_gather.
Qed.

(** Both phases of [reorder]: [st] is the state after the first and
    [st'] the one after the second. *)
Lemma reorder_result shannon gamma Gamma fuel N_cas :
  (len Gamma * (len Gamma - 1) / 2 < fuel)%nat -> (N_cas <= len Gamma)%nat ->
  exists st st',
    bubble_phase shannon fuel gamma Gamma = Some st /\
    StronglySorted Rge (S1 st) /\
    length (S1 st) = len Gamma /\ length (N1 st) = len Gamma /\
    length (rotations st) = inversions (S1 (reorder_init shannon gamma Gamma)) /\
    reorder shannon fuel gamma Gamma N_cas
    = Some (rotations st',
            length (closed_indices N_cas (len Gamma - N_cas) (N1 st)),
            V st') /\
    matvec (len Gamma) (V st') (S1 (reorder_init shannon gamma Gamma))
    = gather 0 (S1 st) (closed_order (len Gamma) N_cas (len Gamma - N_cas) (N1 st)) /\
    matvec (len Gamma) (V st') (N1 (reorder_init shannon gamma Gamma))
    = gather 0 (N1 st) (closed_order (len Gamma) N_cas (len Gamma - N_cas) (N1 st)) /\
    orthogonal (len Gamma) (V st') /\
    (length (rotations st')
     = length (rotations st)
       + list_sum (closed_indices N_cas (len Gamma - N_cas) (N1 st)))%nat /\
    Forall (fun r : rotation => snd r = 0 /\ snd (fst r) = S (fst (fst r)))
      (rotations st').
Proof.
  intros Hfuel Hle.
  destruct (bubble_phase_result shannon gamma Gamma fuel Hfuel)
    as (st & perm & Hrun & Htr & Hsorted & Hcount & Hrec).
  destruct (reorder_init_length shannon gamma Gamma) as (HS0 & HN0).
  destruct (rstate_track_length _ _ _ _ _ Htr) as (HS & HN).
  destruct (closed_phase_result _ _ _ _ _ N_cas Hle Htr)
    as (st' & Hrun' & Htr' & Hcount' & Hrec').
  destruct (rstate_track_matvec _ _ _ _ _ HS0 HN0 Htr') as (HmS & HmN & Horth).
  destruct (rstate_track_compose _ _ _ _ _ _ _ Htr Htr') as (ES & EN).
  { apply closed_order_perm. lia. }
  exists st, st'. split; [exact Hrun|]. split; [exact Hsorted|].
  split; [exact HS|]. split; [exact HN|]. split; [exact Hcount|].
  split; [| split; [| split; [| split; [exact Horth | split; [exact Hcount' | auto]]]]].
  - unfold reorder. rewrite Hrun, HS, Hrun'. reflexivity.
  - now rewrite HmS.
  - now rewrite HmN.
Qed.

Lemma gather_closed_order {A : Type} (d : A) (x : list A) N_cas N :
  (N_cas <= length x)%nat ->
  gather d x (closed_order (length x) N_cas (length x - N_cas) N)
  = gather d x (rev (closed_indices N_cas (length x - N_cas) N))
    ++ firstn N_cas x
    ++ gather d x (open_indices N_cas (length x - N_cas) N).
Proof.
  intros Hle. unfold closed_order. rewrite !gather_app.
  rewrite (gather_seq d x 0 N_cas) by lia. cbn [skipn].
  replace (length x - (N_cas + (length x - N_cas)))%nat with 0%nat by lia.
  cbn [seq gather map]. now rewrite app_nil_r.
Qed.

Lemma gather_in_tail (x : list R) N_cas (f : nat -> bool) v :
  In v (gather 0 x (filter f (seq N_cas (length x - N_cas)))) ->
  In v (skipn N_cas x).
Proof.
  unfold gather. intros Hin. apply in_map_iff in Hin.
  destruct Hin as (j & <- & Hj). apply filter_In in Hj. destruct Hj as (Hj & _).
  apply in_seq in Hj.
  replace j with (N_cas + (j - N_cas))%nat by lia. rewrite <- nth_skipn.
  apply nth_In. rewrite length_skipn. lia.
Qed.

Section LegacyClosed.

Variable shannon : list R -> R.

(** X16.  With [N_cas <= len(Gamma)], [reorder] returns [n_closed], the
    number of positions from [N_cas] on whose [N1], after the first
    phase, exceeds 1, and a permutation matrix [V]; [V] takes the
    initial [N1] and [S1] to those of the first phase in the order:
    these positions, the last found first; the first [N_cas] positions;
    the other positions. *)
Theorem reorder_closed_to_front gamma Gamma fuel N_cas :
  (len Gamma * (len Gamma - 1) / 2 < fuel)%nat -> (N_cas <= len Gamma)%nat ->
  exists st rots Vf,
    bubble_phase shannon fuel gamma Gamma = Some st /\
    reorder shannon fuel gamma Gamma N_cas
    = Some (rots, length (closed_indices N_cas (len Gamma - N_cas) (N1 st)), Vf) /\
    matvec (len Gamma) Vf (N1 (reorder_init shannon gamma Gamma))
    = gather 0 (N1 st) (rev (closed_indices N_cas (len Gamma - N_cas) (N1 st)))
      ++ firstn N_cas (N1 st)
      ++ gather 0 (N1 st) (open_indices N_cas (len Gamma - N_cas) (N1 st)) /\
    matvec (len Gamma) Vf (S1 (reorder_init shannon gamma Gamma))
    = gather 0 (S1 st) (rev (closed_indices N_cas (len Gamma - N_cas) (N1 st)))
      ++ firstn N_cas (S1 st)
      ++ gather 0 (S1 st) (open_indices N_cas (len Gamma - N_cas) (N1 st)) /\
    orthogonal (len Gamma) Vf.
Proof.
  intros Hfuel Hle.
  destruct (reorder_result shannon gamma Gamma fuel N_cas Hfuel Hle)
    as (st & st' & Hrun & _ & HS & HN & _ & Hre & HmS & HmN & Horth & _).
  exists st, (rotations st'), (V st').
  split; [exact Hrun|]. split; [exact Hre|].
  split; [| split; [| exact Horth]].
  - rewrite HmN.
    pose proof (gather_closed_order 0 (N1 st) N_cas (N1 st) ltac:(lia)) as E.
    now rewrite HN in E.
  - rewrite HmS.
    pose proof (gather_closed_order 0 (S1 st) N_cas (N1 st) ltac:(lia)) as E.
    now rewrite HS in E.
Qed.

(** X17.  With [N_cas <= len(Gamma)] the matrix [V] that [reorder]
    returns puts the orbitals in three blocks: [n_closed] closed ones,
    each of occupation above 1, [N_cas] active ones, and the rest, none
    of occupation above 1; and every entropy in the active block is at
    least every entropy outside it. *)
Theorem reorder_blocks gamma Gamma fuel N_cas :
  (len Gamma * (len Gamma - 1) / 2 < fuel)%nat -> (N_cas <= len Gamma)%nat ->
  exists rots n_closed Vf closed act virt closed_s act_s virt_s,
    reorder shannon fuel gamma Gamma N_cas = Some (rots, n_closed, Vf) /\
    matvec (len Gamma) Vf (N1 (reorder_init shannon gamma Gamma))
    = closed ++ act ++ virt /\
    matvec (len Gamma) Vf (S1 (reorder_init shannon gamma Gamma))
    = closed_s ++ act_s ++ virt_s /\
    length closed = n_closed /\ length closed_s = n_closed /\
    length act = N_cas /\ length act_s = N_cas /\
    (n_closed <= len Gamma - N_cas)%nat /\
    Forall (fun v => v > 1) closed /\
    Forall (fun v => ~ v > 1) virt /\
    forall a b, In a act_s -> In b (closed_s ++ virt_s) -> a >= b.
Proof.
  intros Hfuel Hle.
  destruct (reorder_result shannon gamma Gamma fuel N_cas Hfuel Hle)
    as (st & st' & Hrun & Hsorted & HS & HN & _ & Hre & HmS & HmN & _).
  pose proof (gather_closed_order 0 (N1 st) N_cas (N1 st) ltac:(lia)) as EN.
  pose proof (gather_closed_order 0 (S1 st) N_cas (N1 st) ltac:(lia)) as ES.
  rewrite HN in EN. rewrite HS in ES. rewrite EN in HmN. rewrite ES in HmS.
  do 9 eexists. split; [exact Hre|]. split; [exact HmN|]. split; [exact HmS|].
  assert (Hcl : (length (closed_indices N_cas (len Gamma - N_cas) (N1 st))
                 <= len Gamma - N_cas)%nat).
  { unfold closed_indices.
    pose proof (filter_length_le (is_closed (N1 st)) (seq N_cas (len Gamma - N_cas))) as H.
    now rewrite length_seq in H. }
  split; [| split; [| split; [| split; [| split; [exact Hcl | split; [| split]]]]]].
  - unfold gather. now rewrite length_map, length_rev.
  - unfold gather. now rewrite length_map, length_rev.
  - rewrite length_firstn. lia.
  - rewrite length_firstn. lia.
  - apply Forall_forall. intros v Hv. unfold gather in Hv.
    apply in_map_iff in Hv. destruct Hv as (j & <- & Hj).
    apply in_rev, filter_In in Hj. destruct Hj as (_ & Hj).
    unfold is_closed in Hj. now destruct (Rgt_dec (nth j (N1 st) 0) 1).
  - apply Forall_forall. intros v Hv. unfold gather in Hv.
    apply in_map_iff in Hv. destruct Hv as (j & <- & Hj).
    apply filter_In in Hj. destruct Hj as (_ & Hj).
    unfold is_closed in Hj. now destruct (Rgt_dec (nth j (N1 st) 0) 1).
  - intros a b Ha Hb.
    apply (sorted_app_ge (firstn N_cas (S1 st)) (skipn N_cas (S1 st))).
    + now rewrite firstn_skipn.
    + exact Ha.
    + apply in_app_or in Hb. destruct Hb as [Hb | Hb].
      * unfold closed_indices in Hb. rewrite <- filter_rev in Hb.
        unfold gather in Hb. apply in_map_iff in Hb.
        destruct Hb as (j & <- & Hj). apply filter_In in Hj.
        destruct Hj as (Hj & _). apply in_rev, in_seq in Hj.
        replace j with (N_cas + (j - N_cas))%nat by lia. rewrite <- nth_skipn.
        apply nth_In. rewrite length_skipn. lia.
      * unfold open_indices in Hb. rewrite <- HS in Hb.
        now apply gather_in_tail in Hb.
Qed.

(** X18.  With [N_cas <= len(Gamma)] the rotation records of [reorder]
    are swaps of neighbours with angle 0: one for every pair of the
    initial [S1] that is out of order, and [j] more for every position
    [j] that the second phase moves to the front. *)
Theorem reorder_rotation_records gamma Gamma fuel N_cas :
  (len Gamma * (len Gamma - 1) / 2 < fuel)%nat -> (N_cas <= len Gamma)%nat ->
  exists st rots n_closed Vf,
    bubble_phase shannon fuel gamma Gamma = Some st /\
    reorder shannon fuel gamma Gamma N_cas = Some (rots, n_closed, Vf) /\
    (length rots
     = inversions (S1 (reorder_init shannon gamma Gamma))
       + list_sum (closed_indices N_cas (len Gamma - N_cas) (N1 st)))%nat /\
    Forall (fun r : rotation => snd r = 0 /\ snd (fst r) = S (fst (fst r))) rots.
Proof.
  intros Hfuel Hle.
  destruct (reorder_result shannon gamma Gamma fuel N_cas Hfuel Hle)
    as (st & st' & Hrun & _ & _ & _ & Hcount & Hre & _ & _ & _ & Hcount' & Hrec).
  exists st. do 3 eexists. split; [exact Hrun|]. split; [exact Hre|].
  split; [lia | exact Hrec].
Qed.

End LegacyClosed.

Lemma reorder_closed_to_front_witness :
  exists st rots Vf,
    bubble_phase shannon_spec 2 eye Gamma_zero2 = Some st /\
    reorder shannon_spec 2 eye Gamma_zero2 1
    = Some (rots, length (closed_indices 1 (2 - 1) (N1 st)), Vf) /\
    matvec 2 Vf (N1 (reorder_init shannon_spec eye Gamma_zero2))
    = gather 0 (N1 st) (rev (closed_indices 1 (2 - 1) (N1 st)))
      ++ firstn 1 (N1 st)
      ++ gather 0 (N1 st) (open_indices 1 (2 - 1) (N1 st)) /\
    matvec 2 Vf (S1 (reorder_init shannon_spec eye Gamma_zero2))
    = gather 0 (S1 st) (rev (closed_indices 1 (2 - 1) (N1 st)))
      ++ firstn 1 (S1 st)
      ++ gather 0 (S1 st) (open_indices 1 (2 - 1) (N1 st)) /\
    orthogonal 2 Vf.
Proof.
  apply (reorder_closed_to_front shannon_spec eye Gamma_zero2 2 1); cbn; lia.
Defined.

Lemma reorder_blocks_witness :
  exists rots n_closed Vf closed act virt closed_s act_s virt_s,
    reorder shannon_spec 2 eye Gamma_zero2 1 = Some (rots, n_closed, Vf) /\
    matvec 2 Vf (N1 (reorder_init shannon_spec eye Gamma_zero2))
    = closed ++ act ++ virt /\
    matvec 2 Vf (S1 (reorder_init shannon_spec eye Gamma_zero2))
    = closed_s ++ act_s ++ virt_s /\
    length closed = n_closed /\ length closed_s = n_closed /\
    length act = 1%nat /\ length act_s = 1%nat /\
    (n_closed <= 2 - 1)%nat /\
    Forall (fun v => v > 1) closed /\
    Forall (fun v => ~ v > 1) virt /\
    forall a b, In a act_s -> In b (closed_s ++ virt_s) -> a >= b.
Proof.
  apply (reorder_blocks shannon_spec eye Gamma_zero2 2 1); cbn; lia.
Defined.

Lemma reorder_rotation_records_witness :
  exists st rots n_closed Vf,
    bubble_phase shannon_spec 2 eye Gamma_zero2 = Some st /\
    reorder shannon_spec 2 eye Gamma_zero2 1 = Some (rots, n_closed, Vf) /\
    (length rots
     = inversions (S1 (reorder_init shannon_spec eye Gamma_zero2))
       + list_sum (closed_indices 1 (2 - 1) (N1 st)))%nat /\
    Forall (fun r : rotation => snd r = 0 /\ snd (fst r) = S (fst (fst r))) rots.
Proof.
  apply (reorder_rotation_records shannon_spec eye Gamma_zero2 2 1); cbn; lia.
Defined.

(** ** callback: projecting on the CAS and back *)

Lemma contract_comm2 n n' M M' (h : nat -> nat -> R) i j :
  contract n M (fun a => contract n' M' (fun b => h a b) j) i
  = contract n' M' (fun b => contract n M (fun a => h a b) i) j.
Proof.
  unfold contract.
  transitivity (sum_over (seq 0 n) (fun a =>
                  sum_over (seq 0 n') (fun b => M i a * (M' j b * h a b)))).
  - apply sum_over_ext. intros a _. now rewrite sum_over_scal.
  - rewrite sum_over_swap. apply sum_over_ext. intros b _.
    rewrite <- sum_over_scal. apply sum_over_ext. intros a _. ring.
Qed.

(** Lifting one index from the CAS and projecting it again. *)
Lemma project_lift_index n k P (h : nat -> R) i :
  orthonormal_columns n k P -> (i < k)%nat ->
  contract n (transpose P) (fun I => contract k P h I) i = h i.
Proof.
  intros HP Hi. unfold contract, transpose.
  transitivity (sum_over (seq 0 k) (fun i' =>
                  sum_over (seq 0 n) (fun I => P I i * P I i') * h i')).
  - transitivity (sum_over (seq 0 n) (fun I =>
                    sum_over (seq 0 k) (fun i' => P I i * P I i' * h i'))).
    + apply sum_over_ext. intros I _. rewrite <- sum_over_scal.
      apply sum_over_ext. intros i' _. ring.
    + rewrite sum_over_swap. apply sum_over_ext. intros i' _.
      rewrite (Rmult_comm _ (h i')), <- sum_over_scal.
      apply sum_over_ext. intros I _. ring.
  - rewrite (sum_over_one _ i).
    + rewrite HP by assumption. unfold eye. rewrite Nat.eqb_refl. lra.
    + apply seq_NoDup.
    + apply in_seq. lia.
    + intros m Hm Hne. apply in_seq in Hm. rewrite HP by lia.
      unfold eye. destruct (Nat.eqb_spec i m); [congruence | lra].
Qed.

Lemma project_t1_contract sh pocc pvir t1 i a :
  project_t1 sh pocc pvir t1 i a
  = contract (no_cc sh) (transpose pocc) (fun I =>
      contract (nv_cc sh) (transpose pvir) (fun A => t1 I A) a) i.
Proof.
  unfold project_t1, contract, transpose.
  apply sum_over_ext. intros I _. rewrite <- sum_over_scal.
  apply sum_over_ext. intros A _. ring.
Qed.

Lemma lift_t1_contract sh pocc pvir dt1 I A :
  lift_t1 sh pocc pvir dt1 I A
  = contract (no_cas sh) pocc (fun i =>
      contract (nv_cas sh) pvir (fun a => dt1 i a) A) I.
Proof.
  unfold lift_t1, contract.
  apply sum_over_ext. intros i _. rewrite <- sum_over_scal.
  apply sum_over_ext. intros a _. ring.
Qed.

Lemma project_t2_contract sh pocc pvir t2 i j a b :
  project_t2 sh pocc pvir t2 i j a b
  = contract (no_cc sh) (transpose pocc) (fun I =>
    contract (no_cc sh) (transpose pocc) (fun J =>
    contract (nv_cc sh) (transpose pvir) (fun A =>
    contract (nv_cc sh) (transpose pvir) (fun B => t2 I J A B) b) a) j) i.
Proof.
  unfold project_t2, contract, transpose.
  apply sum_over_ext. intros I _. rewrite <- sum_over_scal.
  apply sum_over_ext. intros J _. rewrite <- !sum_over_scal.
  apply sum_over_ext. intros A _. rewrite <- !sum_over_scal.
  apply sum_over_ext. intros B _. ring.
Qed.

Lemma lift_t2_contract sh pocc pvir dt2 I J A B :
  lift_t2 sh pocc pvir dt2 I J A B
  = contract (no_cas sh) pocc (fun i =>
    contract (no_cas sh) pocc (fun j =>
    contract (nv_cas sh) pvir (fun a =>
    contract (nv_cas sh) pvir (fun b => dt2 i j a b) B) A) J) I.
Proof.
  unfold lift_t2, contract.
  apply sum_over_ext. intros i _. rewrite <- sum_over_scal.
  apply sum_over_ext. intros j _. rewrite <- !sum_over_scal.
  apply sum_over_ext. intros a _. rewrite <- !sum_over_scal.
  apply sum_over_ext. intros b _. ring.
Qed.

Section ProjectLift.

Variables (sh : shapes) (pocc pvir : matrix).
Hypothesis Hocc : orthonormal_columns (no_cc sh) (no_cas sh) pocc.
Hypothesis Hvir : orthonormal_columns (nv_cc sh) (nv_cas sh) pvir.

Lemma project_lift_t1 dt1 i a :
  (i < no_cas sh)%nat -> (a < nv_cas sh)%nat ->
  project_t1 sh pocc pvir (lift_t1 sh pocc pvir dt1) i a = dt1 i a.
Proof.
  intros Hi Ha. rewrite project_t1_contract.
  transitivity (contract (no_cc sh) (transpose pocc) (fun I =>
                  contract (no_cas sh) pocc (fun i' => dt1 i' a) I) i).
  - apply contract_ext. intros I.
    transitivity (contract (nv_cc sh) (transpose pvir) (fun A =>
                    contract (no_cas sh) pocc (fun i' =>
                      contract (nv_cas sh) pvir (fun a' => dt1 i' a') A) I) a).
    + apply contract_ext. intros A. apply lift_t1_contract.
    + rewrite contract_comm2. apply contract_ext. intros i'.
      now apply project_lift_index.
  - now apply (project_lift_index _ _ _ (fun i' => dt1 i' a)).
Qed.

Lemma project_lift_t2 dt2 i j a b :
  (i < no_cas sh)%nat -> (j < no_cas sh)%nat ->
  (a < nv_cas sh)%nat -> (b < nv_cas sh)%nat ->
  project_t2 sh pocc pvir (lift_t2 sh pocc pvir dt2) i j a b = dt2 i j a b.
Proof.
  intros Hi Hj Ha Hb. rewrite project_t2_contract.
  transitivity
    (contract (no_cc sh) (transpose pocc) (fun I =>
     contract (no_cc sh) (transpose pocc) (fun J =>
     contract (nv_cc sh) (transpose pvir) (fun A =>
     contract (nv_cc sh) (transpose pvir) (fun B =>
       contract (no_cas sh) pocc (fun i' =>
       contract (no_cas sh) pocc (fun j' =>
       contract (nv_cas sh) pvir (fun a' =>
       contract (nv_cas sh) pvir (fun b' => dt2 i' j' a' b') B) A) J) I) b) a) j) i).
  { do 4 (apply contract_ext; intro). apply lift_t2_contract. }
  transitivity
    (contract (no_cc sh) (transpose pocc) (fun I =>
     contract (no_cas sh) pocc (fun i' =>
     contract (no_cc sh) (transpose pocc) (fun J =>
     contract (no_cas sh) pocc (fun j' =>
     contract (nv_cc sh) (transpose pvir) (fun A =>
     contract (nv_cas sh) pvir (fun a' =>
     contract (nv_cc sh) (transpose pvir) (fun B =>
     contract (nv_cas sh) pvir (fun b' => dt2 i' j' a' b') B) b) A) a) J) j) I) i).
  { apply contract_ext. intros I.
    transitivity
      (contract (no_cc sh) (transpose pocc) (fun J =>
       contract (no_cas sh) pocc (fun i' =>
       contract (no_cas sh) pocc (fun j' =>
       contract (nv_cc sh) (transpose pvir) (fun A =>
       contract (nv_cas sh) pvir (fun a' =>
       contract (nv_cc sh) (transpose pvir) (fun B =>
       contract (nv_cas sh) pvir (fun b' => dt2 i' j' a' b') B) b) A) a) J) I) j).
    - apply contract_ext. intros J.
      transitivity
        (contract (nv_cc sh) (transpose pvir) (fun A =>
         contract (no_cas sh) pocc (fun i' =>
         contract (no_cas sh) pocc (fun j' =>
         contract (nv_cas sh) pvir (fun a' =>
         contract (nv_cc sh) (transpose pvir) (fun B =>
         contract (nv_cas sh) pvir (fun b' => dt2 i' j' a' b') B) b) A) J) I) a).
      + apply contract_ext. intros A.
        rewrite contract_comm2. apply contract_ext. intros i'.
        rewrite contract_comm2. apply contract_ext. intros j'.
        now rewrite contract_comm2.
      + rewrite contract_comm2. apply contract_ext. intros i'.
        now rewrite contract_comm2.
    - now rewrite contract_comm2. }
  rewrite project_lift_index by assumption.
  rewrite project_lift_index by assumption.
  rewrite project_lift_index by assumption.
  now rewrite project_lift_index.
Qed.

End ProjectLift.

Lemma project_t1_plus sh pocc pvir (x y : matrix) i a :
  project_t1 sh pocc pvir (fun I A => x I A + y I A) i a
  = project_t1 sh pocc pvir x i a + project_t1 sh pocc pvir y i a.
Proof.
  unfold project_t1. rewrite <- sum_over_plus.
  apply sum_over_ext. intros I _. rewrite <- sum_over_plus.
  apply sum_over_ext. intros A _. ring.
Qed.

Lemma project_t2_plus sh pocc pvir (x y : tensor4) i j a b :
  project_t2 sh pocc pvir (fun I J A B => x I J A B + y I J A B) i j a b
  = project_t2 sh pocc pvir x i j a b + project_t2 sh pocc pvir y i j a b.
Proof.
  unfold project_t2. rewrite <- sum_over_plus.
  apply sum_over_ext. intros I _. rewrite <- sum_over_plus.
  apply sum_over_ext. intros J _. rewrite <- sum_over_plus.
  apply sum_over_ext. intros A _. rewrite <- sum_over_plus.
  apply sum_over_ext. intros B _. ring.
Qed.

Lemma lift_t1_zero sh pocc pvir (d : matrix) I A :
  (forall i a, (i < no_cas sh)%nat -> (a < nv_cas sh)%nat -> d i a = 0) ->
  lift_t1 sh pocc pvir d I A = 0.
Proof.
  intros H. unfold lift_t1.
  apply sum_over_zero. intros i Hi. apply in_seq in Hi.
  apply sum_over_zero. intros a Ha. apply in_seq in Ha.
  rewrite H by lia. ring.
Qed.

Lemma lift_t2_zero sh pocc pvir (d : tensor4) I J A B :
  (forall i j a b, (i < no_cas sh)%nat -> (j < no_cas sh)%nat ->
     (a < nv_cas sh)%nat -> (b < nv_cas sh)%nat -> d i j a b = 0) ->
  lift_t2 sh pocc pvir d I J A B = 0.
Proof.
  intros H. unfold lift_t2.
  apply sum_over_zero. intros i Hi. apply in_seq in Hi.
  apply sum_over_zero. intros j Hj. apply in_seq in Hj.
  apply sum_over_zero. intros a Ha. apply in_seq in Ha.
  apply sum_over_zero. intros b Hb. apply in_seq in Hb.
  rewrite H by lia. ring.
Qed.

(** The CAS part of the amplitudes after [callback]. *)
Lemma callback_projection sh tl t1 t2 :
  orthonormal_columns (no_cc sh) (no_cas sh) (tl_pocc tl) ->
  orthonormal_columns (nv_cc sh) (nv_cas sh) (tl_pvir tl) ->
  (forall i a, (i < no_cas sh)%nat -> (a < nv_cas sh)%nat ->
     project_t1 sh (tl_pocc tl) (tl_pvir tl) (fst (callback sh tl (t1, t2))) i a
     = t1cas_fci tl i a) /\
  (forall i j a b, (i < no_cas sh)%nat -> (j < no_cas sh)%nat ->
     (a < nv_cas sh)%nat -> (b < nv_cas sh)%nat ->
     project_t2 sh (tl_pocc tl) (tl_pvir tl) (snd (callback sh tl (t1, t2))) i j a b
     = t2cas_fci tl i j a b).
Proof.
  intros Hocc Hvir. cbn [callback fst snd]. split.
  - intros i a Hi Ha. rewrite project_t1_plus.
    rewrite project_lift_t1 by assumption. ring.
  - intros i j a b Hi Hj Ha Hb. rewrite project_t2_plus.
    rewrite project_lift_t2 by assumption. ring.
Qed.

(** X19.  When the columns of [pocc] and of [pvir] are orthonormal, the
    amplitudes that [callback] leaves, projected on the CAS, are the FCI
    amplitudes [t1cas_fci] and [t2cas_fci]. *)
Theorem callback_tailors sh tl t1 t2 :
  orthonormal_columns (no_cc sh) (no_cas sh) (tl_pocc tl) ->
  orthonormal_columns (nv_cc sh) (nv_cas sh) (tl_pvir tl) ->
  (forall i a, (i < no_cas sh)%nat -> (a < nv_cas sh)%nat ->
     project_t1 sh (tl_pocc tl) (tl_pvir tl) (fst (callback sh tl (t1, t2))) i a
     = t1cas_fci tl i a) /\
  (forall i j a b, (i < no_cas sh)%nat -> (j < no_cas sh)%nat ->
     (a < nv_cas sh)%nat -> (b < nv_cas sh)%nat ->
     project_t2 sh (tl_pocc tl) (tl_pvir tl) (snd (callback sh tl (t1, t2))) i j a b
     = t2cas_fci tl i j a b).
Proof.
  apply callback_projection.
Qed.

(** X20.  Amplitudes whose projection on the CAS is already the FCI one
    are left as they are by [callback]. *)
Theorem callback_fixed_point sh tl t1 t2 :
  (forall i a, (i < no_cas sh)%nat -> (a < nv_cas sh)%nat ->
     project_t1 sh (tl_pocc tl) (tl_pvir tl) t1 i a = t1cas_fci tl i a) ->
  (forall i j a b, (i < no_cas sh)%nat -> (j < no_cas sh)%nat ->
     (a < nv_cas sh)%nat -> (b < nv_cas sh)%nat ->
     project_t2 sh (tl_pocc tl) (tl_pvir tl) t2 i j a b = t2cas_fci tl i j a b) ->
  (forall I A, fst (callback sh tl (t1, t2)) I A = t1 I A) /\
  (forall I J A B, snd (callback sh tl (t1, t2)) I J A B = t2 I J A B).
Proof.
  intros H1 H2. cbn [callback fst snd]. split.
  - intros I A. rewrite lift_t1_zero; [ring|].
    intros i a Hi Ha. rewrite H1 by assumption. ring.
  - intros I J A B. rewrite lift_t2_zero; [ring|].
    intros i j a b Hi Hj Ha Hb. rewrite H2 by assumption. ring.
Qed.

(** X21.  When the columns of [pocc] and of [pvir] are orthonormal,
    [callback] is idempotent: a second call changes nothing. *)
Theorem callback_idempotent sh tl t1 t2 :
  orthonormal_columns (no_cc sh) (no_cas sh) (tl_pocc tl) ->
  orthonormal_columns (nv_cc sh) (nv_cas sh) (tl_pvir tl) ->
  (forall I A,
     fst (callback sh tl (callback sh tl (t1, t2))) I A
     = fst (callback sh tl (t1, t2)) I A) /\
  (forall I J A B,
     snd (callback sh tl (callback sh tl (t1, t2))) I J A B
     = snd (callback sh tl (t1, t2)) I J A B).
Proof.
  intros Hocc Hvir.
  destruct (callback_projection sh tl t1 t2 Hocc Hvir) as (H1 & H2).
  destruct (callback sh tl (t1, t2)) as [t1' t2'] eqn:E. cbn [fst snd] in *.
  cbn [callback fst snd]. split.
  - intros I A. rewrite lift_t1_zero; [ring|].
    intros i a Hi Ha. rewrite H1 by assumption. ring.
  - intros I J A B. rewrite lift_t2_zero; [ring|].
    intros i j a b Hi Hj Ha Hb. rewrite H2 by assumption. ring.
Qed.

(** X22.  [callback] leaves the amplitudes of the CC orbitals that have
    no overlap with the CAS as they are: [t1[I, A]] when row [I] of
    [pocc] or row [A] of [pvir] is zero, and [t2[I, J, A, B]] when one
    of the rows [I], [J] of [pocc] or [A], [B] of [pvir] is. *)
Theorem callback_outside_cas sh tl t1 t2 :
  (forall I A,
     (forall i, (i < no_cas sh)%nat -> tl_pocc tl I i = 0) \/
     (forall a, (a < nv_cas sh)%nat -> tl_pvir tl A a = 0) ->
     fst (callback sh tl (t1, t2)) I A = t1 I A) /\
  (forall I J A B,
     (forall i, (i < no_cas sh)%nat -> tl_pocc tl I i = 0) \/
     (forall i, (i < no_cas sh)%nat -> tl_pocc tl J i = 0) \/
     (forall a, (a < nv_cas sh)%nat -> tl_pvir tl A a = 0) \/
     (forall a, (a < nv_cas sh)%nat -> tl_pvir tl B a = 0) ->
     snd (callback sh tl (t1, t2)) I J A B = t2 I J A B).
Proof.
  cbn [callback fst snd]. split.
  - intros I A H.
    assert (E : forall d, lift_t1 sh (tl_pocc tl) (tl_pvir tl) d I A = 0).
    { intros d. unfold lift_t1.
      apply sum_over_zero. intros i Hi. apply in_seq in Hi.
      apply sum_over_zero. intros a Ha. apply in_seq in Ha.
      destruct H as [H | H]; rewrite H by lia; ring. }
    rewrite E. ring.
  - intros I J A B H.
    assert (E : forall d, lift_t2 sh (tl_pocc tl) (tl_pvir tl) d I J A B = 0).
    { intros d. unfold lift_t2.
      apply sum_over_zero. intros i Hi. apply in_seq in Hi.
      apply sum_over_zero. intros j Hj. apply in_seq in Hj.
      apply sum_over_zero. intros a Ha. apply in_seq in Ha.
      apply sum_over_zero. intros b Hb. apply in_seq in Hb.
      destruct H as [H | [H | [H | H]]]; rewrite H by lia; ring. }
    rewrite E. ring.
Qed.

(** X23.  [make_tailored_ccsd] followed by one [callback], with
    orthonormal columns of [pocc] and [pvir]: the amplitudes projected
    on the CAS give back the CI coefficients, [c0 * t1 = c1] and
    [c0 * (t2 + t1 t1) = c2]. *)
Theorem tailored_callback_matches_fci sh pocc pvir cas tl t1 t2 i j a b :
  make_tailored_ccsd pocc pvir cas = Ok tl ->
  orthonormal_columns (no_cc sh) (no_cas sh) pocc ->
  orthonormal_columns (nv_cc sh) (nv_cas sh) pvir ->
  (i < no_cas sh)%nat -> (j < no_cas sh)%nat ->
  (a < nv_cas sh)%nat -> (b < nv_cas sh)%nat ->
    c0 cas * project_t1 sh pocc pvir (fst (callback sh tl (t1, t2))) i a
    = c1 cas i a /\
    c0 cas * (project_t2 sh pocc pvir (snd (callback sh tl (t1, t2))) i j a b
              + project_t1 sh pocc pvir (fst (callback sh tl (t1, t2))) i a
                * project_t1 sh pocc pvir (fst (callback sh tl (t1, t2))) j b)
    = c2 cas i j a b.
Proof.
  intros Hrun Hocc Hvir Hi Hj Ha Hb.
  unfold make_tailored_ccsd, get_cas_t1t2 in Hrun.
  destruct (Rgt_dec (Rabs (c0 cas)) 1e-8) as [Hc0 | Hc0]; [| discriminate].
  cbn [bind fst snd] in Hrun. injection Hrun as <-.
  assert (Hne : c0 cas <> 0).
  { intros E. rewrite E, Rabs_R0 in Hc0. lra. }
  match goal with
  | |- context [callback sh ?tl0 _] =>
      destruct (callback_projection sh tl0 t1 t2 Hocc Hvir) as (H1 & H2)
  end.
  cbn [tl_pocc tl_pvir t1cas_fci t2cas_fci] in H1, H2.
  rewrite H2 by assumption. rewrite !H1 by assumption.
  split; field; exact Hne.
Qed.

(** ** callback on concrete inputs *)

Lemma eye_orthonormal_2_1 : orthonormal_columns 2 1 eye.
Proof.
  intros i i' Hi Hi'.
  assert (i = 0%nat) by lia. assert (i' = 0%nat) by lia. subst.
  cbn [seq sum_over]. unfold eye. cbn [Nat.eqb]. lra.
Qed.

Lemma callback_tailors_witness :
  (forall i a, (i < 1)%nat -> (a < 1)%nat ->
     project_t1 shapes_small eye eye
       (fst (callback shapes_small tailored_reference (eye, fun _ _ _ _ => 1))) i a
     = t1cas_fci tailored_reference i a) /\
  (forall i j a b, (i < 1)%nat -> (j < 1)%nat -> (a < 1)%nat -> (b < 1)%nat ->
     project_t2 shapes_small eye eye
       (snd (callback shapes_small tailored_reference (eye, fun _ _ _ _ => 1)))
       i j a b
     = t2cas_fci tailored_reference i j a b).
Proof.
  apply (callback_tailors shapes_small tailored_reference eye (fun _ _ _ _ => 1));
    exact eye_orthonormal_2_1.
Defined.

Lemma callback_fixed_point_witness :
  (forall I A,
     fst (callback shapes_small tailored_reference (zeros, fun _ _ _ _ => 0)) I A
     = zeros I A) /\
  (forall I J A B,
     snd (callback shapes_small tailored_reference (zeros, fun _ _ _ _ => 0)) I J A B
     = 0).
Proof.
  apply (callback_fixed_point shapes_small tailored_reference zeros (fun _ _ _ _ => 0)).
  - intros i a _ _. unfold project_t1. cbn. unfold zeros. field.
  - intros i j a b _ _ _ _. unfold project_t2. cbn. unfold zeros. field.
Defined.

Lemma callback_idempotent_witness :
  (forall I A,
     fst (callback shapes_small tailored_reference
            (callback shapes_small tailored_reference (eye, fun _ _ _ _ => 1))) I A
     = fst (callback shapes_small tailored_reference (eye, fun _ _ _ _ => 1)) I A) /\
  (forall I J A B,
     snd (callback shapes_small tailored_reference
            (callback shapes_small tailored_reference (eye, fun _ _ _ _ => 1)))
       I J A B
     = snd (callback shapes_small tailored_reference (eye, fun _ _ _ _ => 1))
         I J A B).
Proof.
  apply (callback_idempotent shapes_small tailored_reference eye (fun _ _ _ _ => 1));
    exact eye_orthonormal_2_1.
Defined.

Lemma tailored_callback_matches_fci_witness :
  c0 cas_reference
  * project_t1 shapes_small eye eye
      (fst (callback shapes_small tailored_reference (eye, fun _ _ _ _ => 1)))
      0%nat 0%nat
  = c1 cas_reference 0%nat 0%nat /\
  c0 cas_reference
  * (project_t2 shapes_small eye eye
       (snd (callback shapes_small tailored_reference (eye, fun _ _ _ _ => 1)))
       0%nat 0%nat 0%nat 0%nat
     + project_t1 shapes_small eye eye
         (fst (callback shapes_small tailored_reference (eye, fun _ _ _ _ => 1)))
         0%nat 0%nat
       * project_t1 shapes_small eye eye
           (fst (callback shapes_small tailored_reference (eye, fun _ _ _ _ => 1)))
           0%nat 0%nat)
  = c2 cas_reference 0%nat 0%nat 0%nat 0%nat.
Proof.
  apply (tailored_callback_matches_fci shapes_small eye eye cas_reference
           tailored_reference eye (fun _ _ _ _ => 1) 0%nat 0%nat 0%nat 0%nat).
  - unfold make_tailored_ccsd, get_cas_t1t2.
    destruct (Rgt_dec (Rabs (c0 cas_reference)) 1e-8) as [_ | Hn].
    + reflexivity.
    + elim Hn. cbn [cas_reference c0]. rewrite Rabs_R1. lra.
  - exact eye_orthonormal_2_1.
  - exact eye_orthonormal_2_1.
  - cbn. lia.
  - cbn. lia.
  - cbn. lia.
  - cbn. lia.
Defined.

(** ** jacobi_transform: what a rotation keeps of the 1-RDM *)

Lemma rot_trace t i j n (h : nat -> nat -> R) :
  i <> j -> (i < n)%nat -> (j < n)%nat ->
  sum_over (seq 0 n) (fun a =>
    rot_row t i j (fun m => rot_row t i j (fun k => h m k) a) a)
  = sum_over (seq 0 n) (fun a => h a a).
Proof.
  intros Hij Hi Hj.
  transitivity (sum_over (seq 0 n) (fun a =>
                  h a a
                  + (rot_row t i j (fun m => rot_row t i j (fun k => h m k) a) a
                     - h a a))).
  { apply sum_over_ext. intros a _. ring. }
  rewrite sum_over_plus.
  assert (E : sum_over (seq 0 n) (fun a =>
                rot_row t i j (fun m => rot_row t i j (fun k => h m k) a) a
                - h a a) = 0).
  { rewrite (sum_over_two _ i j).
    - unfold rot_row. rewrite !Nat.eqb_refl.
      destruct (Nat.eqb_spec j i) as [E | _]; [congruence|].
      assert (H1 := sin2_cos2 t). unfold Rsqr in H1.
      replace (cos t * (cos t * h i i + sin t * h i j)
               + sin t * (cos t * h j i + sin t * h j j) - h i i
               + (- sin t * (- sin t * h i i + cos t * h i j)
                  + cos t * (- sin t * h j i + cos t * h j j) - h j j))
        with ((sin t * sin t + cos t * cos t - 1) * (h i i + h j j)) by ring.
      rewrite H1. ring.
    - apply seq_NoDup.
    - apply in_seq. lia.
    - apply in_seq. lia.
    - exact Hij.
    - intros m _ Hmi Hmj. unfold rot_row.
      destruct (Nat.eqb_spec m i); [congruence|].
      destruct (Nat.eqb_spec m j); [congruence|]. ring. }
  rewrite E. ring.
Qed.

Lemma jacobi_transform_inv gamma Gamma i j t gamma' Gamma' :
  jacobi_transform gamma Gamma i j t = Ok (gamma', Gamma') ->
  (i < len Gamma)%nat /\ (j < len Gamma)%nat /\
  gamma' = transform_gamma (len Gamma) (make_U1 i j t) gamma i j.
Proof.
  unfold jacobi_transform.
  destruct (i <? len Gamma)%nat eqn:Ei; destruct (j <? len Gamma)%nat eqn:Ej;
    cbn [andb]; try discriminate.
  intros E. injection E as <- _.
  apply Nat.ltb_lt in Ei, Ej. auto.
Qed.

(** X24.  A rotation of two distinct orbitals keeps the trace of the
    1-RDM, the number of electrons. *)
Theorem jacobi_transform_trace gamma Gamma i j t gamma' Gamma' :
  i <> j ->
  jacobi_transform gamma Gamma i j t = Ok (gamma', Gamma') ->
  sum_over (seq 0 (2 * len Gamma)) (fun p => gamma' p p)
  = sum_over (seq 0 (2 * len Gamma)) (fun p => gamma p p).
Proof.
  intros Hij Hrun.
  destruct (jacobi_transform_inv _ _ _ _ _ _ _ Hrun) as (Hi & Hj & ->).
  rewrite !sum_over_double, !sum_over_plus.
  apply (f_equal2 Rplus).
  - transitivity (sum_over (seq 0 (len Gamma)) (fun a =>
                    rot_gamma t i j gamma 0 0 a a)).
    + apply sum_over_ext. intros a Ha. apply in_seq in Ha.
      pose proof (transform_gamma_rot (len Gamma) gamma i j t a a 0%nat
                    Hij ltac:(lia) ltac:(lia) ltac:(lia)) as E.
      rewrite Nat.add_0_r in E. exact E.
    + unfold rot_gamma.
      rewrite (rot_trace t i j (len Gamma)
                 (fun m k => gamma (2 * m + 0)%nat (2 * k + 0)%nat)) by assumption.
      apply sum_over_ext. intros a _. now rewrite Nat.add_0_r.
  - transitivity (sum_over (seq 0 (len Gamma)) (fun a =>
                    rot_gamma t i j gamma 1 1 a a)).
    + apply sum_over_ext. intros a Ha. apply in_seq in Ha.
      apply transform_gamma_rot; [exact Hij | lia | lia | lia].
    + unfold rot_gamma.
      apply (rot_trace t i j (len Gamma)
               (fun m k => gamma (2 * m + 1)%nat (2 * k + 1)%nat)); assumption.
Qed.

(** X25.  A rotation of two distinct orbitals keeps the 1-RDM
    symmetric. *)
Theorem jacobi_transform_symmetric gamma Gamma i j t gamma' Gamma' :
  i <> j ->
  (forall p q, (p < 2 * len Gamma)%nat -> (q < 2 * len Gamma)%nat ->
     gamma p q = gamma q p) ->
  jacobi_transform gamma Gamma i j t = Ok (gamma', Gamma') ->
  forall p q, (p < 2 * len Gamma)%nat -> (q < 2 * len Gamma)%nat ->
    gamma' p q = gamma' q p.
Proof.
  intros Hij Hsym Hrun p q Hp Hq.
  destruct (jacobi_transform_inv _ _ _ _ _ _ _ Hrun) as (Hi & Hj & ->).
  destruct (spin_index _ _ Hp) as (a & s & -> & Ha & Hs).
  destruct (spin_index _ _ Hq) as (b & s' & -> & Hb & Hs').
  rewrite !transform_gamma_entry by assumption.
  rewrite (Nat.eqb_sym s' s).
  destruct (Nat.eqb_spec s s') as [<- | _]; [| reflexivity].
  unfold rot_gamma.
  rewrite (rot_row_comm t t i j (fun m n => gamma (2 * m + s)%nat (2 * n + s)%nat)).
  assert (Hg : forall m n, (m < len Gamma)%nat -> (n < len Gamma)%nat ->
             gamma (2 * m + s)%nat (2 * n + s)%nat
             = gamma (2 * n + s)%nat (2 * m + s)%nat)
    by (intros m n Hm Hn; apply Hsym; lia).
  apply rot_row_ext_in; apply rot_row_ext_in; now apply Hg.
Qed.

Lemma jacobi_transform_trace_witness :
  sum_over (seq 0 (2 * len Gamma_zero2))
    (fun p => transform_gamma 2 (make_U1 0 1 1) gamma_half 0%nat 1%nat p p)
  = sum_over (seq 0 (2 * len Gamma_zero2)) (fun p => gamma_half p p).
Proof.
  apply (jacobi_transform_trace gamma_half Gamma_zero2 0 1 1 _
           (mk_ndarray4 2 (einsum4 2 (make_U1 0 1 1) (get4 Gamma_zero2)))).
  - lia.
  - reflexivity.
Defined.

Lemma jacobi_transform_symmetric_witness :
  transform_gamma 2 (make_U1 0 1 1) gamma_half 0%nat 1%nat 0%nat 2%nat
  = transform_gamma 2 (make_U1 0 1 1) gamma_half 0%nat 1%nat 2%nat 0%nat.
Proof.
  apply (jacobi_transform_symmetric gamma_half Gamma_zero2 0 1 1 _
           (mk_ndarray4 2 (einsum4 2 (make_U1 0 1 1) (get4 Gamma_zero2)))).
  - lia.
  - intros p q _ _. unfold gamma_half. now rewrite (Nat.eqb_sym q p).
  - reflexivity.
  - cbn. lia.
  - cbn. lia.
Defined.

(** ** jacobi_transform: the rotation back, and the pair the other way round *)

Lemma rot_row_flip t i j f a :
  i <> j -> rot_row (- t) j i f a = rot_row t i j f a.
Proof.
  intros Hij. unfold rot_row. rewrite cos_neg, sin_neg.
  destruct (Nat.eqb_spec a j) as [-> | Haj].
  - destruct (Nat.eqb_spec j i); [congruence | ring].
  - destruct (Nat.eqb_spec a i); [ring | reflexivity].
Qed.

(** X26.  For [i <> j] below [len(Gamma)], a rotation by [t] followed by
    the rotation by [-t] of the same pair gives back [Gamma] and every
    same-spin entry of [gamma]: the pair [(gamma, Gamma)] itself when
    [gamma] has no mixed-spin entries. *)
Theorem jacobi_transform_round_trip gamma Gamma i j t :
  i <> j -> (i < len Gamma)%nat -> (j < len Gamma)%nat ->
  exists gamma1 Gamma1 gamma2 Gamma2,
    jacobi_transform gamma Gamma i j t = Ok (gamma1, Gamma1) /\
    jacobi_transform gamma1 Gamma1 i j (- t) = Ok (gamma2, Gamma2) /\
    len Gamma2 = len Gamma /\
    t4_eq (len Gamma) (get4 Gamma2) (get4 Gamma) /\
    (forall a b s, (a < len Gamma)%nat -> (b < len Gamma)%nat -> (s < 2)%nat ->
       gamma2 (2 * a + s)%nat (2 * b + s)%nat = gamma (2 * a + s)%nat (2 * b + s)%nat) /\
    (spin_diagonal gamma -> mat_eq (2 * len Gamma) gamma2 gamma).
Proof.
  intros Hij Hi Hj.
  do 4 eexists.
  split; [now apply jacobi_transform_ok|].
  split; [now apply jacobi_transform_ok|].
  cbn [len get4]. split; [reflexivity|].
  assert (Hsame : forall a b s,
            (a < len Gamma)%nat -> (b < len Gamma)%nat -> (s < 2)%nat ->
            transform_gamma (len Gamma) (make_U1 i j (- t))
              (transform_gamma (len Gamma) (make_U1 i j t) gamma i j) i j
              (2 * a + s)%nat (2 * b + s)%nat
            = gamma (2 * a + s)%nat (2 * b + s)%nat).
  { intros a b s Ha Hb Hs.
    rewrite transform_gamma_rot by assumption.
    rewrite <- (rot_gamma_zero i j gamma s s a b).
    replace 0 with (t + - t) by ring.
    rewrite <- rot_gamma_compose by assumption.
    unfold rot_gamma at 1.
    apply rot_row_ext_in; apply rot_row_ext_in; now apply transform_gamma_rot. }
  split; [| split; [exact Hsame|]].
  - intros a b c d Ha Hb Hc Hd.
    rewrite (einsum4_ext _ _ _ (rot4 t i j (get4 Gamma))).
    + rewrite einsum4_rot by assumption. rewrite rot4_compose by assumption.
      replace (t + - t) with 0 by ring. apply rot4_zero.
    + intros a' b' c' d' Ha' Hb' Hc' Hd'. now apply einsum4_rot.
  - intros Hd p q Hp Hq.
    destruct (spin_index _ _ Hp) as (a & s & -> & Ha & Hs).
    destruct (spin_index _ _ Hq) as (b & s' & -> & Hb & Hs').
    destruct (Nat.eq_dec s s') as [<- | Hss]; [now apply Hsame|].
    rewrite transform_gamma_entry by assumption.
    replace (s =? s')%nat with false by (symmetry; now apply Nat.eqb_neq).
    destruct (Hd a b) as [H01 H10].
    assert ((s = 0 /\ s' = 1) \/ (s = 1 /\ s' = 0))%nat as [[-> ->] | [-> ->]] by lia.
    + now rewrite Nat.add_0_r.
    + now rewrite Nat.add_0_r.
Qed.

(** X27.  For [i <> j] below [len(Gamma)], rotating the pair [(j, i)] by
    [-t] is rotating the pair [(i, j)] by [t]: the two calls return the
    same RDMs. *)
Theorem jacobi_transform_flip gamma Gamma i j t :
  i <> j -> (i < len Gamma)%nat -> (j < len Gamma)%nat ->
  exists gamma1 Gamma1 gamma2 Gamma2,
    jacobi_transform gamma Gamma i j t = Ok (gamma1, Gamma1) /\
    jacobi_transform gamma Gamma j i (- t) = Ok (gamma2, Gamma2) /\
    mat_eq (2 * len Gamma) gamma2 gamma1 /\
    len Gamma2 = len Gamma1 /\
    t4_eq (len Gamma) (get4 Gamma2) (get4 Gamma1).
Proof.
  intros Hij Hi Hj.
  assert (Hji : j <> i) by congruence.
  do 4 eexists.
  split; [now apply jacobi_transform_ok|].
  split; [now apply jacobi_transform_ok|].
  cbn [len get4]. split; [| split; [reflexivity|]].
  - intros p q Hp Hq.
    destruct (spin_index _ _ Hp) as (a & s & -> & Ha & Hs).
    destruct (spin_index _ _ Hq) as (b & s' & -> & Hb & Hs').
    rewrite !transform_gamma_entry by assumption.
    destruct (Nat.eqb_spec s s') as [<- | _]; [| reflexivity].
    unfold rot_gamma. rewrite rot_row_flip by assumption.
    apply rot_row_ext. intros m. now apply rot_row_flip.
  - intros a b c d Ha Hb Hc Hd.
    rewrite !einsum4_rot by assumption. unfold rot4.
    rewrite rot_row_flip by assumption. apply rot_row_ext. intros a'.
    rewrite rot_row_flip by assumption. apply rot_row_ext. intros b'.
    rewrite rot_row_flip by assumption. apply rot_row_ext. intros c'.
    now apply rot_row_flip.
Qed.

Lemma jacobi_transform_round_trip_witness :
  exists gamma1 Gamma1 gamma2 Gamma2,
    jacobi_transform gamma_mixed (Gamma_quarter 2) 0 1 1 = Ok (gamma1, Gamma1) /\
    jacobi_transform gamma1 Gamma1 0 1 (- 1) = Ok (gamma2, Gamma2) /\
    len Gamma2 = 2%nat /\
    t4_eq 2 (get4 Gamma2) (get4 (Gamma_quarter 2)) /\
    (forall a b s, (a < 2)%nat -> (b < 2)%nat -> (s < 2)%nat ->
       gamma2 (2 * a + s)%nat (2 * b + s)%nat
       = gamma_mixed (2 * a + s)%nat (2 * b + s)%nat) /\
    (spin_diagonal gamma_mixed -> mat_eq 4 gamma2 gamma_mixed).
Proof.
  apply (jacobi_transform_round_trip gamma_mixed (Gamma_quarter 2) 0 1 1);
    simpl; lia.
Defined.

Lemma jacobi_transform_flip_witness :
  exists gamma1 Gamma1 gamma2 Gamma2,
    jacobi_transform gamma_mixed (Gamma_quarter 2) 0 1 1 = Ok (gamma1, Gamma1) /\
    jacobi_transform gamma_mixed (Gamma_quarter 2) 1 0 (- 1) = Ok (gamma2, Gamma2) /\
    mat_eq 4 gamma2 gamma1 /\
    len Gamma2 = len Gamma1 /\
    t4_eq 2 (get4 Gamma2) (get4 Gamma1).
Proof.
  apply (jacobi_transform_flip gamma_mixed (Gamma_quarter 2) 0 1 1);
    simpl; lia.
Defined.
